(** * Job orchestration and retry/resume engine of the kline exporter

  A shallow embedding of [src/types.ts], [src/api/binance.ts],
  [src/core/storage.ts] and [src/core/taskRunner.ts], followed by the
  properties of the error classifier, the backoff policy, the two-tier
  durable store and the task runner.

  Conventions of the embedding.
  - A JavaScript [number] that holds a count or a time in milliseconds is
    a [Z]; the result of [Number(..)] / [Date.parse(..)], which may be
    [NaN] or infinite, is a [jsnum].
  - A JavaScript string is a [string]; [s.slice(0, n)] is [substring 0 n s].
  - An optional field ([x?: T], [undefined]) is an [option].
  - [async] code is sequential code in a monad over the [World]: the
    runner's fields, the two storage tiers, the calls received by the
    observer, the clock, and the scripted behaviour of the environment
    (storage failures, random draws, user actions during a wait).  A
    thrown exception is the [Throw] result; the world it leaves behind is
    kept, as in JavaScript.
  - The answers of the network are a script, one [FetchOutcome] for each
    call of [fetch]; the retry loop recurses on that script.
  - Module [Turns] gives the same procedures turn by turn, from one
    suspension on a fetch or a timer to the next, so that the turns of
    several loops can be interleaved. *)

From Stdlib Require Import ZArith Lia Ascii String.
From stdpp Require Import base tactics option list strings functions pretty.

Local Open Scope Z_scope.

(** ** src/types.ts *)

Module Types.

Inductive Interval :=
| I1m | I5m | I15m | I1h | I2h | I4h | I12h | I1w | I1M.

#[global] Instance Interval_eq_dec : EqDecision Interval.
Proof. solve_decision. Defined.

Definition INTERVALS : list Interval :=
  [I1m; I5m; I15m; I1h; I2h; I4h; I12h; I1w; I1M].

(** The string that the constant array holds for each key. *)
Definition interval_name (i : Interval) : string :=
  match i with
  | I1m => "1m" | I5m => "5m" | I15m => "15m" | I1h => "1h" | I2h => "2h"
  | I4h => "4h" | I12h => "12h" | I1w => "1w" | I1M => "1M"
  end.

Inductive TaskStatus := pending | running | retrying | done | error.

#[global] Instance TaskStatus_eq_dec : EqDecision TaskStatus.
Proof. solve_decision. Defined.

(** Outcome of [Number(x)] or [Date.parse(x)]. *)
Inductive jsnum := NaN | PosInfinity | NegInfinity | Fin (z : Z).

Record CandleRow := {
  openTimeISO : string;
  openTimeMs : jsnum;
  open : string;
  high : string;
  low : string;
  close : string;
  volume : string;
  closeTimeISO : string;
  closeTimeMs : jsnum;
  quoteVolume : option string;
  numTrades : option jsnum;
  takerBuyBaseVol : option string;
  takerBuyQuoteVol : option string
}.

Record IntervalTaskState := {
  status : TaskStatus;
  attempts : Z;
  retryAtMs : option Z;
  errorMessage : option string;
  count : option Z
}.

Record JobState := {
  id : string;
  symbol : string;
  proxyBaseUrl : string;
  autoResume : bool;
  timezone : string;
  createdAtISO : string;
  updatedAtISO : string;
  tasks : Interval -> IntervalTaskState;
  data : Interval -> option (list CandleRow);
  logs : list string
}.

End Types.

Export Types.

(** ** The host environment

  What the browser supplies and the program only calls: conversions of the
  language runtime, the parser of addresses, the feature test for
  IndexedDB, and the constant [DEFAULT_TIMEZONE] that [types.ts] exports. *)

(** A decoded JSON document. *)
#[local] Unset Elimination Schemes.
Inductive Json :=
| JNull
| JBool (b : bool)
| JNum (n : jsnum)
| JStr (s : string)
| JArr (items : list Json)
| JObj (fields : list (string * Json)).
#[local] Set Elimination Schemes.

Class Host := {
  (* [Number(s)] on a header value *)
  NumberOfString : string -> jsnum;
  (* [Date.parse(s)] *)
  DateParse : string -> jsnum;
  (* [Number(v)] on a JSON value *)
  NumberOf : Json -> jsnum;
  (* [String(v)] on a JSON value *)
  StringOf : Json -> string;
  (* [new Date(ms).toISOString()] for a time value in range *)
  isoOfMs : Z -> string;
  (* [new URL(s)]: the message of the [TypeError] that it throws when [s]
     is no absolute address, [None] when it returns *)
  URL_error : string -> option string;
  (* ["indexedDB" in window] *)
  hasIndexedDB : bool;
  (* the constant of that name exported by [types.ts] *)
  DEFAULT_TIMEZONE : string
}.

(** ** src/api/binance.ts *)

Module Binance.
Section WithHost.
Context `{Host}.

Definition DEFAULT_BASE_URL : string := "https://fapi.binance.com".

(** [class BinanceApiError extends Error]; [retryable] defaults to
    [false] in the constructor, every call site below passes it. *)
Record BinanceApiError := {
  message : string;
  err_status : option Z;
  retryAfterMs : option Z;
  retryable : bool
}.

(** The values that this program can see thrown. *)
Inductive Exn :=
| ApiError (e : BinanceApiError)
| DomError (name msg : string)     (* DOMException: storage, abort *)
| OtherError (msg : string)        (* TypeError, RangeError, SyntaxError *)
| NonError.                        (* a thrown value that is no Error *)

Inductive Res (A : Type) :=
| Ok (a : A)
| Throw (e : Exn).
#[global] Arguments Ok {A} a.
#[global] Arguments Throw {A} e.

(** [error instanceof Error ? error.message : fallback] *)
Definition message_or (fallback : string) (e : Exn) : string :=
  match e with
  | ApiError a => message a
  | DomError _ msg => msg
  | OtherError msg => msg
  | NonError => fallback
  end.

(** [Number.isFinite] *)
Definition isFinite (n : jsnum) : option Z :=
  match n with Fin z => Some z | _ => None end.

(** The [Headers] object, through its [get] method. *)
Definition Headers := string -> option string.

(** [a ?? b] on header lookups. *)
Definition nullish {A} (a b : option A) : option A :=
  match a with Some x => Some x | None => b end.

(** [headers.get("retry-after") ?? headers.get("x-retry-after") ??
    headers.get("retry-after-ms")] *)
Definition retryHeader (headers : Headers) : option string :=
  nullish (headers "retry-after")
    (nullish (headers "x-retry-after") (headers "retry-after-ms")).

Definition parseRetryAfterMs (now : Z) (headers : Headers) : option Z :=
  match retryHeader headers with
  | None => None
  | Some retryAfter =>
    if decide (retryAfter = "") then None
    else
      match isFinite (NumberOfString retryAfter) with
      | Some numeric =>
        Some (if decide (numeric > 1000) then numeric else numeric * 1000)
      | None =>
        match isFinite (DateParse retryAfter) with
        | Some dateMs => Some (Z.max 0 (dateMs - now))
        | None => None
        end
      end
  end.

(** [new Date(ms).toISOString()], which throws a RangeError outside the
    range of time values (8.64e15 ms on each side of the epoch). *)
Definition toISOString (ms : jsnum) : Res string :=
  match ms with
  | Fin z =>
    if decide (Z.abs z <= 8640000000000000) then Ok (isoOfMs z)
    else Throw (OtherError "Invalid time value")
  | _ => Throw (OtherError "Invalid time value")
  end.

(** [raw[i]], [undefined] past the end. *)
Definition item (raw : list Json) (i : nat) : option Json := raw !! i.

(** [raw[i] != null ? f(raw[i]) : undefined] *)
Definition optional {A} (f : Json -> A) (v : option Json) : option A :=
  match v with
  | None | Some JNull => None
  | Some j => Some (f j)
  end.

(** [String(raw[i])] / [Number(raw[i])] for an index below the length
    that was checked. *)
Definition required {A} (f : Json -> A) (d : A) (v : option Json) : A :=
  match v with Some j => f j | None => d end.

Definition invalidCandle : BinanceApiError :=
  {| message := "Invalid candle payload from Binance"; err_status := None;
     retryAfterMs := None; retryable := true |}.

Definition toCandleRow (raw : Json) : Res CandleRow :=
  match raw with
  | JArr items =>
    if decide (length items < 7)%nat then Throw (ApiError invalidCandle)
    else
      let openTimeMs := required NumberOf NaN (item items 0) in
      let closeTimeMs := required NumberOf NaN (item items 6) in
      match toISOString openTimeMs with
      | Throw e => Throw e
      | Ok openISO =>
        match toISOString closeTimeMs with
        | Throw e => Throw e
        | Ok closeISO =>
          Ok {| openTimeISO := openISO;
                openTimeMs := openTimeMs;
                open := required StringOf "undefined" (item items 1);
                high := required StringOf "undefined" (item items 2);
                low := required StringOf "undefined" (item items 3);
                close := required StringOf "undefined" (item items 4);
                volume := required StringOf "undefined" (item items 5);
                closeTimeISO := closeISO;
                closeTimeMs := closeTimeMs;
                quoteVolume := optional StringOf (item items 7);
                numTrades := optional NumberOf (item items 8);
                takerBuyBaseVol := optional StringOf (item items 9);
                takerBuyQuoteVol := optional StringOf (item items 10) |}
        end
      end
  | _ => Throw (ApiError invalidCandle)
  end.

(** [json.map((item) => toCandleRow(item))]: the first throw ends it. *)
Fixpoint mapCandles (items : list Json) : Res (list CandleRow) :=
  match items with
  | [] => Ok []
  | x :: rest =>
    match toCandleRow x with
    | Throw e => Throw e
    | Ok row =>
      match mapCandles rest with
      | Throw e => Throw e
      | Ok rows => Ok (row :: rows)
      end
    end
  end.

(** What [response.json()] does. *)
Inductive JsonOutcome :=
| JsonValue (j : Json)
| JsonSyntaxError (msg : string)
| JsonAborted.

Record Response := {
  resp_status : Z;
  resp_headers : Headers;
  (* [response.text()], [None] when reading the body throws *)
  resp_text : option string;
  resp_json : JsonOutcome
}.

(** What one call of [fetch] does. *)
Inductive FetchOutcome :=
| Responded (r : Response)
| TimedOut                               (* the AbortController fired *)
| NetworkFailed (msg : option string).   (* [None]: not an [Error] *)

(** [response.ok] *)
Definition ok (r : Response) : bool :=
  bool_decide (200 <= resp_status r <= 299).

Definition httpError (now : Z) (r : Response) : BinanceApiError :=
  let retryAfterMs := parseRetryAfterMs now (resp_headers r) in
  let retryable :=
    bool_decide (resp_status r = 418) || bool_decide (resp_status r = 429)
    || bool_decide (resp_status r >= 500) in
  let detail := default "" (resp_text r) in
  {| message :=
       "HTTP " +:+ pretty (resp_status r) +:+
       (if decide (detail = "") then "" else ": " +:+ String.substring 0 250 detail);
     err_status := Some (resp_status r);
     retryAfterMs := retryAfterMs;
     retryable := retryable |}.

Definition retryableError (msg : string) : BinanceApiError :=
  {| message := msg; err_status := None; retryAfterMs := None;
     retryable := true |}.

(** The body of the [try] block of [fetchKlines]. *)
Definition fetchKlines_try (now : Z) (o : FetchOutcome) : Res (list CandleRow) :=
  match o with
  | TimedOut => Throw (DomError "AbortError" "The operation was aborted.")
  | NetworkFailed (Some msg) => Throw (OtherError msg)
  | NetworkFailed None => Throw NonError
  | Responded r =>
    if ok r then
      match resp_json r with
      | JsonAborted => Throw (DomError "AbortError" "The operation was aborted.")
      | JsonSyntaxError msg => Throw (OtherError msg)
      | JsonValue (JArr items) => mapCandles items
      | JsonValue _ =>
        Throw (ApiError (retryableError "Unexpected Binance response format"))
      end
    else Throw (ApiError (httpError now r))
  end.

(** The [catch] block of [fetchKlines]. *)
Definition fetchKlines_catch (e : Exn) : Exn :=
  match e with
  | ApiError a => ApiError a
  | DomError name _ =>
    if decide (name = "AbortError")
    then ApiError (retryableError "Request timeout")
    else ApiError (retryableError (message_or "Network error" e))
  | _ => ApiError (retryableError (message_or "Network error" e))
  end.

(** Lines 87-132 of [fetchKlines], from the moment the address of the
    request has been built: [o] is what its one call of [fetch] does. *)
Definition fetchKlines_request (now : Z) (o : FetchOutcome) : Res (list CandleRow) :=
  match fetchKlines_try now o with
  | Ok rows => Ok rows
  | Throw e => Throw (fetchKlines_catch e)
  end.

(** [s.replace(/\/$/, "")]: one slash at the very end of [s] is removed. *)
Fixpoint stripSlash (s : string) : string :=
  match s with
  | EmptyString => EmptyString
  | String c rest =>
    match rest with
    | EmptyString => if decide (c = "/"%char) then EmptyString else s
    | String _ _ => String c (stripSlash rest)
    end
  end.

(** [(proxyBaseUrl || DEFAULT_BASE_URL).replace(/\/$/, "")], for the
    optional parameter [proxyBaseUrl]. *)
Definition baseUrlOf (proxyBaseUrl : option string) : string :=
  stripSlash
    (match proxyBaseUrl with
     | Some s => if decide (s = "") then DEFAULT_BASE_URL else s
     | None => DEFAULT_BASE_URL
     end).

Definition klinesAddress (proxyBaseUrl : option string) : string :=
  baseUrlOf proxyBaseUrl +:+ "/fapi/v1/klines".

Definition exchangeInfoAddress (proxyBaseUrl : option string) : string :=
  baseUrlOf proxyBaseUrl +:+ "/fapi/v1/exchangeInfo".

(** [new URL(s)], of which the program only sets the search parameters. *)
Definition newURL (s : string) : Res unit :=
  match URL_error s with
  | Some msg => Throw (OtherError msg)
  | None => Ok tt
  end.

(** [fetchKlines]: the address is built before the [try] block, so that
    the [TypeError] of [new URL] is thrown as it is and no request is
    made; otherwise [o] is what the one call of [fetch] does.  The symbol,
    the interval and the limit only enter the search parameters. *)
Definition fetchKlines (proxyBaseUrl : option string) (now : Z) (o : FetchOutcome)
  : Res (list CandleRow) :=
  match newURL (klinesAddress proxyBaseUrl) with
  | Throw e => Throw e
  | Ok _ => fetchKlines_request now o
  end.

End WithHost.
End Binance.

Export Binance.

(** ** The world the asynchronous code runs in *)

(** A scripted storage failure: the name and message of the DOMException
    that the operation raises, [None] when the operation succeeds. *)
Definition Fault := option (string * string).

Record World := {
  (* [TaskRunner.state] *)
  w_state : option JobState;
  (* [TaskRunner.active] *)
  w_active : bool;
  (* the record under [STATE_ID] in the IndexedDB object store *)
  w_idb : option JobState;
  (* the snapshot that the item under [STORAGE_KEY] of localStorage parses
     to; [None] when the item is absent, empty or not parsable *)
  w_local : option JobState;
  (* the arguments of the calls of [onStateChange], oldest first *)
  w_observed : list (option JobState);
  (* [Date.now()] *)
  w_now : Z;
  (* what the next operations of each storage tier do *)
  w_idb_faults : list Fault;
  w_local_faults : list Fault;
  (* the next values of [Math.random()], as numerators over 2^53 *)
  w_random : list Z;
  (* the next values of [crypto.randomUUID()] *)
  w_uuids : list string;
  (* for each coming timer wait, whether the user clears the job during it *)
  w_clears : list bool
}.

Definition set_state (v : option JobState) (w : World) : World :=
  {| w_state := v; w_active := w_active w; w_idb := w_idb w;
     w_local := w_local w; w_observed := w_observed w; w_now := w_now w;
     w_idb_faults := w_idb_faults w; w_local_faults := w_local_faults w;
     w_random := w_random w; w_uuids := w_uuids w; w_clears := w_clears w |}.

Definition set_active (v : bool) (w : World) : World :=
  {| w_state := w_state w; w_active := v; w_idb := w_idb w;
     w_local := w_local w; w_observed := w_observed w; w_now := w_now w;
     w_idb_faults := w_idb_faults w; w_local_faults := w_local_faults w;
     w_random := w_random w; w_uuids := w_uuids w; w_clears := w_clears w |}.

Definition set_idb (v : option JobState) (w : World) : World :=
  {| w_state := w_state w; w_active := w_active w; w_idb := v;
     w_local := w_local w; w_observed := w_observed w; w_now := w_now w;
     w_idb_faults := w_idb_faults w; w_local_faults := w_local_faults w;
     w_random := w_random w; w_uuids := w_uuids w; w_clears := w_clears w |}.

Definition set_local (v : option JobState) (w : World) : World :=
  {| w_state := w_state w; w_active := w_active w; w_idb := w_idb w;
     w_local := v; w_observed := w_observed w; w_now := w_now w;
     w_idb_faults := w_idb_faults w; w_local_faults := w_local_faults w;
     w_random := w_random w; w_uuids := w_uuids w; w_clears := w_clears w |}.

Definition observe (v : option JobState) (w : World) : World :=
  {| w_state := w_state w; w_active := w_active w; w_idb := w_idb w;
     w_local := w_local w; w_observed := w_observed w ++ [v]; w_now := w_now w;
     w_idb_faults := w_idb_faults w; w_local_faults := w_local_faults w;
     w_random := w_random w; w_uuids := w_uuids w; w_clears := w_clears w |}.

Definition set_now (v : Z) (w : World) : World :=
  {| w_state := w_state w; w_active := w_active w; w_idb := w_idb w;
     w_local := w_local w; w_observed := w_observed w; w_now := v;
     w_idb_faults := w_idb_faults w; w_local_faults := w_local_faults w;
     w_random := w_random w; w_uuids := w_uuids w; w_clears := w_clears w |}.

Definition set_idb_faults (v : list Fault) (w : World) : World :=
  {| w_state := w_state w; w_active := w_active w; w_idb := w_idb w;
     w_local := w_local w; w_observed := w_observed w; w_now := w_now w;
     w_idb_faults := v; w_local_faults := w_local_faults w;
     w_random := w_random w; w_uuids := w_uuids w; w_clears := w_clears w |}.

Definition set_local_faults (v : list Fault) (w : World) : World :=
  {| w_state := w_state w; w_active := w_active w; w_idb := w_idb w;
     w_local := w_local w; w_observed := w_observed w; w_now := w_now w;
     w_idb_faults := w_idb_faults w; w_local_faults := v;
     w_random := w_random w; w_uuids := w_uuids w; w_clears := w_clears w |}.

Definition set_random (v : list Z) (w : World) : World :=
  {| w_state := w_state w; w_active := w_active w; w_idb := w_idb w;
     w_local := w_local w; w_observed := w_observed w; w_now := w_now w;
     w_idb_faults := w_idb_faults w; w_local_faults := w_local_faults w;
     w_random := v; w_uuids := w_uuids w; w_clears := w_clears w |}.

Definition set_uuids (v : list string) (w : World) : World :=
  {| w_state := w_state w; w_active := w_active w; w_idb := w_idb w;
     w_local := w_local w; w_observed := w_observed w; w_now := w_now w;
     w_idb_faults := w_idb_faults w; w_local_faults := w_local_faults w;
     w_random := w_random w; w_uuids := v; w_clears := w_clears w |}.

Definition set_clears (v : list bool) (w : World) : World :=
  {| w_state := w_state w; w_active := w_active w; w_idb := w_idb w;
     w_local := w_local w; w_observed := w_observed w; w_now := w_now w;
     w_idb_faults := w_idb_faults w; w_local_faults := w_local_faults w;
     w_random := w_random w; w_uuids := w_uuids w; w_clears := v |}.

(** An [async] function: it returns or throws, and leaves a world. *)
Definition Async (A : Type) : Type := World -> Res A * World.

Definition ret {A} (a : A) : Async A := fun w => (Ok a, w).

Definition bind {A B} (m : Async A) (k : A -> Async B) : Async B :=
  fun w =>
    match m w with
    | (Ok a, w') => k a w'
    | (Throw e, w') => (Throw e, w')
    end.

(** [try { await m } catch { await handler }] *)
Definition try_catch {A} (m : Async A) (handler : Exn -> Async A) : Async A :=
  fun w =>
    match m w with
    | (Ok a, w') => (Ok a, w')
    | (Throw e, w') => handler e w'
    end.

(** ** src/core/storage.ts *)

Module Storage.
Section WithHost.
Context `{Host}.

(** One operation of a tier: the script of the tier says whether it
    raises; an exhausted script means no failure. *)
Definition idb_op {A} (body : World -> A * World) : Async A :=
  fun w =>
    match w_idb_faults w with
    | Some (name, msg) :: rest => (Throw (DomError name msg), set_idb_faults rest w)
    | None :: rest => let (a, w') := body (set_idb_faults rest w) in (Ok a, w')
    | [] => let (a, w') := body w in (Ok a, w')
    end.

Definition local_op {A} (body : World -> A * World) : Async A :=
  fun w =>
    match w_local_faults w with
    | Some (name, msg) :: rest => (Throw (DomError name msg), set_local_faults rest w)
    | None :: rest => let (a, w') := body (set_local_faults rest w) in (Ok a, w')
    | [] => let (a, w') := body w in (Ok a, w')
    end.

(** [class LocalStorageStore] *)
Definition local_get : Async (option JobState) :=
  local_op (fun w => (w_local w, w)).

Definition local_set (value : JobState) : Async unit :=
  local_op (fun w => (tt, set_local (Some value) w)).

Definition local_clear : Async unit :=
  local_op (fun w => (tt, set_local None w)).

(** [class IndexedDbStore]: a failure to open the database makes every
    operation reject, a failed request makes that operation reject. *)
Definition idb_get : Async (option JobState) :=
  idb_op (fun w => (w_idb w, w)).

Definition idb_set (value : JobState) : Async unit :=
  idb_op (fun w => (tt, set_idb (Some value) w)).

Definition idb_clear : Async unit :=
  idb_op (fun w => (tt, set_idb None w)).

(** [chooseStorage()], the exported [storage]. *)
Definition storage_get : Async (option JobState) :=
  if hasIndexedDB then try_catch idb_get (fun _ => local_get) else local_get.

Definition storage_set (value : JobState) : Async unit :=
  if hasIndexedDB then try_catch (idb_set value) (fun _ => local_set value)
  else local_set value.

Definition storage_clear : Async unit :=
  if hasIndexedDB then try_catch idb_clear (fun _ => local_clear)
  else local_clear.

End WithHost.
End Storage.

Export Storage.

(** ** src/core/taskRunner.ts *)

Module TaskRunner.
Section WithHost.
Context `{Host}.

Definition MAX_LOGS : nat := 50.
Definition MAX_BACKOFF_MS : Z := 60000.

Record StartJobOptions := {
  o_symbol : string;
  o_proxyBaseUrl : string;
  o_autoResume : bool;
  o_timezone : string
}.

(** [Partial<Pick<StartJobOptions, ...>>] *)
Record Settings := {
  s_proxyBaseUrl : option string;
  s_autoResume : option bool;
  s_timezone : option string
}.

Definition nowIso (now : Z) : string := isoOfMs now.

(** [INTERVALS.reduce(...)]: every key of the type receives the same
    fresh record ([INTERVALS] lists every key). *)
Definition initialTaskState : Interval -> IntervalTaskState :=
  fun _ => {| status := pending; attempts := 0; retryAtMs := None;
              errorMessage := None; count := None |}.

Definition isRetryable (e : Exn) : option BinanceApiError :=
  match e with
  | ApiError a => if retryable a then Some a else None
  | _ => None
  end.

Definition formatLog (now : Z) (message : string) : string :=
  isoOfMs now +:+ " " +:+ message.

(** [xs.slice(-n)] *)
Definition slice_last {A} (n : nat) (xs : list A) : list A :=
  drop (length xs - n) xs.

Definition withLog (now : Z) (state : JobState) (message : string) : JobState :=
  {| id := id state; symbol := symbol state;
     proxyBaseUrl := proxyBaseUrl state; autoResume := autoResume state;
     timezone := timezone state; createdAtISO := createdAtISO state;
     updatedAtISO := nowIso now;
     tasks := tasks state; data := data state;
     logs := slice_last MAX_LOGS (logs state ++ [formatLog now message]) |}.

Definition isFinishedStatus (s : TaskStatus) : bool :=
  bool_decide (s = done) || bool_decide (s = error).

(** [Math.random()]: the next scripted numerator, brought into the range
    of the numerators of the doubles below 1. *)
Definition Math_random (draws : list Z) : Z * list Z :=
  match draws with
  | [] => (0, [])
  | r :: rest => (r `mod` (2 ^ 53), rest)
  end.

(** [Math.floor(x * 1000)] for [x] the double of numerator [r]. *)
Definition jitterOf (r : Z) : Z := (r * 1000) `div` (2 ^ 53).

(** [computeRetryDelayMs]; the source of random draws goes in and out.
    [attempts] is a count: the power is taken of a natural exponent. *)
Definition computeRetryDelayMs (attempts : Z) (retryAfterMs : option Z)
    (draws : list Z) : Z * list Z :=
  match retryAfterMs with
  | Some hint =>
    if decide (hint > 0) then (Z.min hint MAX_BACKOFF_MS, draws)
    else
      let exponential := Z.min MAX_BACKOFF_MS (1000 * 2 ^ Z.min attempts 8) in
      let (r, rest) := Math_random draws in
      (Z.min MAX_BACKOFF_MS (exponential + jitterOf r), rest)
  | None =>
    let exponential := Z.min MAX_BACKOFF_MS (1000 * 2 ^ Z.min attempts 8) in
    let (r, rest) := Math_random draws in
    (Z.min MAX_BACKOFF_MS (exponential + jitterOf r), rest)
  end.

(** [persistAndEmit] *)
Definition persistAndEmit (state : JobState) : Async unit :=
  fun w =>
    let w := set_state (Some state) w in
    match storage_set state w with
    | (Ok _, w') => (Ok tt, observe (Some state) w')
    | (Throw e, w') => (Throw e, w')
    end.

(** [setState]; the mutator reads the clock through [nowIso]. *)
Definition setState (mutator : Z -> JobState -> JobState) : Async unit :=
  fun w =>
    match w_state w with
    | None => (Ok tt, w)
    | Some previous => persistAndEmit (mutator (w_now w) previous) w
    end.

Definition loadSavedState : Async (option JobState) :=
  fun w =>
    match storage_get w with
    | (Throw e, w') => (Throw e, w')
    | (Ok None, w') => (Ok None, set_state None w')
    | (Ok (Some saved), w') =>
      let withDefaults :=
        {| id := id saved; symbol := symbol saved;
           proxyBaseUrl := proxyBaseUrl saved; autoResume := autoResume saved;
           timezone := if decide (timezone saved = "") then DEFAULT_TIMEZONE
                       else timezone saved;
           createdAtISO := createdAtISO saved;
           updatedAtISO := updatedAtISO saved;
           tasks := tasks saved; data := data saved; logs := logs saved |} in
      (Ok (Some withDefaults), observe (Some withDefaults) (set_state (Some withDefaults) w'))
    end.

Definition updateSettings (settings : Settings) : Async unit :=
  fun w =>
    match w_state w with
    | None => (Ok tt, w)
    | Some _ =>
      setState (fun now prev =>
        {| id := id prev; symbol := symbol prev;
           proxyBaseUrl := default (proxyBaseUrl prev) (s_proxyBaseUrl settings);
           autoResume := default (autoResume prev) (s_autoResume settings);
           timezone := default (timezone prev) (s_timezone settings);
           createdAtISO := createdAtISO prev;
           updatedAtISO := nowIso now;
           tasks := tasks prev; data := data prev; logs := logs prev |}) w
    end.

Definition clearSavedState : Async unit :=
  fun w =>
    let w := set_state None (set_active false w) in
    match storage_clear w with
    | (Ok _, w') => (Ok tt, observe None w')
    | (Throw e, w') => (Throw e, w')
    end.

(** [delay(ms)]: the clock advances by the wait; the script of user
    actions says whether the user clears the job while the runner is
    suspended.  A failure of that clear is raised in the user's handler,
    not in the waiting code. *)
Definition delay (ms : Z) : Async unit :=
  fun w =>
    let w := set_now (w_now w + Z.max 0 ms) w in
    match w_clears w with
    | true :: rest => (Ok tt, snd (clearSavedState (set_clears rest w)))
    | false :: rest => (Ok tt, set_clears rest w)
    | [] => (Ok tt, w)
    end.

(** [{ ...prev, tasks: { ...prev.tasks, [interval]: task } }] *)
Definition withTask (prev : JobState) (interval : Interval)
    (task : IntervalTaskState) : JobState :=
  {| id := id prev; symbol := symbol prev;
     proxyBaseUrl := proxyBaseUrl prev; autoResume := autoResume prev;
     timezone := timezone prev; createdAtISO := createdAtISO prev;
     updatedAtISO := updatedAtISO prev;
     tasks := <[interval := task]> (tasks prev);
     data := data prev; logs := logs prev |}.

(** The mutator of lines 202-214. *)
Definition toRunning (interval : Interval) (now : Z) (prev : JobState) : JobState :=
  let t := tasks prev interval in
  let next :=
    withTask prev interval
      {| status := running; attempts := attempts t; retryAtMs := None;
         errorMessage := None; count := count t |} in
  {| id := id next; symbol := symbol next;
     proxyBaseUrl := proxyBaseUrl next; autoResume := autoResume next;
     timezone := timezone next; createdAtISO := createdAtISO next;
     updatedAtISO := nowIso now;
     tasks := tasks next; data := data next; logs := logs next |}.

(** The mutator of lines 236-251. *)
Definition toError (interval : Interval) (message : string) (now : Z)
    (prev : JobState) : JobState :=
  let t := tasks prev interval in
  withLog now
    (withTask prev interval
       {| status := error; attempts := attempts t; retryAtMs := retryAtMs t;
          errorMessage := Some message; count := count t |})
    (interval_name interval +:+ " failed permanently: " +:+ message).

(** The mutator of [onIntervalSuccess]. *)
Definition toDone (interval : Interval) (candles : list CandleRow) (now : Z)
    (prev : JobState) : JobState :=
  let t := tasks prev interval in
  let stored :=
    {| id := id prev; symbol := symbol prev;
       proxyBaseUrl := proxyBaseUrl prev; autoResume := autoResume prev;
       timezone := timezone prev; createdAtISO := createdAtISO prev;
       updatedAtISO := updatedAtISO prev;
       tasks := tasks prev;
       data := <[interval := Some candles]> (data prev);
       logs := logs prev |} in
  withLog now
    (withTask stored interval
       {| status := done; attempts := attempts t; retryAtMs := None;
          errorMessage :=
            if decide (length candles < 1000)%nat
            then Some "Returned fewer than 1000 candles" else None;
          count := Some (Z.of_nat (length candles)) |})
    (interval_name interval +:+ " completed with " +:+ pretty (length candles)
       +:+ " candles").

Definition onIntervalSuccess (interval : Interval) (candles : list CandleRow)
  : Async unit :=
  setState (toDone interval candles).

(** [Math.ceil(waitMs / 1000)] *)
Definition ceilSeconds (waitMs : Z) : Z := - ((- waitMs) `div` 1000).

(** The mutator of [onIntervalRetry]; [retryAtMs] was computed from the
    clock before [setState] ran. *)
Definition toRetrying (interval : Interval) (attempts retryAtMs waitSec : Z)
    (errorMessage : string) (now : Z) (prev : JobState) : JobState :=
  let t := tasks prev interval in
  withLog now
    (withTask prev interval
       {| status := retrying; attempts := attempts;
          retryAtMs := Some retryAtMs;
          errorMessage := Some errorMessage; count := count t |})
    (interval_name interval +:+ " transient error. Waiting " +:+ pretty waitSec
       +:+ "s before retry: " +:+ errorMessage).

Definition onIntervalRetry (interval : Interval) (attempts waitMs : Z)
    (errorMessage : string) : Async unit :=
  fun w =>
    let retryAtMs := w_now w + waitMs in
    let waitSec := ceilSeconds waitMs in
    setState (toRetrying interval attempts retryAtMs waitSec errorMessage) w.

(** [task.status === "retrying" && task.retryAtMs && task.retryAtMs > Date.now()] *)
Definition mustWait (task : IntervalTaskState) (now : Z) : option Z :=
  match status task, retryAtMs task with
  | retrying, Some at_ =>
    if decide (at_ <> 0 /\ at_ > now) then Some (at_ - now) else None
  | _, _ => None
  end.

(** What a function that awaits the network has done when the script of
    network answers is used up: [None], it is still suspended. *)
Definition Progress : Type := option (Res unit) * list FetchOutcome * World.

Definition nullState : Exn :=
  OtherError "Cannot read properties of null".

(** Lines 198-214: wait for the scheduled retry time, then enter
    [running]. *)
Definition beginAttempt (interval : Interval) (task : IntervalTaskState)
  : Async unit :=
  fun w =>
    let w1 :=
      match mustWait task (w_now w) with
      | Some ms => snd (delay ms w)
      | None => w
      end in
    setState (toRunning interval) w1.

(** The [try] block, once the request of [fetchKlines] has been made: the
    outcome of the fetch and [onIntervalSuccess]. *)
Definition tryBlock (interval : Interval) (o : FetchOutcome) : Async unit :=
  fun w =>
    match fetchKlines_request (w_now w) o with
    | Ok candles => onIntervalSuccess interval candles w
    | Throw e => (Throw e, w)
    end.

(** The [catch] block down to the wait of line 231: the procedure ends
    (it returns, or an exception escapes), or the retry has been recorded
    and the wait is about to begin. *)
Inductive Handled :=
| Handles (r : Res unit) (w : World)
| Waits (ms : Z) (w : World).

Definition handle (interval : Interval) (e : Exn) (w : World) : Handled :=
  match isRetryable e with
  | Some err =>
    match w_state w with
    | None => Handles (Throw nullState) w
    | Some st =>
      let attempts := attempts (tasks st interval) + 1 in
      let (waitMs, draws) :=
        computeRetryDelayMs attempts (retryAfterMs err) (w_random w) in
      match onIntervalRetry interval attempts waitMs (message err)
              (set_random draws w) with
      | (Throw e', w') => Handles (Throw e') w'
      | (Ok _, w') => Waits waitMs w'
      end
    end
  | None =>
    let (r, w') := setState (toError interval (message_or "Unknown error" e)) w in
    Handles r w'
  end.

(** How the [catch] block leaves when nothing else happens during its
    wait: the procedure ends (it returns, or an exception escapes), or the
    loop goes round again. *)
Inductive Caught :=
| Ends (r : Res unit) (w : World)
| Continues (w : World).

Definition catchBlock (interval : Interval) (e : Exn) (w : World) : Caught :=
  match isRetryable e with
  | Some err =>
    match w_state w with
    | None => Ends (Throw nullState) w
    | Some st =>
      let attempts := attempts (tasks st interval) + 1 in
      let (waitMs, draws) :=
        computeRetryDelayMs attempts (retryAfterMs err) (w_random w) in
      match onIntervalRetry interval attempts waitMs (message err)
              (set_random draws w) with
      | (Throw e', w') => Ends (Throw e') w'
      | (Ok _, w') => Continues (snd (delay waitMs w'))
      end
    end
  | None =>
    let (r, w') := setState (toError interval (message_or "Unknown error" e)) w in
    Ends r w'
  end.

(** [executeInterval]: one turn of the [while] loop for each answer of the
    network. *)
Fixpoint executeInterval (interval : Interval) (script : list FetchOutcome)
    (w : World) {struct script} : Progress :=
  match w_state w with
  | None => (Some (Ok tt), script, w)
  | Some st =>
    let task := tasks st interval in
    if isFinishedStatus (status task) then (Some (Ok tt), script, w)
    else
      match beginAttempt interval task w with
      | (Throw e, w2) => (Some (Throw e), script, w2)
      | (Ok _, w2) =>
        match w_state w2 with
        | None =>
          (* [this.state.symbol] throws inside the [try]; that TypeError is
             not retryable and the [catch] block takes its last branch *)
          let (r, w3) :=
            setState (toError interval (message_or "Unknown error" nullState)) w2 in
          (Some r, script, w3)
        | Some st2 =>
          match newURL (klinesAddress (Some (proxyBaseUrl st2))) with
          | Throw e =>
            (* [fetchKlines] throws before any request; that TypeError is
               not retryable either *)
            let (r, w3) :=
              setState (toError interval (message_or "Unknown error" e)) w2 in
            (Some r, script, w3)
          | Ok _ =>
            match script with
            | [] => (None, [], w2)
            | o :: rest =>
              match tryBlock interval o w2 with
              | (Ok _, w3) => (Some (Ok tt), rest, w3)
              | (Throw e, w3) =>
                match catchBlock interval e w3 with
                | Ends r w4 => (Some r, rest, w4)
                | Continues w4 => executeInterval interval rest w4
                end
              end
            end
          end
        end
      end
  end.

(** The [for] loop of [run]. *)
Fixpoint run_loop (intervals : list Interval) (script : list FetchOutcome)
    (w : World) : Progress :=
  match intervals with
  | [] => (Some (Ok tt), script, w)
  | interval :: more =>
    match w_state w with
    | None => (Some (Ok tt), script, w)
    | Some st =>
      let current := tasks st interval in
      if decide (status current = done) then run_loop more script w
      else if decide (status current = error) then run_loop more script w
      else
        match executeInterval interval script w with
        | (Some (Ok _), script', w') => run_loop more script' w'
        | stopped => stopped
        end
    end
  end.

(** [run]: the [finally] block runs when the loop has ended, not while it
    is suspended. *)
Definition run (script : list FetchOutcome) (w : World) : Progress :=
  match w_state w with
  | None => (Some (Ok tt), script, w)
  | Some _ =>
    if w_active w then (Some (Ok tt), script, w)
    else
      match run_loop INTERVALS script (set_active true w) with
      | (Some r, script', w') => (Some r, script', set_active false w')
      | (None, script', w') => (None, script', w')
      end
  end.

Definition randomUUID (w : World) : string * World :=
  match w_uuids w with
  | [] => ("", w)
  | u :: rest => (u, set_uuids rest w)
  end.

Definition startNewJob (options : StartJobOptions) (script : list FetchOutcome)
    (w : World) : Progress :=
  let (uuid, w) := randomUUID w in
  let state :=
    {| id := uuid; symbol := o_symbol options;
       proxyBaseUrl := o_proxyBaseUrl options;
       autoResume := o_autoResume options;
       timezone := if decide (o_timezone options = "") then DEFAULT_TIMEZONE
                   else o_timezone options;
       createdAtISO := nowIso (w_now w); updatedAtISO := nowIso (w_now w);
       tasks := initialTaskState; data := fun _ => None; logs := [] |} in
  match persistAndEmit
          (withLog (w_now w) state ("Started job for " +:+ o_symbol options)) w with
  | (Throw e, w') => (Some (Throw e), script, w')
  | (Ok _, w') => run script w'
  end.

(** [INTERVALS.some((interval) => !isFinishedStatus(saved.tasks[interval].status))] *)
Definition unfinished (saved : JobState) : bool :=
  existsb (fun interval => negb (isFinishedStatus (status (tasks saved interval))))
    INTERVALS.

Definition resumeIfNeeded (script : list FetchOutcome) (w : World) : Progress :=
  match loadSavedState w with
  | (Throw e, w') => (Some (Throw e), script, w')
  | (Ok None, w') => (Some (Ok tt), script, w')
  | (Ok (Some saved), w') =>
    if autoResume saved && unfinished saved then
      match setState (fun now prev => withLog now prev "Resuming unfinished job") w' with
      | (Throw e, w'') => (Some (Throw e), script, w'')
      | (Ok _, w'') => run script w''
      end
    else (Some (Ok tt), script, w')
  end.


End WithHost.
End TaskRunner.

Export TaskRunner.

(** ** The run loop, one turn at a time

    [run] and [executeInterval] are suspended where they await the network
    or a timer, and other calls of the runner are served meanwhile.  A
    turn is what the loop does between two such suspensions; the functions
    above are the runs in which nothing but a clear happens in between. *)

Module Turns.
Section WithHost.
Context `{Host}.

(** Where a loop is suspended: on the fetch of a series (line 217), on the
    timer before an attempt (line 199), or on the timer after a retryable
    failure (line 231). *)
Inductive Parked :=
| AtFetch (interval : Interval)
| AtEarlyTimer (interval : Interval) (ms : Z)
| AtRetryTimer (interval : Interval) (ms : Z).

(** How a turn ends: the loop is suspended again, or [run] has returned or
    thrown, its [finally] block done. *)
Inductive Turn :=
| Parks (p : Parked) (w : World)
| Returns (r : Res unit) (w : World).

Definition turn_world (t : Turn) : World :=
  match t with
  | Parks _ w => w
  | Returns _ w => w
  end.

Definition parked (t : Turn) : option Parked :=
  match t with
  | Parks p _ => Some p
  | Returns _ _ => None
  end.

(** The series that the [for] loop has yet to visit when it is at
    [interval]. *)
Fixpoint after (interval : Interval) (l : list Interval) : list Interval :=
  match l with
  | [] => []
  | i :: more => if decide (i = interval) then more else after interval more
  end.

Definition later (interval : Interval) : list Interval := after interval INTERVALS.

(** An exception that leaves [executeInterval] passes the [finally] block
    of [run]. *)
Definition leave (r : Res unit) (w : World) (next : World -> Turn) : Turn :=
  match r with
  | Ok _ => next w
  | Throw e => Returns (Throw e) (set_active false w)
  end.

(** Lines 202-222: the series enters [running] and the request is made;
    [next] is how the loop goes on when [executeInterval] has returned. *)
Definition attempt (interval : Interval) (next : World -> Turn) (w : World) : Turn :=
  match setState (toRunning interval) w with
  | (Throw e, w2) => Returns (Throw e) (set_active false w2)
  | (Ok _, w2) =>
    match w_state w2 with
    | None =>
      let (r, w3) :=
        setState (toError interval (message_or "Unknown error" nullState)) w2 in
      leave r w3 next
    | Some st2 =>
      match newURL (klinesAddress (Some (proxyBaseUrl st2))) with
      | Throw e =>
        let (r, w3) :=
          setState (toError interval (message_or "Unknown error" e)) w2 in
        leave r w3 next
      | Ok _ => Parks (AtFetch interval) w2
      end
    end
  end.

(** Lines 192-200: the top of the [while] loop of [executeInterval]. *)
Definition enter (interval : Interval) (next : World -> Turn) (w : World) : Turn :=
  match w_state w with
  | None => next w
  | Some st =>
    let task := tasks st interval in
    if isFinishedStatus (status task) then next w
    else
      match mustWait task (w_now w) with
      | Some ms => Parks (AtEarlyTimer interval ms) w
      | None => attempt interval next w
      end
  end.

(** The [for] loop of [run] from the series [intervals] on, and the
    [finally] block. *)
Fixpoint loop (intervals : list Interval) (w : World) : Turn :=
  match intervals with
  | [] => Returns (Ok tt) (set_active false w)
  | interval :: more =>
    match w_state w with
    | None => Returns (Ok tt) (set_active false w)
    | Some st =>
      let current := tasks st interval in
      if decide (status current = done) then loop more w
      else if decide (status current = error) then loop more w
      else enter interval (loop more) w
    end
  end.

(** [run], to its first suspension. *)
Definition run (w : World) : Turn :=
  match w_state w with
  | None => Returns (Ok tt) w
  | Some _ =>
    if w_active w then Returns (Ok tt) w
    else loop INTERVALS (set_active true w)
  end.

(** [startNewJob], to its first suspension. *)
Definition startNewJob (options : StartJobOptions) (w : World) : Turn :=
  let (uuid, w) := randomUUID w in
  let state :=
    {| id := uuid; symbol := o_symbol options;
       proxyBaseUrl := o_proxyBaseUrl options;
       autoResume := o_autoResume options;
       timezone := if decide (o_timezone options = "") then DEFAULT_TIMEZONE
                   else o_timezone options;
       createdAtISO := nowIso (w_now w); updatedAtISO := nowIso (w_now w);
       tasks := initialTaskState; data := fun _ => None; logs := [] |} in
  match persistAndEmit
          (withLog (w_now w) state ("Started job for " +:+ o_symbol options)) w with
  | (Throw e, w') => Returns (Throw e) w'
  | (Ok _, w') => run w'
  end.

(** [resumeIfNeeded], to its first suspension. *)
Definition resumeIfNeeded (w : World) : Turn :=
  match loadSavedState w with
  | (Throw e, w') => Returns (Throw e) w'
  | (Ok None, w') => Returns (Ok tt) w'
  | (Ok (Some saved), w') =>
    if autoResume saved && unfinished saved then
      match setState (fun now prev => withLog now prev "Resuming unfinished job") w' with
      | (Throw e, w'') => Returns (Throw e) w''
      | (Ok _, w'') => run w''
      end
    else Returns (Ok tt) w'
  end.

(** The fetch of a loop that is suspended on series [interval] settles
    with [o]: the rest of the [try] block, the [catch] block, and the loop
    to its next suspension. *)
Definition answered (interval : Interval) (o : FetchOutcome) (w : World) : Turn :=
  match tryBlock interval o w with
  | (Ok _, w3) => loop (later interval) w3
  | (Throw e, w3) =>
    match handle interval e w3 with
    | Handles r w4 => leave r w4 (loop (later interval))
    | Waits ms w4 => Parks (AtRetryTimer interval ms) w4
    end
  end.

(** The timer of a suspended loop fires. *)
Definition fired (p : Parked) (w : World) : Turn :=
  match p with
  | AtEarlyTimer interval _ => attempt interval (loop (later interval)) w
  | AtRetryTimer interval _ => enter interval (loop (later interval)) w
  | AtFetch _ => Parks p w
  end.

End WithHost.
End Turns.

(** ** The vocabulary of the specification *)

Module Spec.

(** A tuple of the expected record shape: an array of at least seven
    elements. *)
Definition isTuple (j : Json) : bool :=
  match j with
  | JArr items => bool_decide (7 <= length items)%nat
  | _ => false
  end.

(** A body that cannot be decoded into the expected record shape: it is
    not an array, or one of its tuples is too short. *)
Definition malformedBody (j : Json) : Prop :=
  match j with
  | JArr items => exists x, x ∈ items /\ isTuple x = false
  | _ => True
  end.

(** A series is terminal when it is [done] or [error]. *)
Definition terminal (s : TaskStatus) : Prop := s = done \/ s = error.

(** [retryAtMs] is set only while the status is [retrying]. *)
Definition retryAtOnlyWhileRetrying (s : JobState) : Prop :=
  forall i, retryAtMs (tasks s i) <> None -> status (tasks s i) = retrying.

(** A [done] series holds its batch and the count of it, and carries an
    error message exactly when the batch is shorter than 1000 records. *)
Definition doneCarriesBatch (s : JobState) : Prop :=
  forall i, status (tasks s i) = done ->
    exists batch,
      data s i = Some batch /\
      count (tasks s i) = Some (Z.of_nat (length batch)) /\
      errorMessage (tasks s i) =
        (if decide (length batch < 1000)%nat
         then Some "Returned fewer than 1000 candles" else None).

(** The snapshots that a world holds: in memory, in either storage tier,
    or handed to the observer. *)
Definition snapshotOf (w : World) (s : JobState) : Prop :=
  w_state w = Some s \/ w_idb w = Some s \/ w_local w = Some s \/
  Some s ∈ w_observed w.

(** Both invariants of a snapshot: the retry time is set only while
    retrying, and a [done] series carries its batch. *)
Definition sound (s : JobState) : Prop :=
  retryAtOnlyWhileRetrying s /\ doneCarriesBatch s.

(** What a storage operation leaves untouched. *)
Definition storageOnly (w w' : World) : Prop :=
  w_state w' = w_state w /\ w_active w' = w_active w /\
  w_observed w' = w_observed w /\ w_now w' = w_now w /\
  w_random w' = w_random w /\ w_uuids w' = w_uuids w /\
  w_clears w' = w_clears w.

(** A world in which the fallback tier accepts every operation and the
    user does not clear the job during a wait. *)
Definition calm (w : World) : Prop :=
  w_local_faults w = [] /\ w_clears w = [].

(** The task and the batch of series [i] are the same in the job of [w']
    as in the job of [w], if [w'] still has a job. *)
Definition seriesKept (i : Interval) (w w' : World) : Prop :=
  forall st', w_state w' = Some st' ->
    exists st, w_state w = Some st /\
      tasks st' i = tasks st i /\ data st' i = data st i.

(** A property of every snapshot that a world holds. *)
Definition everySnapshot (P : JobState -> Prop) (w : World) : Prop :=
  forall s, snapshotOf w s -> P s.

Section WithHost.
Context `{Host}.

(** The primary tier fails the next operation: there is no IndexedDB, or
    its next operation rejects. *)
Definition primaryFails (w : World) : Prop :=
  hasIndexedDB = false \/ exists f rest, w_idb_faults w = Some f :: rest.

(** The fallback tier fails its next operation. *)
Definition fallbackFails (w : World) : Prop :=
  exists f rest, w_local_faults w = Some f :: rest.

(** The environment acts between two calls of the runner: time passes and
    what the storage tiers, the random source and the user will do next
    changes; the runner, the stored snapshots and the observer's record
    stay. *)
Definition sameProgram (w w' : World) : Prop :=
  w_state w' = w_state w /\ w_active w' = w_active w /\
  w_idb w' = w_idb w /\ w_local w' = w_local w /\
  w_observed w' = w_observed w.

(** The worlds that a runner reaches from a fresh one over empty storage
    when every run loop is left to itself from its start to its end or to
    the end of the answers at hand: no call is served while a loop is
    suspended, but for a clear during a wait. *)
Inductive undisturbed : World -> Prop :=
| und_fresh w :
    w_state w = None -> w_active w = false ->
    w_idb w = None -> w_local w = None -> w_observed w = [] ->
    undisturbed w
| und_env w w' :
    undisturbed w -> sameProgram w w' -> undisturbed w'
| und_startNewJob w options script :
    undisturbed w -> undisturbed (snd (startNewJob options script w))
| und_resumeIfNeeded w script :
    undisturbed w -> undisturbed (snd (resumeIfNeeded script w))
| und_loadSavedState w :
    undisturbed w -> undisturbed (snd (loadSavedState w))
| und_updateSettings w settings :
    undisturbed w -> undisturbed (snd (updateSettings settings w))
| und_clearSavedState w :
    undisturbed w -> undisturbed (snd (clearSavedState w)).

(** The worlds that a runner reaches from a fresh one over empty storage:
    through the public operations, run as above or to their first
    suspension on a timer or a fetch, and through the turns of the loops
    that are suspended, each when its fetch settles or its timer fires, in
    any order with the public operations.  Which loops are suspended, and
    on what, is not recorded: every turn may be taken in every world, so
    that no interleaving of the loops is left out. *)
Inductive reachable : World -> Prop :=
| reach_fresh w :
    w_state w = None -> w_active w = false ->
    w_idb w = None -> w_local w = None -> w_observed w = [] ->
    reachable w
| reach_env w w' :
    reachable w -> sameProgram w w' -> reachable w'
| reach_startNewJob w options script :
    reachable w -> reachable (snd (startNewJob options script w))
| reach_resumeIfNeeded w script :
    reachable w -> reachable (snd (resumeIfNeeded script w))
| reach_loadSavedState w :
    reachable w -> reachable (snd (loadSavedState w))
| reach_updateSettings w settings :
    reachable w -> reachable (snd (updateSettings settings w))
| reach_clearSavedState w :
    reachable w -> reachable (snd (clearSavedState w))
| reach_start w options :
    reachable w -> reachable (Turns.turn_world (Turns.startNewJob options w))
| reach_resume w :
    reachable w -> reachable (Turns.turn_world (Turns.resumeIfNeeded w))
| reach_answered w interval o :
    reachable w -> reachable (Turns.turn_world (Turns.answered interval o w))
| reach_fired w p :
    reachable w -> reachable (Turns.turn_world (Turns.fired p w)).

(** The runner awaited the network: an answer of the script was consumed,
    or the runner is suspended on a fetch. *)
Definition awaitedNetwork (script : list FetchOutcome) (p : Progress) : Prop :=
  fst (fst p) = None \/ (length (snd (fst p)) < length script)%nat.

End WithHost.

End Spec.

Export Spec.

(** ** A concrete host and concrete data, for running the model *)

Module Scenario.

Definition digitValue (c : ascii) : option Z :=
  let n := Z.of_N (N_of_ascii c) in
  if decide (48 <= n <= 57) then Some (n - 48) else None.

Fixpoint decimal (s : string) (acc : Z) : option Z :=
  match s with
  | EmptyString => Some acc
  | String c rest =>
    match digitValue c with
    | Some d => decimal rest (acc * 10 + d)
    | None => None
    end
  end.

(** A host that reads unsigned decimal numerals, knows one HTTP date,
    prints time values as decimal numerals, takes the strings that start
    with [http://] or [https://] for addresses, and has IndexedDB. *)
Definition browser : Host :=
  {| NumberOfString := fun s =>
       match decimal s 0 with Some n => Fin n | None => NaN end;
     DateParse := fun s =>
       if decide (s = "Thu, 01 Jan 1970 00:01:00 GMT") then Fin 60000 else NaN;
     NumberOf := fun j =>
       match j with JNum n => n | _ => NaN end;
     StringOf := fun j =>
       match j with JStr s => s | _ => "" end;
     isoOfMs := fun ms => pretty ms;
     URL_error := fun s =>
       if String.prefix "https://" s || String.prefix "http://" s then None
       else Some "Invalid URL";
     hasIndexedDB := true;
     DEFAULT_TIMEZONE := "UTC" |}.

Definition headersOf (name value : string) : Headers :=
  fun n => if decide (n = name) then Some value else None.

Definition noHeaders : Headers := fun _ => None.

(** A well-formed tuple of the remote API. *)
Definition tuple (openMs : Z) : Json :=
  JArr [JNum (Fin openMs); JStr "1.0"; JStr "2.0"; JStr "0.5"; JStr "1.5";
        JStr "10"; JNum (Fin (openMs + 59999))].

Definition okResponse (n : nat) : FetchOutcome :=
  Responded {| resp_status := 200; resp_headers := noHeaders;
               resp_text := None;
               resp_json := JsonValue (JArr (replicate n (tuple 0))) |}.

Definition failResponse (code : Z) (headers : Headers) (body : string)
  : FetchOutcome :=
  Responded {| resp_status := code; resp_headers := headers;
               resp_text := Some body; resp_json := JsonSyntaxError "Unexpected token" |}.

(** A fresh runner over empty storage at time [1000]. *)
Definition fresh (idb_faults local_faults : list Fault) (random : list Z)
    (clears : list bool) : World :=
  {| w_state := None; w_active := false; w_idb := None; w_local := None;
     w_observed := []; w_now := 1000;
     w_idb_faults := idb_faults; w_local_faults := local_faults;
     w_random := random; w_uuids := ["job-1"]; w_clears := clears |}.

(** The page is loaded again: a new runner and a new observer over the
    storage that the old world left, with the given behaviour of the
    environment. *)
Definition reload (w : World) (idb_faults local_faults : list Fault) : World :=
  {| w_state := None; w_active := false; w_idb := w_idb w; w_local := w_local w;
     w_observed := []; w_now := w_now w;
     w_idb_faults := idb_faults; w_local_faults := local_faults;
     w_random := []; w_uuids := ["job-2"]; w_clears := [] |}.

Definition btc : StartJobOptions :=
  {| o_symbol := "BTCUSDT"; o_proxyBaseUrl := ""; o_autoResume := true;
     o_timezone := "" |}.

Definition quota : Fault := Some ("QuotaExceededError", "The quota has been exceeded.").

Definition broken : Fault := Some ("UnknownError", "Internal error.").

End Scenario.

(** ** src/api/binance.ts: the symbol helpers *)

Module Symbols.

(** The character class [[A-Z0-9]]. *)
Definition isUpperAlnum (c : ascii) : bool :=
  let n := Z.of_N (N_of_ascii c) in
  bool_decide (65 <= n <= 90) || bool_decide (48 <= n <= 57).

(** A match of [cls{lo,hi}$] from the start of [s]: between [lo] and [hi]
    characters of the class, and then the end of the input. *)
Fixpoint matchClassRepeat (cls : ascii -> bool) (lo hi : nat) (s : string)
    {struct s} : bool :=
  match s with
  | EmptyString => bool_decide (lo = 0%nat)
  | String c rest =>
    match hi with
    | O => false
    | S hi' => cls c && matchClassRepeat cls (Nat.pred lo) hi' rest
    end
  end.

(** [/^[A-Z0-9]{4,20}$/.test(symbol)] *)
Definition isValidSymbol (symbol : string) : bool :=
  matchClassRepeat isUpperAlnum 4 20 symbol.

(** The own property [name] of a parsed JSON object; of duplicate keys the
    last one wins, as in [JSON.parse]. *)
Fixpoint field (name : string) (fields : list (string * Json)) : option Json :=
  match fields with
  | [] => None
  | (k, v) :: rest =>
    match field name rest with
    | Some v' => Some v'
    | None => if decide (k = name) then Some v else None
    end
  end.

(** [j.name] for one of the names ["symbols"], ["symbol"], ["status"]:
    a TypeError on [null], [undefined] on a value that is no object. *)
Definition prop (name : string) (j : Json) : Res (option Json) :=
  match j with
  | JNull => Throw (OtherError "Cannot read properties of null")
  | JObj fields => Ok (field name fields)
  | _ => Ok None
  end.

(** [item.symbol === symbol] *)
Definition hasSymbol (symbol : string) (item : Json) : Res bool :=
  match prop "symbol" item with
  | Throw e => Throw e
  | Ok (Some (JStr s)) => Ok (bool_decide (s = symbol))
  | Ok _ => Ok false
  end.

(** [symbols.find((item) => item.symbol === symbol)] *)
Fixpoint findListed (symbol : string) (items : list Json) : Res (option Json) :=
  match items with
  | [] => Ok None
  | item :: rest =>
    match hasSymbol symbol item with
    | Throw e => Throw e
    | Ok true => Ok (Some item)
    | Ok false => findListed symbol rest
    end
  end.

(** The body of the [try] block after [response.json()]:
    [payload.symbols?.find(...)] and the test of the status. *)
Definition listedAndTrading (symbol : string) (payload : Json) : Res bool :=
  match prop "symbols" payload with
  | Throw e => Throw e
  | Ok None | Ok (Some JNull) => Ok false
  | Ok (Some (JArr items)) =>
    match findListed symbol items with
    | Throw e => Throw e
    | Ok None => Ok false
    | Ok (Some listed) =>
      match prop "status" listed with
      | Throw e => Throw e
      | Ok (Some (JStr s)) => Ok (bool_decide (s = "TRADING"))
      | Ok _ => Ok false
      end
    end
  | Ok (Some _) => Throw (OtherError "payload.symbols.find is not a function")
  end.

(** Lines 140-151 of [validateSymbolOnExchange], the [try] block and its
    handler: [o] is what the call of [fetch] does. *)
Definition validateSymbolOnExchange_request (symbol : string) (o : FetchOutcome)
  : bool :=
  match o with
  | Responded r =>
    if ok r then
      match resp_json r with
      | JsonValue payload =>
        match listedAndTrading symbol payload with
        | Ok b => b
        | Throw _ => false
        end
      | _ => false
      end
    else false
  | _ => false
  end.

Section WithHost.
Context `{Host}.

(** [validateSymbolOnExchange]: the address is built before the [try]
    block, so that the [TypeError] of [new URL] rejects the promise and no
    request is made; otherwise [o] is what the call of [fetch] does. *)
Definition validateSymbolOnExchange (symbol : string) (proxyBaseUrl : option string)
    (o : FetchOutcome) : Res bool :=
  match newURL (exchangeInfoAddress proxyBaseUrl) with
  | Throw e => Throw e
  | Ok _ => Ok (validateSymbolOnExchange_request symbol o)
  end.

End WithHost.

End Symbols.

Export Symbols.

(** ** Vocabulary for runs of the task runner *)

Module Runs.
Section WithHost.
Context `{Host}.

(** A network answer after which the series is tried again: the fetch
    throws a retryable error.  (When the answer arrives does not matter
    for that: the clock only enters the retry hint.) *)
Definition isTransient (o : FetchOutcome) : bool :=
  match fetchKlines_request 0 o with
  | Throw (ApiError a) => retryable a
  | _ => false
  end.

(** [settles n script rest]: [script] gives, to each of [n] series in
    turn, some transient answers and then an answer that is not; [rest] is
    what remains of the script. *)
Inductive settles : nat -> list FetchOutcome -> list FetchOutcome -> Prop :=
| settles_none script : settles 0 script script
| settles_next n fails o script rest :
    Forall (fun f => isTransient f = true) fails ->
    isTransient o = false ->
    settles n script rest ->
    settles (S n) (fails ++ o :: script) rest.

(** The number of series of [l] that are not terminal in [st]. *)
Definition openCount (l : list Interval) (st : JobState) : nat :=
  length (filter (fun i => isFinishedStatus (status (tasks st i)) = false) l).

(** The place of a series in [INTERVALS]. *)
Definition rank (i : Interval) : nat :=
  match i with
  | I1m => 0 | I5m => 1 | I15m => 2 | I1h => 3 | I2h => 4
  | I4h => 5 | I12h => 6 | I1w => 7 | I1M => 8
  end.

(** A list of series in the configured order. *)
Fixpoint ascending (l : list Interval) : Prop :=
  match l with
  | [] => True
  | i :: more => Forall (fun k => (rank i < rank k)%nat) more /\ ascending more
  end.

(** Every series before [i] in the configured order is terminal. *)
Definition earlierTerminal (i : Interval) (st : JobState) : Prop :=
  forall j, (rank j < rank i)%nat -> terminal (status (tasks st j)).

(** A property of snapshots that every mutation of the runner keeps, given
    what holds of the job at the place where the runner applies it: the
    series enters [running] from a status that is not terminal; it leaves
    [running] for [done], [retrying] (with one attempt more) or [error];
    [error] also follows [done] when the write of the [done] snapshot was
    rejected; and all the while the series before it are terminal. *)
Record Preserved (P : JobState -> Prop) : Prop := {
  pres_start :
    forall s, tasks s = initialTaskState -> data s = (fun _ => None) ->
              logs s = [] -> P s;
  pres_log :
    forall now s msg, P s -> P (withLog now s msg);
  pres_settings :
    forall s s', tasks s' = tasks s -> data s' = data s -> logs s' = logs s ->
                 P s -> P s';
  pres_running :
    forall i now s,
      ~ terminal (status (tasks s i)) -> earlierTerminal i s ->
      P s -> P (toRunning i now s);
  pres_done :
    forall i candles now s,
      status (tasks s i) = running -> earlierTerminal i s ->
      P s -> P (toDone i candles now s);
  pres_retrying :
    forall i at_ waitSec msg now s,
      status (tasks s i) = running -> earlierTerminal i s ->
      P s -> P (toRetrying i (attempts (tasks s i) + 1) at_ waitSec msg now s);
  pres_error :
    forall i msg now s,
      status (tasks s i) = running \/ status (tasks s i) = done ->
      retryAtMs (tasks s i) = None -> earlierTerminal i s ->
      P s -> P (toError i msg now s)
}.

(** The log holds at most [MAX_LOGS] lines. *)
(** A property of snapshots that every mutation of the runner keeps from
    every job, wherever it is applied: such a property holds however the
    turns of several loops follow one another. *)
Record Stable (P : JobState -> Prop) : Prop := {
  stable_start :
    forall s, tasks s = initialTaskState -> data s = (fun _ => None) ->
              logs s = [] -> P s;
  stable_log :
    forall now s msg, P s -> P (withLog now s msg);
  stable_settings :
    forall s s', tasks s' = tasks s -> data s' = data s -> logs s' = logs s ->
                 P s -> P s';
  stable_running :
    forall i now s, P s -> P (toRunning i now s);
  stable_done :
    forall i candles now s, P s -> P (toDone i candles now s);
  stable_retrying :
    forall i at_ waitSec msg now s,
      P s -> P (toRetrying i (attempts (tasks s i) + 1) at_ waitSec msg now s);
  stable_error :
    forall i msg now s, P s -> P (toError i msg now s)
}.

Definition logBounded (s : JobState) : Prop :=
  (length (logs s) <= MAX_LOGS)%nat.

(** What the fields of a task are in each status. *)
Definition fieldsConsistent (s : JobState) : Prop :=
  forall i,
    let t := tasks s i in
    0 <= attempts t /\
    match status t with
    | pending =>
      attempts t = 0 /\ retryAtMs t = None /\ errorMessage t = None /\
      count t = None /\ data s i = None
    | running =>
      retryAtMs t = None /\ errorMessage t = None /\
      count t = None /\ data s i = None
    | retrying =>
      retryAtMs t <> None /\ errorMessage t <> None /\ 1 <= attempts t /\
      count t = None /\ data s i = None
    | done => retryAtMs t = None /\ count t <> None /\ data s i <> None
    | error => retryAtMs t = None /\ errorMessage t <> None
    end.

(** What each status says of the fields of its task, whichever loop wrote
    them. *)
Definition statusCarries (s : JobState) : Prop :=
  forall i,
    let t := tasks s i in
    0 <= attempts t /\
    match status t with
    | pending =>
      attempts t = 0 /\ retryAtMs t = None /\ errorMessage t = None /\
      count t = None /\ data s i = None
    | running => retryAtMs t = None /\ errorMessage t = None
    | retrying =>
      retryAtMs t <> None /\ errorMessage t <> None /\ 1 <= attempts t
    | done => retryAtMs t = None /\ count t <> None /\ data s i <> None
    | error => errorMessage t <> None
    end.

(** The series are worked on in the configured order: a series that has
    left [pending] has only terminal series before it. *)
Definition inOrder (s : JobState) : Prop :=
  forall i j, (rank i < rank j)%nat ->
    status (tasks s j) <> pending -> terminal (status (tasks s i)).

End WithHost.
End Runs.

Export Runs.

(** ** src/components/ProgressList.tsx *)

Module ProgressList.

(** The text of a status, as the union type spells it. *)
Definition statusText (s : TaskStatus) : string :=
  match s with
  | pending => "pending" | running => "running" | retrying => "retrying"
  | done => "done" | error => "error"
  end.

(** [Math.max(0, Math.ceil((task.retryAtMs - nowMs) / 1000))] *)
Definition secondsLeft (retryAtMs nowMs : Z) : Z :=
  Z.max 0 (ceilSeconds (retryAtMs - nowMs)).

Definition label (state : JobState) (interval : Interval) (nowMs : Z) : string :=
  let task := tasks state interval in
  match status task, retryAtMs task with
  | retrying, Some at_ =>
    if decide (at_ = 0) then statusText (status task)
    else "Waiting to retry in " +:+ pretty (secondsLeft at_ nowMs) +:+ "s..."
  | done, _ => "Done (" +:+ pretty (default 0 (count task)) +:+ " candles)"
  | error, _ => "Error: " +:+ default "Unknown" (errorMessage task)
  | s, _ => statusText s
  end.

End ProgressList.

Export ProgressList.

(** ** src/core/excel.ts

    The workbook of the spreadsheet library is kept as what the program
    hands to it: the name of each sheet, in the order of appending, with
    the rows given to [json_to_sheet]. *)

Module Excel.
Section WithHost.
Context `{Host}.

Definition toRows (state : JobState) (interval : Interval) : list CandleRow :=
  default [] (data state interval).

Record MetaRow := {
  m_symbol : string;
  m_generatedAtISO : string;
  m_intervalsRequested : string;
  m_intervalsSucceeded : string;
  m_intervalsFailed : string;
  m_notes : string
}.

Inductive Sheet :=
| CandleSheet (rows : list CandleRow)
| MetaSheet (row : MetaRow).

Definition intervalsSucceeded (state : JobState) : list Interval :=
  filter (fun it => status (tasks state it) = done) INTERVALS.

Definition intervalsFailed (state : JobState) : list Interval :=
  filter (fun it => status (tasks state it) = error) INTERVALS.

(** [task.errorMessage && task.status === "done"] *)
Definition noted (state : JobState) (it : Interval) : option string :=
  match errorMessage (tasks state it) with
  | Some m =>
    if decide (m = "") then None
    else if decide (status (tasks state it) = done) then Some m else None
  | None => None
  end.

Definition notes (state : JobState) : list string :=
  flat_map (fun it =>
              match noted state it with
              | Some m => [interval_name it +:+ ": " +:+ m]
              | None => []
              end) INTERVALS.

(** [xs.join(sep)] *)
Definition join (sep : string) (xs : list string) : string :=
  String.concat sep xs.

Definition buildWorkbook (state : JobState) (now : Z) : list (string * Sheet) :=
  map (fun it => (interval_name it, CandleSheet (toRows state it))) INTERVALS
  ++ [("meta",
       MetaSheet
         {| m_symbol := symbol state;
            m_generatedAtISO := isoOfMs now;
            m_intervalsRequested := join ", " (map interval_name INTERVALS);
            m_intervalsSucceeded :=
              join ", " (map interval_name (intervalsSucceeded state));
            m_intervalsFailed :=
              join ", " (map interval_name (intervalsFailed state));
            m_notes := join " | " (notes state) |})].

End WithHost.
End Excel.

Export Excel.

(** ** src/App.tsx: what the page derives from the job *)

Module App.

(** [INTERVALS.filter((it) => state.tasks[it].status === "done").length],
    [0] without a job. *)
Definition completedCount (state : option JobState) : nat :=
  match state with
  | Some s => length (filter (fun it => status (tasks s it) = done) INTERVALS)
  | None => 0
  end.

Definition allCompleted (state : option JobState) : bool :=
  bool_decide (completedCount state = length INTERVALS).

Definition anyCompleted (state : option JobState) : bool :=
  bool_decide (0 < completedCount state)%nat.

(** [disabled={!state || !anyCompleted}] on the download button. *)
Definition downloadDisabled (state : option JobState) : bool :=
  match state with
  | Some _ => negb (anyCompleted state)
  | None => true
  end.

End App.

Export App.

(** ** Concrete jobs and worlds *)

Module Sample.

(** A job as [startNewJob] builds it, before its first line of log. *)
Definition job : JobState :=
  {| id := "job-1"; symbol := "BTCUSDT"; proxyBaseUrl := "";
     autoResume := true; timezone := "UTC";
     createdAtISO := "1000"; updatedAtISO := "1000";
     tasks := initialTaskState; data := fun _ => None; logs := [] |}.

(** A runner that holds that job, in a world without storage failures. *)
Definition started : World :=
  {| w_state := Some job; w_active := false; w_idb := Some job; w_local := None;
     w_observed := [Some job]; w_now := 1000;
     w_idb_faults := []; w_local_faults := [];
     w_random := []; w_uuids := []; w_clears := [] |}.

(** A retryable failure of the remote API. *)
Definition busy : BinanceApiError :=
  {| message := "HTTP 503"; err_status := Some 503; retryAfterMs := None;
     retryable := true |}.

(** An answer that the remote API gives to a request it rejects, and the
    error that [fetchKlines] makes of it. *)
Definition rejected : FetchOutcome :=
  Scenario.failResponse 400 Scenario.noHeaders "Invalid symbol.".

Definition rejection : BinanceApiError :=
  {| message := "HTTP 400: Invalid symbol."; err_status := Some 400;
     retryAfterMs := None; retryable := false |}.

(** An answer of the remote API that [fetchKlines] takes for a retryable
    failure. *)
Definition overloaded : FetchOutcome :=
  Scenario.failResponse 503 Scenario.noHeaders "Service unavailable.".

(** One successful answer of one record for each of the nine series. *)
Definition answers : list FetchOutcome := replicate 9 (Scenario.okResponse 1).

(** The world after a whole job over those answers. *)
Definition finished : World :=
  snd (startNewJob (H := Scenario.browser) Scenario.btc answers
         (Scenario.fresh [] [] [] [])).

(** The batch of one record that such an answer decodes to. *)
Definition batch : list CandleRow :=
  match fetchKlines_request (H := Scenario.browser) 1000 (Scenario.okResponse 1) with
  | Ok rows => rows
  | Throw _ => []
  end.

(** The runner holding the job while both storage tiers reject the next
    write. *)
Definition unsavable : World :=
  {| w_state := Some job; w_active := true; w_idb := Some job; w_local := None;
     w_observed := [Some job]; w_now := 1000;
     w_idb_faults := [Scenario.broken]; w_local_faults := [Scenario.quota];
     w_random := []; w_uuids := []; w_clears := [] |}.

End Sample.
(** * Properties *)

(** ** Backoff policy ([computeRetryDelayMs]) *)

Section Backoff.

Lemma Math_random_range (draws : list Z) :
  0 <= fst (Math_random draws) < 2 ^ 53.
Proof.
  destruct draws as [|r rest]; cbn [Math_random fst].
  - lia.
  - apply Z.mod_pos_bound. lia.
Qed.

Lemma jitterOf_range (r : Z) :
  0 <= r < 2 ^ 53 -> 0 <= jitterOf r <= 999.
Proof.
  change (2 ^ 53) with 9007199254740992.
  intros Hr. unfold jitterOf. change (2 ^ 53) with 9007199254740992. split.
  - apply Z.div_pos; lia.
  - assert ((r * 1000) `div` 9007199254740992 < 1000); [|lia].
    apply Z.div_lt_upper_bound; lia.
Qed.

(** The capped exponential, attempt by attempt. *)
Lemma exponential_table (a : Z) :
  0 <= a ->
  let e := Z.min MAX_BACKOFF_MS (1000 * 2 ^ Z.min a 8) in
  (a = 0 /\ e = 1000) \/ (a = 1 /\ e = 2000) \/ (a = 2 /\ e = 4000) \/
  (a = 3 /\ e = 8000) \/ (a = 4 /\ e = 16000) \/ (a = 5 /\ e = 32000) \/
  (6 <= a /\ e = 60000).
Proof.
  intros Ha e. subst e. unfold MAX_BACKOFF_MS.
  assert (Hm : Z.min a 8 = 0 \/ Z.min a 8 = 1 \/ Z.min a 8 = 2 \/
               Z.min a 8 = 3 \/ Z.min a 8 = 4 \/ Z.min a 8 = 5 \/
               Z.min a 8 = 6 \/ Z.min a 8 = 7 \/ Z.min a 8 = 8) by lia.
  destruct Hm as [E|[E|[E|[E|[E|[E|[E|[E|E]]]]]]]]; rewrite E;
    change (2 ^ 0) with 1; change (2 ^ 1) with 2; change (2 ^ 2) with 4;
    change (2 ^ 3) with 8; change (2 ^ 4) with 16; change (2 ^ 5) with 32;
    change (2 ^ 6) with 64; change (2 ^ 7) with 128; change (2 ^ 8) with 256;
    lia.
Qed.

(** Without a positive hint the wait is the capped exponential plus the
    jitter of the next draw, capped again. *)
Lemma computeRetryDelayMs_no_hint (attempts : Z) (hint : option Z) (draws : list Z) :
  (forall h, hint = Some h -> h <= 0) ->
  fst (computeRetryDelayMs attempts hint draws) =
  Z.min MAX_BACKOFF_MS
    (Z.min MAX_BACKOFF_MS (1000 * 2 ^ Z.min attempts 8)
     + jitterOf (fst (Math_random draws))).
Proof.
  intros Hh. unfold computeRetryDelayMs.
  destruct hint as [h|].
  - specialize (Hh h eq_refl). destruct (decide (h > 0)); [lia|].
    destruct (Math_random draws); reflexivity.
  - destruct (Math_random draws); reflexivity.
Qed.

Lemma computeRetryDelayMs_hint (attempts h : Z) (draws : list Z) :
  0 < h ->
  computeRetryDelayMs attempts (Some h) draws = (Z.min h MAX_BACKOFF_MS, draws).
Proof.
  intros Hh. unfold computeRetryDelayMs.
  destruct (decide (h > 0)); [reflexivity|lia].
Qed.

(** C3: [computeRetryDelayMs] returns [min(hint, 60000)] when a positive
    hint is present, and otherwise
    [min(60000, min(60000, 1000 * 2^min(attempts, 8)) + jitter)] for an
    integer [jitter] between 0 and 999. *)
Theorem computeRetryDelayMs_formula (attempts : Z) (hint : option Z) (draws : list Z) :
  0 <= attempts ->
  (forall h, hint = Some h -> 0 < h ->
     fst (computeRetryDelayMs attempts hint draws) = Z.min h 60000) /\
  ((forall h, hint = Some h -> h <= 0) ->
     exists jitter, 0 <= jitter <= 999 /\
       fst (computeRetryDelayMs attempts hint draws) =
       Z.min 60000 (Z.min 60000 (1000 * 2 ^ Z.min attempts 8) + jitter)).
Proof.
  intros _. split.
  - intros h -> Hh. rewrite computeRetryDelayMs_hint by done. reflexivity.
  - intros Hh. exists (jitterOf (fst (Math_random draws))). split.
    + apply jitterOf_range, Math_random_range.
    + apply computeRetryDelayMs_no_hint, Hh.
Qed.

Lemma computeRetryDelayMs_formula_witness :
  fst (computeRetryDelayMs 3 (Some 5000) [7]) = Z.min 5000 60000 /\
  exists jitter, 0 <= jitter <= 999 /\
    fst (computeRetryDelayMs 3 None [4503599627370496]) =
    Z.min 60000 (Z.min 60000 (1000 * 2 ^ Z.min 3 8) + jitter).
Proof.
  split.
  - apply (computeRetryDelayMs_formula 3 (Some 5000) [7]); [lia|reflexivity|lia].
  - apply (computeRetryDelayMs_formula 3 None [4503599627370496]); [lia|].
    intros h Hh. discriminate Hh.
Defined.

(** C4, as stated, fails: two calls with the same attempt count draw their
    jitter independently, and the first may draw the larger one. *)
Lemma computeRetryDelayMs_not_monotone_across_draws :
  1 <= 1 /\
  ~ (fst (computeRetryDelayMs 1 None [9007199254740991])
     <= fst (computeRetryDelayMs 1 None [0])).
Proof. split; [lia|]. vm_compute. intros Hle. apply Hle. reflexivity. Qed.

(** C4, amended: for attempt counts [a <= b] and a fixed hint the wait
    does not decrease when both calls see the same jitter draw, nor, for
    [a < b], whatever the two draws are; and the wait always lies between
    0 and 60000 ms. *)
Theorem computeRetryDelayMs_monotone_bounded
    (a b : Z) (hint : option Z) (d1 d2 : list Z) :
  0 <= a -> a <= b ->
  fst (computeRetryDelayMs a hint d1) <= fst (computeRetryDelayMs b hint d1) /\
  (a < b ->
   fst (computeRetryDelayMs a hint d1) <= fst (computeRetryDelayMs b hint d2)) /\
  0 <= fst (computeRetryDelayMs a hint d1) <= 60000.
Proof.
  intros Ha Hab.
  destruct hint as [h|]; [destruct (decide (0 < h)) as [Hh|Hh]|].
  - rewrite !computeRetryDelayMs_hint by done. simpl.
    unfold MAX_BACKOFF_MS. lia.
  - rewrite !computeRetryDelayMs_no_hint by (intros ? [= <-]; lia).
    pose proof (jitterOf_range _ (Math_random_range d1)).
    pose proof (jitterOf_range _ (Math_random_range d2)).
    pose proof (exponential_table a Ha) as Ta.
    pose proof (exponential_table b ltac:(lia)) as Tb.
    simpl in Ta, Tb. unfold MAX_BACKOFF_MS in *. lia.
  - rewrite !computeRetryDelayMs_no_hint by (intros ? [=]).
    pose proof (jitterOf_range _ (Math_random_range d1)).
    pose proof (jitterOf_range _ (Math_random_range d2)).
    pose proof (exponential_table a Ha) as Ta.
    pose proof (exponential_table b ltac:(lia)) as Tb.
    simpl in Ta, Tb. unfold MAX_BACKOFF_MS in *. lia.
Qed.

Lemma computeRetryDelayMs_monotone_bounded_witness :
  fst (computeRetryDelayMs 2 None [9007199254740991])
    <= fst (computeRetryDelayMs 3 None [0]) /\
  0 <= fst (computeRetryDelayMs 2 None [9007199254740991]) <= 60000.
Proof.
  destruct (computeRetryDelayMs_monotone_bounded 2 3 None
              [9007199254740991] [0]) as [_ [Hlt Hrange]]; [lia|lia|].
  split; [apply Hlt; lia|exact Hrange].
Defined.

End Backoff.

(** ** Error classifier ([parseRetryAfterMs], [toCandleRow], [fetchKlines_request]) *)

Section Classifier.
Context `{Host}.

Lemma length_substring_le (n m : nat) (s : string) :
  (String.length (String.substring n m s) <= m)%nat.
Proof.
  revert n m. induction s as [|c s IH]; intros n m.
  - destruct n, m; simpl; lia.
  - destruct n as [|n]; simpl.
    + destruct m as [|m]; simpl; [lia|]. specialize (IH 0%nat m). lia.
    + apply IH.
Qed.

(** Whatever the [try] block throws, [fetchKlines_request] throws a
    [BinanceApiError]; it is retryable unless the block threw a
    [BinanceApiError] that is not. *)
Lemma fetchKlines_catch_retryable (e : Exn) :
  (forall a, e = ApiError a -> retryable a = true) ->
  exists a, fetchKlines_catch e = ApiError a /\ retryable a = true.
Proof.
  intros Ha. destruct e as [a|name msg| |]; simpl.
  - exists a. split; [reflexivity|]. apply Ha. reflexivity.
  - destruct (decide (name = "AbortError")); eexists; split; reflexivity.
  - eexists. split; reflexivity.
  - eexists. split; reflexivity.
Qed.

Lemma toCandleRow_throws (j : Json) (e : Exn) :
  toCandleRow j = Throw e ->
  e = ApiError invalidCandle \/ e = OtherError "Invalid time value".
Proof.
  assert (Hiso : forall ms e', toISOString ms = Throw e' ->
                  e' = OtherError "Invalid time value").
  { intros ms e'. unfold toISOString.
    destruct ms as [| | |z]; try (intros [= <-]; reflexivity).
    destruct (decide (Z.abs z <= 8640000000000000)); [discriminate|].
    intros [= <-]. reflexivity. }
  destruct j as [| | | |items|]; simpl; try (intros [= <-]; auto).
  destruct (decide (length items < 7)%nat); [intros [= <-]; auto|].
  destruct (toISOString _) eqn:E1; [|intros [= <-]; eauto].
  destruct (toISOString _) eqn:E2 in |- *; [discriminate|intros [= <-]; eauto].
Qed.

Lemma toCandleRow_malformed (j : Json) :
  isTuple j = false -> toCandleRow j = Throw (ApiError invalidCandle).
Proof.
  destruct j as [| | | |items|]; simpl; try reflexivity.
  intros Hl. apply bool_decide_eq_false in Hl.
  destruct (decide (length items < 7)%nat); [reflexivity|lia].
Qed.

Lemma mapCandles_throws (items : list Json) (e : Exn) :
  mapCandles items = Throw e ->
  e = ApiError invalidCandle \/ e = OtherError "Invalid time value".
Proof.
  induction items as [|x rest IH]; simpl; [discriminate|].
  destruct (toCandleRow x) as [row|e'] eqn:Ex.
  - destruct (mapCandles rest); [discriminate|].
    intros [= <-]. apply IH. reflexivity.
  - intros [= <-]. eapply toCandleRow_throws, Ex.
Qed.

Lemma mapCandles_malformed (items : list Json) (x : Json) :
  x ∈ items -> isTuple x = false -> exists e, mapCandles items = Throw e.
Proof.
  induction 1 as [x rest|x y rest Hin IH]; intros Hx; simpl.
  - rewrite toCandleRow_malformed by done. eauto.
  - destruct (toCandleRow y); [|eauto].
    destruct (IH Hx) as [e ->]. eauto.
Qed.

(** A decoded batch has one record for each tuple of the body. *)
Lemma mapCandles_length (items : list Json) (rows : list CandleRow) :
  mapCandles items = Ok rows -> length rows = length items.
Proof.
  revert rows. induction items as [|x rest IH]; simpl; intros rows.
  - intros [= <-]. reflexivity.
  - destruct (toCandleRow x); [|discriminate].
    destruct (mapCandles rest) as [rs|]; [|discriminate].
    intros [= <-]. simpl. f_equal. apply IH. reflexivity.
Qed.

(** [fetchKlines_request] never throws anything but a [BinanceApiError]. *)
Lemma fetchKlines_throws (now : Z) (o : FetchOutcome) (e : Exn) :
  fetchKlines_request now o = Throw e -> exists a, e = ApiError a.
Proof.
  unfold fetchKlines_request. destruct (fetchKlines_try now o) as [|e0]; [discriminate|].
  intros [= <-]. unfold fetchKlines_catch.
  repeat (match goal with
          | |- context [match ?x with _ => _ end] => destruct x
          end; eauto).
Qed.

(** C2: the classification of the outcome of one remote fetch. Status 429,
    418 and every status from 500 up are retryable; so are a network
    failure, a timeout, and a body that is not JSON, not an array, or has a
    tuple of fewer than seven elements; every other status outside 2xx is
    fatal, and its message folds in at most the first 250 characters of the
    body.  The outcome of the fetch is classified by the part of
    [fetchKlines] from the request on, which is all of [fetchKlines] once
    [new URL] has accepted the address. *)
Theorem fetchKlines_classification (now : Z) :
  (forall proxyBaseUrl o,
     URL_error (klinesAddress proxyBaseUrl) = None ->
     fetchKlines proxyBaseUrl now o = fetchKlines_request now o) /\
  (forall r, resp_status r = 429 \/ resp_status r = 418 \/ resp_status r >= 500 ->
     exists a, fetchKlines_request now (Responded r) = Throw (ApiError a) /\
               retryable a = true) /\
  (forall msg, exists a, fetchKlines_request now (NetworkFailed msg) = Throw (ApiError a) /\
               retryable a = true) /\
  (exists a, fetchKlines_request now TimedOut = Throw (ApiError a) /\ retryable a = true) /\
  (forall r, ok r = true ->
     resp_json r = JsonAborted \/
     (exists msg, resp_json r = JsonSyntaxError msg) \/
     (exists j, resp_json r = JsonValue j /\ malformedBody j) ->
     exists a, fetchKlines_request now (Responded r) = Throw (ApiError a) /\
               retryable a = true) /\
  (forall r, ok r = false ->
     resp_status r <> 429 -> resp_status r <> 418 -> resp_status r < 500 ->
     exists a, fetchKlines_request now (Responded r) = Throw (ApiError a) /\
       retryable a = false /\
       message a =
         "HTTP " +:+ pretty (resp_status r) +:+
         match resp_text r with
         | None | Some "" => ""
         | Some detail => ": " +:+ String.substring 0 250 detail
         end /\
       forall detail, resp_text r = Some detail ->
         (String.length (String.substring 0 250 detail) <= 250)%nat).
Proof.
  repeat split.
  - intros proxyBaseUrl o Hurl. unfold fetchKlines, newURL. rewrite Hurl.
    reflexivity.
  - intros r Hs. unfold fetchKlines_request, fetchKlines_try, ok.
    rewrite bool_decide_eq_false_2 by lia. simpl.
    eexists. split; [reflexivity|]. simpl.
    destruct Hs as [E|[E|E]].
    + rewrite (bool_decide_eq_true_2 (resp_status r = 429)) by done.
      apply orb_true_iff. left. apply orb_true_iff. right. reflexivity.
    + rewrite (bool_decide_eq_true_2 (resp_status r = 418)) by done.
      reflexivity.
    + rewrite (bool_decide_eq_true_2 (resp_status r >= 500)) by done.
      apply orb_true_r.
  - intros [msg|]; eexists; split; reflexivity.
  - eexists; split; reflexivity.
  - intros r Hok Hbody. unfold fetchKlines_request, fetchKlines_try. rewrite Hok.
    destruct Hbody as [->|[[msg ->]|[j [-> Hj]]]].
    + eexists; split; reflexivity.
    + eexists; split; reflexivity.
    + destruct j as [| | | |items|]; try (eexists; split; reflexivity).
      destruct Hj as [x [Hin Hx]].
      destruct (mapCandles_malformed items x Hin Hx) as [e He]. rewrite He.
      destruct (fetchKlines_catch_retryable e) as [a [-> Ha]]; [|eauto].
      intros a ->.
      destruct (mapCandles_throws _ _ He) as [[= ->]|[=]]. reflexivity.
  - intros r Hok H429 H418 H500. unfold fetchKlines_request, fetchKlines_try.
    rewrite Hok. simpl. eexists. split; [reflexivity|]. simpl.
    rewrite !bool_decide_eq_false_2 by lia. split; [reflexivity|]. split.
    + f_equal. f_equal. destruct (resp_text r) as [[|c d]|]; reflexivity.
    + intros detail _. apply length_substring_le.
Qed.

(** C5: the hint that the failure of a response outside 2xx carries is
    read from the retry-hint header: a numeric value over 1000 is taken as
    milliseconds, a numeric value up to 1000 is multiplied by 1000, a
    non-numeric value that parses as a date gives the time remaining until
    that date, not below zero, and any other value gives no hint. *)
Theorem parseRetryAfterMs_cases (now : Z) (r : Response) (v : string) :
  ok r = false ->
  retryHeader (resp_headers r) = Some v -> v <> "" ->
  exists a,
    fetchKlines_request now (Responded r) = Throw (ApiError a) /\
    retryAfterMs a = parseRetryAfterMs now (resp_headers r) /\
    (forall n, NumberOfString v = Fin n -> n > 1000 -> retryAfterMs a = Some n) /\
    (forall n, NumberOfString v = Fin n -> n <= 1000 ->
       retryAfterMs a = Some (n * 1000)) /\
    (isFinite (NumberOfString v) = None ->
     forall d, DateParse v = Fin d -> retryAfterMs a = Some (Z.max 0 (d - now))) /\
    (isFinite (NumberOfString v) = None -> isFinite (DateParse v) = None ->
     retryAfterMs a = None).
Proof.
  intros Hok Hv Hne. unfold fetchKlines_request, fetchKlines_try. rewrite Hok. simpl.
  eexists. split; [reflexivity|]. simpl. split; [reflexivity|].
  unfold parseRetryAfterMs. rewrite Hv.
  destruct (decide (v = "")) as [|_]; [done|].
  repeat split.
  - intros n -> Hn. simpl. destruct (decide (n > 1000)); [reflexivity|lia].
  - intros n -> Hn. simpl. destruct (decide (n > 1000)); [lia|reflexivity].
  - intros -> d ->. reflexivity.
  - intros -> ->. reflexivity.
Qed.

End Classifier.

Lemma parseRetryAfterMs_cases_witness :
  exists a,
    fetchKlines_request (H := Scenario.browser) 0
      (Scenario.failResponse 429 (Scenario.headersOf "retry-after" "5") "slow")
    = Throw (ApiError a) /\ retryAfterMs a = Some 5000.
Proof.
  destruct (parseRetryAfterMs_cases (H := Scenario.browser) 0
              {| resp_status := 429;
                 resp_headers := Scenario.headersOf "retry-after" "5";
                 resp_text := Some "slow";
                 resp_json := JsonSyntaxError "Unexpected token" |} "5")
    as [a [Ha [_ [_ [Hsec _]]]]].
  - reflexivity.
  - reflexivity.
  - discriminate.
  - exists a. split; [exact Ha|]. apply (Hsec 5); [reflexivity|lia].
Defined.

Lemma fetchKlines_classification_witness :
  exists a,
    fetchKlines_request (H := Scenario.browser) 0
      (Scenario.failResponse 403 Scenario.noHeaders "forbidden")
    = Throw (ApiError a) /\
    retryable a = false /\ message a = "HTTP 403: forbidden".
Proof.
  destruct (fetchKlines_classification (H := Scenario.browser) 0)
    as [_ [_ [_ [_ [_ Hfatal]]]]].
  destruct (Hfatal {| resp_status := 403; resp_headers := Scenario.noHeaders;
                      resp_text := Some "forbidden";
                      resp_json := JsonSyntaxError "Unexpected token" |})
    as [a [Ha [Hr [Hm _]]]]; [reflexivity|cbn; lia|cbn; lia|cbn; lia|].
  exists a. split; [exact Ha|]. split; [exact Hr|exact Hm].
Defined.

(** ** Durable store ([chooseStorage]) and persistence of a mutation *)

(** Unfolds one storage operation and splits on what the tiers do. *)
Ltac storage_cases w :=
  unfold storage_set, storage_get, storage_clear, try_catch,
    idb_set, idb_get, idb_clear, local_set, local_get, local_clear,
    idb_op, local_op;
  destruct hasIndexedDB;
  destruct (w_idb_faults w) as [|[[? ?]|] ?] eqn:?; cbn;
  destruct (w_local_faults w) as [|[[? ?]|] ?] eqn:?; cbn.

Section Persistence.
Context `{Host}.

Lemma storage_set_frame (v : JobState) (w : World) :
  storageOnly w (snd (storage_set v w)) /\
  match fst (storage_set v w) with
  | Ok _ =>
    (w_idb (snd (storage_set v w)) = Some v /\
     w_local (snd (storage_set v w)) = w_local w) \/
    (w_idb (snd (storage_set v w)) = w_idb w /\
     w_local (snd (storage_set v w)) = Some v)
  | Throw _ =>
    w_idb (snd (storage_set v w)) = w_idb w /\
    w_local (snd (storage_set v w)) = w_local w
  end.
Proof. unfold storageOnly. storage_cases w; intuition reflexivity. Qed.

Lemma storage_clear_frame (w : World) :
  storageOnly w (snd (storage_clear w)) /\
  match fst (storage_clear w) with
  | Ok _ =>
    (w_idb (snd (storage_clear w)) = None /\
     w_local (snd (storage_clear w)) = w_local w) \/
    (w_idb (snd (storage_clear w)) = w_idb w /\
     w_local (snd (storage_clear w)) = None)
  | Throw _ =>
    w_idb (snd (storage_clear w)) = w_idb w /\
    w_local (snd (storage_clear w)) = w_local w
  end.
Proof. unfold storageOnly. storage_cases w; intuition reflexivity. Qed.

Lemma storage_get_frame (w : World) :
  storageOnly w (snd (storage_get w)) /\
  w_idb (snd (storage_get w)) = w_idb w /\
  w_local (snd (storage_get w)) = w_local w /\
  forall saved, fst (storage_get w) = Ok (Some saved) ->
    w_idb w = Some saved \/ w_local w = Some saved.
Proof.
  unfold storageOnly. storage_cases w;
    (repeat split; try reflexivity); intros saved [= E]; auto.
Qed.

(** One tier accepting the write is enough for [storage.set] to resolve. *)
Lemma storage_set_ok (v : JobState) (w : World) :
  ~ primaryFails w \/ ~ fallbackFails w ->
  fst (storage_set v w) = Ok tt.
Proof.
  unfold primaryFails, fallbackFails. intros Hok.
  storage_cases w; try reflexivity; exfalso;
    destruct Hok as [Hok|Hok]; apply Hok; eauto.
Qed.

(** When both tiers fail, [storage.set] rejects with the exception of the
    fallback tier. *)
Lemma storage_set_fails (v : JobState) (w : World) :
  primaryFails w -> fallbackFails w ->
  exists name msg rest,
    w_local_faults w = Some (name, msg) :: rest /\
    fst (storage_set v w) = Throw (DomError name msg).
Proof.
  unfold primaryFails, fallbackFails.
  intros Hp [f [rest Hf]].
  storage_cases w; try discriminate Hf;
    try (do 3 eexists; split; reflexivity);
    exfalso; destruct Hp as [Hp|[f' [rest' Hp]]]; discriminate Hp.
Qed.

Lemma persistAndEmit_state (s : JobState) (w : World) :
  w_state (snd (persistAndEmit s w)) = Some s.
Proof.
  unfold persistAndEmit.
  pose proof (storage_set_frame s (set_state (Some s) w)) as [[Hs _] _].
  destruct (storage_set s (set_state (Some s) w)) as [[|e] w']; exact Hs.
Qed.

Lemma persistAndEmit_observed (s : JobState) (w : World) :
  w_observed (snd (persistAndEmit s w)) =
  match fst (persistAndEmit s w) with
  | Ok _ => w_observed w ++ [Some s]
  | Throw _ => w_observed w
  end.
Proof.
  unfold persistAndEmit.
  pose proof (storage_set_frame s (set_state (Some s) w)) as [[_ [_ [Ho _]]] _].
  destruct (storage_set s (set_state (Some s) w)) as [[|e] w']; simpl in *;
    rewrite Ho; reflexivity.
Qed.

Lemma persistAndEmit_result (s : JobState) (w : World) :
  fst (persistAndEmit s w) = fst (storage_set s (set_state (Some s) w)).
Proof.
  unfold persistAndEmit.
  destruct (storage_set s (set_state (Some s) w)) as [[[]|e] w']; reflexivity.
Qed.

(** C1, as stated, fails: with a job in memory and both tiers rejecting
    the write, a change of settings replaces the job in memory, but the
    caller receives the exception of the fallback tier and the observer is
    not called. *)
Lemma updateSettings_surfaces_storage_failure :
  let w :=
    snd (startNewJob (H := Scenario.browser) Scenario.btc []
           (Scenario.fresh [None; None; Scenario.quota] [Scenario.quota] [] [])) in
  let change :=
    {| s_proxyBaseUrl := None; s_autoResume := Some false; s_timezone := None |} in
  let after := updateSettings (H := Scenario.browser) change w in
  autoResume <$> w_state w = Some true /\
  autoResume <$> w_state (snd after) = Some false /\
  fst after =
    Throw (DomError "QuotaExceededError" "The quota has been exceeded.") /\
  w_observed (snd after) = w_observed w.
Proof. vm_compute. repeat split; reflexivity. Qed.


End Persistence.


(** ** Invariants of the snapshots *)

Section Invariants.
Context `{Host}.

Lemma sound_ext (s s' : JobState) :
  tasks s' = tasks s -> data s' = data s -> sound s -> sound s'.
Proof.
  intros Ht Hd [Hr Hb]. split.
  - intros i. rewrite Ht. apply Hr.
  - intros i. rewrite Ht, Hd. apply Hb.
Qed.

Lemma sound_withLog (now : Z) (s : JobState) (msg : string) :
  sound s -> sound (withLog now s msg).
Proof. apply sound_ext; reflexivity. Qed.

Lemma sound_initial (s : JobState) :
  tasks s = initialTaskState -> sound s.
Proof.
  intros Ht. split; intros i; rewrite Ht; simpl; [congruence|discriminate].
Qed.

(** Replacing the task of one series, and possibly its batch, by a task
    that satisfies both invariants on its own. *)
Lemma sound_update (prev s : JobState) (i : Interval) (t : IntervalTaskState) :
  tasks s = <[i := t]> (tasks prev) ->
  (forall j, j <> i -> data s j = data prev j) ->
  (retryAtMs t <> None -> status t = retrying) ->
  (status t = done ->
   exists batch, data s i = Some batch /\
     count t = Some (Z.of_nat (length batch)) /\
     errorMessage t =
       (if decide (length batch < 1000)%nat
        then Some "Returned fewer than 1000 candles" else None)) ->
  sound prev -> sound s.
Proof.
  intros Ht Hd Hr Hb [Pr Pb]. split; intros j; rewrite Ht.
  - destruct (decide (j = i)) as [->|Hne].
    + rewrite fn_lookup_insert. exact Hr.
    + rewrite fn_lookup_insert_ne by done. apply Pr.
  - destruct (decide (j = i)) as [->|Hne].
    + rewrite fn_lookup_insert. exact Hb.
    + rewrite fn_lookup_insert_ne by done. rewrite Hd by done. apply Pb.
Qed.

Lemma sound_toRunning (i : Interval) (now : Z) (prev : JobState) :
  sound prev -> sound (toRunning i now prev).
Proof.
  eapply sound_update; [reflexivity|reflexivity| |]; simpl; congruence.
Qed.

Lemma sound_toRetrying (i : Interval) (attempts at_ waitSec : Z)
    (msg : string) (now : Z) (prev : JobState) :
  sound prev -> sound (toRetrying i attempts at_ waitSec msg now prev).
Proof.
  eapply sound_update; [reflexivity|reflexivity| |]; simpl; congruence.
Qed.

Lemma sound_toDone (i : Interval) (candles : list CandleRow) (now : Z)
    (prev : JobState) :
  sound prev -> sound (toDone i candles now prev).
Proof.
  eapply sound_update; [reflexivity| | |]; simpl.
  - intros j Hne. rewrite fn_lookup_insert_ne by done. reflexivity.
  - congruence.
  - intros _. exists candles. rewrite fn_lookup_insert. auto.
Qed.

(** The fatal mutator keeps the retry time of the task: it needs a task
    that has none. *)
Lemma sound_toError (i : Interval) (msg : string) (now : Z) (prev : JobState) :
  retryAtMs (tasks prev i) = None ->
  sound prev -> sound (toError i msg now prev).
Proof.
  intros Hnone.
  eapply sound_update; [reflexivity|reflexivity| |]; simpl; congruence.
Qed.

(** *** How each operation changes the snapshots of a world *)

Lemma snapshotOf_storage_set (v : JobState) (w : World) (s : JobState) :
  snapshotOf (snd (storage_set v w)) s -> s = v \/ snapshotOf w s.
Proof.
  pose proof (storage_set_frame v w) as [[Hs [_ [Ho _]]] Hr].
  unfold snapshotOf. rewrite Hs, Ho.
  destruct (fst (storage_set v w)); destruct Hr as [[-> ->]|[-> ->]] || destruct Hr as [-> ->];
    intuition congruence.
Qed.

Lemma snapshotOf_storage_clear (w : World) (s : JobState) :
  snapshotOf (snd (storage_clear w)) s -> snapshotOf w s.
Proof.
  pose proof (storage_clear_frame w) as [[Hs [_ [Ho _]]] Hr].
  unfold snapshotOf. rewrite Hs, Ho.
  destruct (fst (storage_clear w)); destruct Hr as [[-> ->]|[-> ->]] || destruct Hr as [-> ->];
    intuition congruence.
Qed.

Lemma snapshotOf_storage_get (w : World) (s : JobState) :
  snapshotOf (snd (storage_get w)) s -> snapshotOf w s.
Proof.
  pose proof (storage_get_frame w) as [[Hs [_ [Ho _]]] [Hi [Hl _]]].
  unfold snapshotOf. rewrite Hs, Ho, Hi, Hl. auto.
Qed.

Lemma snapshotOf_set_state (v : option JobState) (w : World) (s : JobState) :
  snapshotOf (set_state v w) s -> v = Some s \/ snapshotOf w s.
Proof. unfold snapshotOf. simpl. intuition. Qed.

Lemma snapshotOf_observe (v : option JobState) (w : World) (s : JobState) :
  snapshotOf (observe v w) s -> v = Some s \/ snapshotOf w s.
Proof.
  unfold snapshotOf. simpl. rewrite elem_of_app, list_elem_of_singleton.
  intuition.
Qed.

Lemma snapshotOf_persistAndEmit (st : JobState) (w : World) (s : JobState) :
  snapshotOf (snd (persistAndEmit st w)) s -> s = st \/ snapshotOf w s.
Proof.
  unfold persistAndEmit.
  pose proof (snapshotOf_storage_set st (set_state (Some st) w) s) as Hset.
  destruct (storage_set st (set_state (Some st) w)) as [[|e] w']; simpl in *.
  - intros Hs. apply snapshotOf_observe in Hs as [[= ->]|Hs]; [auto|].
    destruct (Hset Hs) as [->|Hw]; [auto|].
    apply snapshotOf_set_state in Hw as [[= ->]|Hw]; auto.
  - intros Hs. destruct (Hset Hs) as [->|Hw]; [auto|].
    apply snapshotOf_set_state in Hw as [[= ->]|Hw]; auto.
Qed.

Lemma everySnapshot_persistAndEmit (P : JobState -> Prop) (st : JobState) (w : World) :
  P st -> everySnapshot P w -> everySnapshot P (snd (persistAndEmit st w)).
Proof.
  intros Hst Hw s Hs.
  apply snapshotOf_persistAndEmit in Hs as [->|Hs]; auto.
Qed.

Lemma everySnapshot_state (P : JobState -> Prop) (w : World) (s : JobState) :
  everySnapshot P w -> w_state w = Some s -> P s.
Proof. intros Hw Hs. apply Hw. left. exact Hs. Qed.

Lemma everySnapshot_setState (P : JobState -> Prop)
    (mutator : Z -> JobState -> JobState) (w : World) :
  (forall prev, w_state w = Some prev -> P prev -> P (mutator (w_now w) prev)) ->
  everySnapshot P w -> everySnapshot P (snd (setState mutator w)).
Proof.
  intros Hm Hw. unfold setState.
  destruct (w_state w) as [prev|] eqn:E; [|exact Hw].
  apply everySnapshot_persistAndEmit; [|exact Hw].
  apply Hm; [reflexivity|]. eapply everySnapshot_state; eauto.
Qed.

Lemma everySnapshot_clearSavedState (P : JobState -> Prop) (w : World) :
  everySnapshot P w -> everySnapshot P (snd (clearSavedState w)).
Proof.
  intros Hw s. unfold clearSavedState.
  pose proof (snapshotOf_storage_clear (set_state None (set_active false w)) s) as Hc.
  destruct (storage_clear (set_state None (set_active false w))) as [[|e] w'];
    simpl in *; intros Hs.
  - apply snapshotOf_observe in Hs as [[=]|Hs].
    apply Hc, snapshotOf_set_state in Hs as [[=]|Hs]. apply Hw, Hs.
  - apply Hc, snapshotOf_set_state in Hs as [[=]|Hs]. apply Hw, Hs.
Qed.

Lemma everySnapshot_delay (P : JobState -> Prop) (ms : Z) (w : World) :
  everySnapshot P w -> everySnapshot P (snd (delay ms w)).
Proof.
  intros Hw. unfold delay.
  destruct (w_clears (set_now (w_now w + Z.max 0 ms) w)) as [|[] rest]; simpl.
  - exact Hw.
  - apply everySnapshot_clearSavedState. exact Hw.
  - exact Hw.
Qed.

Lemma everySnapshot_loadSavedState (w : World) :
  everySnapshot sound w -> everySnapshot sound (snd (loadSavedState w)).
Proof.
  intros Hw s. unfold loadSavedState.
  pose proof (snapshotOf_storage_get w) as Hg.
  pose proof (storage_get_frame w) as [_ [_ [_ Hsaved]]].
  destruct (storage_get w) as [[[saved|]|e] w']; simpl in *; intros Hs.
  - assert (Hin : sound saved).
    { apply Hw. destruct (Hsaved saved eq_refl); unfold snapshotOf; auto. }
    apply snapshotOf_observe in Hs as [[= <-]|Hs].
    { revert Hin. apply sound_ext; reflexivity. }
    apply snapshotOf_set_state in Hs as [[= <-]|Hs].
    { revert Hin. apply sound_ext; reflexivity. }
    apply Hw, Hg, Hs.
  - apply snapshotOf_set_state in Hs as [[=]|Hs]. apply Hw, Hg, Hs.
  - apply Hw, Hg, Hs.
Qed.

End Invariants.

(** *** The per-series procedure and the run loop keep the invariants *)

Section RunnerInvariants.
Context `{Host}.

Lemma setState_state (mutator : Z -> JobState -> JobState) (w : World) :
  w_state (snd (setState mutator w)) = mutator (w_now w) <$> w_state w.
Proof.
  unfold setState. destruct (w_state w) as [prev|] eqn:E; simpl.
  - apply persistAndEmit_state.
  - exact E.
Qed.

Lemma beginAttempt_sound (i : Interval) (task : IntervalTaskState) (w : World) :
  everySnapshot sound w ->
  everySnapshot sound (snd (beginAttempt i task w)) /\
  forall st, w_state (snd (beginAttempt i task w)) = Some st ->
    status (tasks st i) = running /\ retryAtMs (tasks st i) = None.
Proof.
  intros Hw. unfold beginAttempt.
  set (w1 := match mustWait task (w_now w) with
             | Some ms => snd (delay ms w)
             | None => w
             end).
  assert (Hw1 : everySnapshot sound w1).
  { subst w1. destruct (mustWait task (w_now w)); [|exact Hw].
    apply everySnapshot_delay, Hw. }
  split.
  - apply everySnapshot_setState; [|exact Hw1].
    intros prev _. apply sound_toRunning.
  - intros st. rewrite setState_state.
    destruct (w_state w1) as [prev|]; [|discriminate].
    intros [= <-]. simpl. rewrite fn_lookup_insert. split; reflexivity.
Qed.

Lemma tryBlock_sound (i : Interval) (o : FetchOutcome) (w : World) :
  everySnapshot sound w ->
  (forall st, w_state w = Some st -> retryAtMs (tasks st i) = None) ->
  everySnapshot sound (snd (tryBlock i o w)) /\
  forall st, w_state (snd (tryBlock i o w)) = Some st ->
    retryAtMs (tasks st i) = None.
Proof.
  intros Hw Hnone. unfold tryBlock, onIntervalSuccess.
  destruct (fetchKlines_request (w_now w) o) as [candles|e]; simpl; [|auto].
  split.
  - apply everySnapshot_setState; [|exact Hw].
    intros prev _. apply sound_toDone.
  - intros st. rewrite setState_state.
    destruct (w_state w) as [prev|]; [|discriminate].
    intros [= <-]. simpl. rewrite fn_lookup_insert. reflexivity.
Qed.

Lemma catchBlock_sound (i : Interval) (e : Exn) (w : World) :
  everySnapshot sound w ->
  (forall st, w_state w = Some st -> retryAtMs (tasks st i) = None) ->
  match catchBlock i e w with
  | Ends _ w' => everySnapshot sound w'
  | Continues w' => everySnapshot sound w'
  end.
Proof.
  intros Hw Hnone. unfold catchBlock.
  destruct (isRetryable e) as [err|].
  - destruct (w_state w) as [st|] eqn:Est; [|exact Hw].
    destruct (computeRetryDelayMs _ _ _) as [waitMs draws].
    unfold onIntervalRetry.
    match goal with
    | |- context [setState ?m ?w0] =>
      assert (Hs : everySnapshot sound (snd (setState m w0)));
        [|destruct (setState m w0) as [[|e'] w']]
    end.
    + apply everySnapshot_setState.
      * intros prev _. apply sound_toRetrying.
      * intros s Hs. apply Hw. exact Hs.
    + apply everySnapshot_delay, Hs.
    + exact Hs.
  - match goal with
    | |- context [setState ?m ?w0] =>
      assert (Hs : everySnapshot sound (snd (setState m w0)));
        [|destruct (setState m w0) as [r w']; exact Hs]
    end.
    apply everySnapshot_setState; [|exact Hw].
    intros prev Hprev. apply sound_toError, Hnone, Hprev.
Qed.

Lemma executeInterval_sound (i : Interval) (script : list FetchOutcome) (w : World) :
  everySnapshot sound w ->
  everySnapshot sound (snd (executeInterval i script w)).
Proof.
  revert w. induction script as [|o rest IH]; intros w Hw;
    cbn [executeInterval];
    (destruct (w_state w) as [st|]; [|exact Hw]);
    (destruct (isFinishedStatus _); [exact Hw|]);
    destruct (beginAttempt_sound i (tasks st i) w Hw) as [H2 Hrun];
    (destruct (beginAttempt i (tasks st i) w) as [[|e] w2]; simpl in H2, Hrun;
       [|exact H2]);
    (destruct (w_state w2) as [st2|] eqn:E2;
       [|match goal with
         | |- context [setState ?m ?w0] =>
           assert (Hs : everySnapshot sound (snd (setState m w0)));
             [apply everySnapshot_setState; [|exact H2];
              intros prev Hprev; rewrite E2 in Hprev; discriminate Hprev
             |destruct (setState m w0) as [r w3]; exact Hs]
         end]);
    (destruct (newURL _) as [[]|e0];
       [|match goal with
         | |- context [setState ?m ?w0] =>
           assert (Hs : everySnapshot sound (snd (setState m w0)));
             [apply everySnapshot_setState; [|exact H2];
              intros prev Hprev; apply sound_toError;
              apply (Hrun prev); congruence
             |destruct (setState m w0) as [r w3]; exact Hs]
         end]).
  - exact H2.
  - assert (Hnone : forall st', w_state w2 = Some st' ->
                      retryAtMs (tasks st' i) = None).
    { intros st' Hst'. rewrite E2 in Hst'. apply Hrun. exact Hst'. }
    destruct (tryBlock_sound i o w2 H2 Hnone) as [H3 Hnone3].
    destruct (tryBlock i o w2) as [[|e] w3]; simpl in H3, Hnone3; [exact H3|].
    pose proof (catchBlock_sound i e w3 H3 Hnone3) as H4.
    destruct (catchBlock i e w3) as [r w4|w4]; [exact H4|].
    apply IH, H4.
Qed.

Lemma everySnapshot_set_active (P : JobState -> Prop) (b : bool) (w : World) :
  everySnapshot P w -> everySnapshot P (set_active b w).
Proof. intros Hw s Hs. apply Hw. exact Hs. Qed.

Lemma run_loop_sound (intervals : list Interval) (script : list FetchOutcome)
    (w : World) :
  everySnapshot sound w ->
  everySnapshot sound (snd (run_loop intervals script w)).
Proof.
  revert script w. induction intervals as [|i more IH]; intros script w Hw;
    cbn [run_loop]; [exact Hw|].
  destruct (w_state w) as [st|]; [|exact Hw].
  destruct (decide _); [apply IH, Hw|].
  destruct (decide _); [apply IH, Hw|].
  pose proof (executeInterval_sound i script w Hw) as He.
  destruct (executeInterval i script w) as [[[[|e]|] script'] w'];
    simpl in He; [apply IH, He|exact He|exact He].
Qed.

Lemma run_sound (script : list FetchOutcome) (w : World) :
  everySnapshot sound w -> everySnapshot sound (snd (run script w)).
Proof.
  intros Hw. unfold run.
  destruct (w_state w); [|exact Hw].
  destruct (w_active w); [exact Hw|].
  pose proof (run_loop_sound INTERVALS script (set_active true w)
                (everySnapshot_set_active _ _ _ Hw)) as Hl.
  destruct (run_loop INTERVALS script (set_active true w)) as [[[r|] script'] w'];
    simpl in *; [apply everySnapshot_set_active, Hl|exact Hl].
Qed.

Lemma startNewJob_sound (options : StartJobOptions) (script : list FetchOutcome)
    (w : World) :
  everySnapshot sound w ->
  everySnapshot sound (snd (startNewJob options script w)).
Proof.
  intros Hw. unfold startNewJob.
  assert (Hu : everySnapshot sound (snd (randomUUID w))).
  { unfold randomUUID. destruct (w_uuids w) as [|u rest]; [exact Hw|].
    intros s' Hs'. apply Hw. exact Hs'. }
  destruct (randomUUID w) as [uuid w0]. simpl in Hu.
  match goal with
  | |- context [persistAndEmit ?s0 w0] =>
    assert (Hp : everySnapshot sound (snd (persistAndEmit s0 w0)));
      [|destruct (persistAndEmit s0 w0) as [[|e] w']; simpl in Hp]
  end.
  - apply everySnapshot_persistAndEmit; [|exact Hu].
    apply sound_withLog, sound_initial. reflexivity.
  - apply run_sound, Hp.
  - exact Hp.
Qed.

Lemma updateSettings_sound (settings : Settings) (w : World) :
  everySnapshot sound w ->
  everySnapshot sound (snd (updateSettings settings w)).
Proof.
  intros Hw. unfold updateSettings.
  destruct (w_state w) eqn:E; [|exact Hw].
  apply everySnapshot_setState; [|exact Hw].
  intros prev _. apply sound_ext; reflexivity.
Qed.

Lemma resumeIfNeeded_sound (script : list FetchOutcome) (w : World) :
  everySnapshot sound w ->
  everySnapshot sound (snd (resumeIfNeeded script w)).
Proof.
  intros Hw. unfold resumeIfNeeded.
  pose proof (everySnapshot_loadSavedState w Hw) as Hl.
  destruct (loadSavedState w) as [[[saved|]|e] w']; simpl in Hl;
    [|exact Hl|exact Hl].
  destruct (autoResume saved && unfinished saved); [|exact Hl].
  match goal with
  | |- context [setState ?m w'] =>
    assert (Hs : everySnapshot sound (snd (setState m w')));
      [|destruct (setState m w') as [[|e] w'']; simpl in Hs]
  end.
  - apply everySnapshot_setState; [|exact Hl].
    intros prev _. apply sound_withLog.
  - apply run_sound, Hs.
  - exact Hs.
Qed.

(** Every snapshot of an undisturbed world satisfies both invariants. *)
Lemma undisturbed_sound (w : World) :
  undisturbed w -> everySnapshot sound w.
Proof.
  induction 1 as [w Hs Ha Hi Hl Ho|w w' _ IH Hsame| | | | | ].
  - intros s [E|[E|[E|E]]]; try congruence.
    rewrite Ho in E. inversion E.
  - destruct Hsame as [Es [_ [Ei [El Eo]]]].
    intros s Hs. apply IH. unfold snapshotOf in *.
    rewrite Es, Ei, El, Eo in Hs. exact Hs.
  - apply startNewJob_sound. assumption.
  - apply resumeIfNeeded_sound. assumption.
  - apply everySnapshot_loadSavedState. assumption.
  - apply updateSettings_sound. assumption.
  - apply everySnapshot_clearSavedState. assumption.
Qed.

End RunnerInvariants.





(** ** The per-series procedure on a successful fetch *)

Section Success.
Context `{Host}.

Lemma storage_set_throws (v : JobState) (w : World) (e : Exn) :
  fst (storage_set v w) = Throw e -> exists name msg, e = DomError name msg.
Proof. storage_cases w; intros [= <-]; eauto. Qed.

Lemma setState_throws (mutator : Z -> JobState -> JobState) (w : World) (e : Exn) :
  fst (setState mutator w) = Throw e -> exists name msg, e = DomError name msg.
Proof.
  unfold setState. destruct (w_state w); [|discriminate].
  rewrite persistAndEmit_result. apply storage_set_throws.
Qed.

Lemma setState_observed (mutator : Z -> JobState -> JobState) (w : World)
    (prev : JobState) :
  w_state w = Some prev ->
  fst (setState mutator w) = Ok tt ->
  w_observed (snd (setState mutator w))
  = w_observed w ++ [Some (mutator (w_now w) prev)].
Proof.
  unfold setState. intros -> E. rewrite persistAndEmit_observed, E. reflexivity.
Qed.

Lemma clearSavedState_state (w : World) :
  w_state (snd (clearSavedState w)) = None.
Proof.
  unfold clearSavedState.
  pose proof (storage_clear_frame (set_state None (set_active false w)))
    as [[Hs _] _].
  destruct (storage_clear _) as [[|e] w']; exact Hs.
Qed.

Lemma delay_state (ms : Z) (w : World) :
  w_state (snd (delay ms w)) = w_state w \/ w_state (snd (delay ms w)) = None.
Proof.
  unfold delay.
  destruct (w_clears (set_now (w_now w + Z.max 0 ms) w)) as [|[] rest]; simpl;
    auto using clearSavedState_state.
Qed.

(** A turn that has entered [running] with the job still there started
    from the same job. *)
Lemma beginAttempt_state (i : Interval) (task : IntervalTaskState)
    (w : World) (st st2 : JobState) :
  w_state w = Some st ->
  w_state (snd (beginAttempt i task w)) = Some st2 ->
  exists now, st2 = toRunning i now st.
Proof.
  intros Hst. unfold beginAttempt. rewrite setState_state.
  match goal with |- context [w_state ?w1] => set (w1' := w1) end.
  assert (Hw1 : w_state w1' = Some st \/ w_state w1' = None).
  { subst w1'. destruct (mustWait task (w_now w)) as [ms|]; [|auto].
    destruct (delay_state ms w) as [-> | ->]; auto. }
  destruct Hw1 as [-> | ->]; simpl; [|discriminate].
  intros [= <-]. eauto.
Qed.


End Success.


(** ** Resuming *)

Section Resume.
Context `{Host}.

Lemma INTERVALS_complete (i : Interval) : i ∈ INTERVALS.
Proof.
  destruct i; unfold INTERVALS;
    repeat (first [apply list_elem_of_here | apply list_elem_of_further]).
Qed.

Lemma isFinishedStatus_terminal (s : TaskStatus) :
  isFinishedStatus s = true <-> terminal s.
Proof.
  unfold isFinishedStatus, terminal.
  rewrite orb_true_iff, !bool_decide_eq_true. reflexivity.
Qed.

Lemma isFinishedStatus_open (s : TaskStatus) :
  isFinishedStatus s = false <-> ~ terminal s.
Proof.
  rewrite <- isFinishedStatus_terminal.
  destruct (isFinishedStatus s); split; intros; congruence.
Qed.

Lemma unfinished_spec (saved : JobState) :
  unfinished saved = true <-> exists i, ~ terminal (status (tasks saved i)).
Proof.
  unfold unfinished. rewrite existsb_exists. split.
  - intros [i [_ Hi]]. exists i. apply isFinishedStatus_open.
    apply negb_true_iff. exact Hi.
  - intros [i Hi]. exists i. split.
    + apply list_elem_of_In, INTERVALS_complete.
    + apply negb_true_iff, isFinishedStatus_open, Hi.
Qed.

(** *** In a calm world persistence does not raise *)

Lemma storage_set_calm (v : JobState) (w : World) :
  w_local_faults w = [] ->
  fst (storage_set v w) = Ok tt /\ w_local_faults (snd (storage_set v w)) = [].
Proof. intros Hl. storage_cases w; try discriminate; auto. Qed.

Lemma storage_get_calm (w : World) :
  w_local_faults w = [] ->
  (exists r, fst (storage_get w) = Ok r) /\
  w_local_faults (snd (storage_get w)) = [].
Proof. intros Hl. storage_cases w; try discriminate; eauto. Qed.

Lemma setState_calm (mutator : Z -> JobState -> JobState) (w : World) :
  calm w ->
  fst (setState mutator w) = Ok tt /\ calm (snd (setState mutator w)).
Proof.
  intros [Hl Hc]. unfold setState.
  destruct (w_state w) as [prev|]; [|split; [reflexivity|split; assumption]].
  unfold persistAndEmit.
  set (s := mutator (w_now w) prev).
  pose proof (storage_set_calm s (set_state (Some s) w) Hl) as [Hok Hl'].
  pose proof (storage_set_frame s (set_state (Some s) w)) as [[_ [_ [_ [_ [_ [_ Hc']]]]]] _].
  destruct (storage_set s (set_state (Some s) w)) as [[[]|e] w'];
    unfold calm; simpl in *; [|discriminate].
  split; [reflexivity|]. split; [exact Hl'|]. rewrite Hc'. exact Hc.
Qed.


Lemma delay_calm (ms : Z) (w : World) :
  calm w ->
  calm (snd (delay ms w)) /\ w_state (snd (delay ms w)) = w_state w.
Proof.
  intros [Hl Hc]. unfold delay. simpl. rewrite Hc. simpl.
  split; [split; assumption|reflexivity].
Qed.

Lemma beginAttempt_calm (i : Interval) (task : IntervalTaskState) (w : World)
    (st : JobState) :
  calm w -> w_state w = Some st ->
  fst (beginAttempt i task w) = Ok tt /\
  exists st2, w_state (snd (beginAttempt i task w)) = Some st2.
Proof.
  intros Hc Hst. unfold beginAttempt.
  match goal with |- context [setState _ ?w1] => set (w1' := w1) end.
  assert (Hw1 : calm w1' /\ w_state w1' = Some st).
  { subst w1'. destruct (mustWait task (w_now w)) as [ms|]; [|auto].
    destruct (delay_calm ms w Hc) as [Hc' Hs']. rewrite Hs'. auto. }
  destruct Hw1 as [Hc1 Hst1].
  split; [apply setState_calm, Hc1|].
  rewrite setState_state, Hst1. simpl. eauto.
Qed.

(** *** The script of network answers is only consumed *)

Lemma executeInterval_length (i : Interval) (script : list FetchOutcome) (w : World) :
  (length (snd (fst (executeInterval i script w))) <= length script)%nat.
Proof.
  revert w. induction script as [|o rest IH]; intros w; cbn [executeInterval];
    (destruct (w_state w) as [st|]; [|simpl; lia]);
    (destruct (isFinishedStatus _); [simpl; lia|]);
    (destruct (beginAttempt i (tasks st i) w) as [[|e] w2]; [|simpl; lia]);
    (destruct (w_state w2); [|destruct (setState _ w2); simpl; lia]);
    (destruct (newURL _); [|destruct (setState _ w2); simpl; lia]).
  - simpl. lia.
  - destruct (tryBlock i o w2) as [[|e] w3]; [simpl; lia|].
    destruct (catchBlock i e w3) as [r w4|w4]; [simpl; lia|].
    specialize (IH w4). simpl. lia.
Qed.

Lemma run_loop_length (intervals : list Interval) (script : list FetchOutcome)
    (w : World) :
  (length (snd (fst (run_loop intervals script w))) <= length script)%nat.
Proof.
  revert script w. induction intervals as [|i more IH]; intros script w;
    cbn [run_loop]; [simpl; lia|].
  destruct (w_state w) as [st|]; [|simpl; lia].
  destruct (decide _); [apply IH|].
  destruct (decide _); [apply IH|].
  pose proof (executeInterval_length i script w) as He.
  destruct (executeInterval i script w) as [[[[|e]|] script'] w'];
    simpl in He; [|simpl; lia|simpl; lia].
  specialize (IH script' w'). lia.
Qed.

End Resume.

(** *** A terminal series is left as it is *)

Section Skipping.
Context `{Host}.

Lemma seriesKept_refl (i : Interval) (w : World) : seriesKept i w w.
Proof. intros st Hst. eauto. Qed.

Lemma seriesKept_trans (i : Interval) (w1 w2 w3 : World) :
  seriesKept i w1 w2 -> seriesKept i w2 w3 -> seriesKept i w1 w3.
Proof.
  intros H12 H23 st3 Hst3.
  destruct (H23 st3 Hst3) as [st2 [Hst2 [Et Ed]]].
  destruct (H12 st2 Hst2) as [st1 [Hst1 [Et' Ed']]].
  exists st1. split; [exact Hst1|]. split; congruence.
Qed.

Lemma seriesKept_same_state (i : Interval) (w w' : World) :
  w_state w' = w_state w \/ w_state w' = None -> seriesKept i w w'.
Proof.
  intros [E|E] st Hst; rewrite E in Hst; [eauto|discriminate].
Qed.

Lemma setState_kept (i : Interval) (mutator : Z -> JobState -> JobState)
    (w : World) :
  (forall now prev, tasks (mutator now prev) i = tasks prev i /\
                    data (mutator now prev) i = data prev i) ->
  seriesKept i w (snd (setState mutator w)).
Proof.
  intros Hm st'. rewrite setState_state.
  destruct (w_state w) as [prev|]; [|discriminate].
  intros [= <-]. exists prev. split; [reflexivity|]. apply Hm.
Qed.

Lemma delay_kept (i : Interval) (ms : Z) (w : World) :
  seriesKept i w (snd (delay ms w)).
Proof. apply seriesKept_same_state, delay_state. Qed.

(** The mutators of series [j] leave every other series alone. *)
Lemma toRunning_other (i j : Interval) (now : Z) (prev : JobState) :
  i <> j ->
  tasks (toRunning j now prev) i = tasks prev i /\
  data (toRunning j now prev) i = data prev i.
Proof. intros Hne. simpl. rewrite fn_lookup_insert_ne by done. auto. Qed.

Lemma toDone_other (i j : Interval) (candles : list CandleRow) (now : Z)
    (prev : JobState) :
  i <> j ->
  tasks (toDone j candles now prev) i = tasks prev i /\
  data (toDone j candles now prev) i = data prev i.
Proof. intros Hne. simpl. rewrite !fn_lookup_insert_ne by done. auto. Qed.

Lemma toError_other (i j : Interval) (msg : string) (now : Z) (prev : JobState) :
  i <> j ->
  tasks (toError j msg now prev) i = tasks prev i /\
  data (toError j msg now prev) i = data prev i.
Proof. intros Hne. simpl. rewrite fn_lookup_insert_ne by done. auto. Qed.

Lemma toRetrying_other (i j : Interval) (attempts at_ waitSec : Z)
    (msg : string) (now : Z) (prev : JobState) :
  i <> j ->
  tasks (toRetrying j attempts at_ waitSec msg now prev) i = tasks prev i /\
  data (toRetrying j attempts at_ waitSec msg now prev) i = data prev i.
Proof. intros Hne. simpl. rewrite fn_lookup_insert_ne by done. auto. Qed.

Lemma beginAttempt_kept (i j : Interval) (task : IntervalTaskState) (w : World) :
  i <> j -> seriesKept i w (snd (beginAttempt j task w)).
Proof.
  intros Hne. unfold beginAttempt.
  eapply seriesKept_trans; [|apply setState_kept; intros; apply toRunning_other, Hne].
  destruct (mustWait task (w_now w)); [apply delay_kept|apply seriesKept_refl].
Qed.

Lemma tryBlock_kept (i j : Interval) (o : FetchOutcome) (w : World) :
  i <> j -> seriesKept i w (snd (tryBlock j o w)).
Proof.
  intros Hne. unfold tryBlock, onIntervalSuccess.
  destruct (fetchKlines_request (w_now w) o); [|apply seriesKept_refl].
  apply setState_kept. intros. apply toDone_other, Hne.
Qed.

Lemma catchBlock_kept (i j : Interval) (e : Exn) (w : World) :
  i <> j ->
  match catchBlock j e w with
  | Ends _ w' => seriesKept i w w'
  | Continues w' => seriesKept i w w'
  end.
Proof.
  intros Hne. unfold catchBlock.
  destruct (isRetryable e) as [err|].
  - destruct (w_state w) as [st|] eqn:Est; [|apply seriesKept_refl].
    destruct (computeRetryDelayMs _ _ _) as [waitMs draws].
    unfold onIntervalRetry.
    match goal with
    | |- context [setState ?m ?w0] =>
      assert (Hs : seriesKept i w (snd (setState m w0)));
        [|destruct (setState m w0) as [[|e'] w']; simpl in Hs]
    end.
    + eapply seriesKept_trans;
        [|apply setState_kept; intros; apply toRetrying_other, Hne].
      apply seriesKept_same_state. left. reflexivity.
    + eapply seriesKept_trans; [exact Hs|apply delay_kept].
    + exact Hs.
  - match goal with
    | |- context [setState ?m ?w0] =>
      assert (Hs : seriesKept i w (snd (setState m w0)));
        [|destruct (setState m w0) as [r w']; exact Hs]
    end.
    apply setState_kept. intros. apply toError_other, Hne.
Qed.

Lemma executeInterval_kept (i j : Interval) (script : list FetchOutcome) (w : World) :
  i <> j -> seriesKept i w (snd (executeInterval j script w)).
Proof.
  intros Hne. revert w. induction script as [|o rest IH]; intros w;
    cbn [executeInterval];
    (destruct (w_state w) as [st|] eqn:Est; [|apply seriesKept_refl]);
    (destruct (isFinishedStatus _); [apply seriesKept_refl|]);
    pose proof (beginAttempt_kept i j (tasks st j) w Hne) as H2;
    (destruct (beginAttempt j (tasks st j) w) as [[|e] w2]; simpl in H2;
       [|exact H2]);
    (destruct (w_state w2) as [st2|] eqn:E2;
       [|match goal with
         | |- context [setState ?m ?w0] =>
           assert (Hs : seriesKept i w2 (snd (setState m w0)));
             [apply setState_kept; intros; apply toError_other, Hne
             |destruct (setState m w0) as [r w3];
              eapply seriesKept_trans; [exact H2|exact Hs]]
         end]);
    (destruct (newURL _) as [[]|e0];
       [|match goal with
         | |- context [setState ?m ?w0] =>
           assert (Hs : seriesKept i w2 (snd (setState m w0)));
             [apply setState_kept; intros; apply toError_other, Hne
             |destruct (setState m w0) as [r w3];
              eapply seriesKept_trans; [exact H2|exact Hs]]
         end]).
  - exact H2.
  - pose proof (tryBlock_kept i j o w2 Hne) as H3.
    destruct (tryBlock j o w2) as [[|e] w3]; simpl in H3;
      [eapply seriesKept_trans; eassumption|].
    pose proof (catchBlock_kept i j e w3 Hne) as H4.
    destruct (catchBlock j e w3) as [r w4|w4].
    + eapply seriesKept_trans; [exact H2|].
      eapply seriesKept_trans; eassumption.
    + eapply seriesKept_trans; [exact H2|].
      eapply seriesKept_trans; [exact H3|].
      eapply seriesKept_trans; [exact H4|apply IH].
Qed.




End Skipping.



(** ** Clearing *)

Section Clearing.
Context `{Host}.


Lemma storage_get_tier (w : World) :
  (primaryFails w /\
   (fst (storage_get w) = Ok (w_local w) \/ exists e, fst (storage_get w) = Throw e)) \/
  (~ primaryFails w /\ fst (storage_get w) = Ok (w_idb w)).
Proof.
  unfold primaryFails.
  storage_cases w;
    first [ left; split; [solve [eauto]|solve [eauto]]
          | right; split; [|reflexivity];
            intros [E|[f [r E]]]; discriminate E ].
Qed.







End Clearing.


(** * Further properties *)

(** ** Symbols ([isValidSymbol], [validateSymbolOnExchange]) *)

Section SymbolProperties.

Lemma matchClassRepeat_spec (cls : ascii -> bool) (s : string) :
  forall lo hi,
    matchClassRepeat cls lo hi s = true <->
    (lo <= String.length s <= hi)%nat /\
    Forall (fun c => cls c = true) (list_ascii_of_string s).
Proof.
  induction s as [|c rest IH]; intros lo hi; cbn [matchClassRepeat].
  - rewrite bool_decide_eq_true. simpl. split.
    + intros ->. split; [lia|apply Forall_nil; exact I].
    + intros [Hl _]. lia.
  - destruct hi as [|hi'].
    + split; [discriminate|]. simpl. intros [Hl _]. lia.
    + rewrite andb_true_iff, IH. simpl. rewrite Forall_cons. split.
      * intros [Hc [Hl Hall]]. repeat split; [lia|lia|exact Hc|exact Hall].
      * intros [Hl [Hc Hall]]. repeat split; [exact Hc|lia|lia|exact Hall].
Qed.

(** X1: a symbol passes the format check exactly when it has between 4 and 20
    characters, each an upper-case letter or a digit; nothing may follow,
    not even a line break. *)
Theorem isValidSymbol_spec (symbol : string) :
  isValidSymbol symbol = true <->
  (4 <= String.length symbol <= 20)%nat /\
  Forall (fun c => isUpperAlnum c = true) (list_ascii_of_string symbol).
Proof. apply matchClassRepeat_spec. Qed.

Lemma isValidSymbol_spec_witness :
  isValidSymbol "BTCUSDT" = true /\ isValidSymbol "btcusdt" = false /\
  isValidSymbol "BTC" = false /\ isValidSymbol "BTC-USDT" = false.
Proof.
  split; [|repeat split; vm_compute; reflexivity].
  apply isValidSymbol_spec. split; [simpl; lia|].
  repeat constructor.
Defined.

Lemma findListed_spec (symbol : string) (items : list Json) (listed : Json) :
  findListed symbol items = Ok (Some listed) <->
  exists before after,
    items = before ++ listed :: after /\
    Forall (fun x => hasSymbol symbol x = Ok false) before /\
    hasSymbol symbol listed = Ok true.
Proof.
  induction items as [|x rest IH]; cbn [findListed].
  - split; [discriminate|]. intros [before [after [E _]]].
    destruct before; discriminate E.
  - destruct (hasSymbol symbol x) as [[|]|e] eqn:Ex.
    + split.
      * intros [= <-]. exists [], rest. split; [reflexivity|]. split; [constructor|exact Ex].
      * intros [before [after [E [Hb Hl]]]].
        destruct before as [|b before]; simpl in E; injection E as <- E.
        -- reflexivity.
        -- apply Forall_cons in Hb as [Hb _]. congruence.
    + rewrite IH. split.
      * intros [before [after [-> [Hb Hl]]]].
        exists (x :: before), after. split; [reflexivity|].
        split; [constructor; assumption|exact Hl].
      * intros [before [after [E [Hb Hl]]]].
        destruct before as [|b before]; simpl in E; injection E as <- E.
        -- congruence.
        -- apply Forall_cons in Hb as [_ Hb]. eauto.
    + split; [discriminate|].
      intros [before [after [E [Hb Hl]]]].
      destruct before as [|b before]; simpl in E; injection E as <- E.
      * congruence.
      * apply Forall_cons in Hb as [Hb _]. congruence.
Qed.

(** What the [try] block of [validateSymbolOnExchange] makes of the
    outcome of its request. *)
Lemma validateSymbolOnExchange_request_true (symbol : string) (o : FetchOutcome) :
  validateSymbolOnExchange_request symbol o = true <->
  exists r fields before listed after,
    o = Responded r /\ ok r = true /\
    resp_json r = JsonValue (JObj fields) /\
    field "symbols" fields = Some (JArr (before ++ listed :: after)) /\
    Forall (fun x => hasSymbol symbol x = Ok false) before /\
    hasSymbol symbol listed = Ok true /\
    prop "status" listed = Ok (Some (JStr "TRADING")).
Proof.
  split.
  - unfold validateSymbolOnExchange_request.
    destruct o as [r| |]; try discriminate.
    destruct (ok r) eqn:Hok; [|discriminate].
    destruct (resp_json r) as [payload| |] eqn:Hjson; try discriminate.
    unfold listedAndTrading.
    destruct payload as [| | | |items|fields]; simpl; try discriminate.
    destruct (field "symbols" fields) as [[| | | |items|]|] eqn:Hf;
      try discriminate.
    destruct (findListed symbol items) as [[listed|]|e] eqn:Hfind;
      try discriminate.
    apply findListed_spec in Hfind as [before [after [-> [Hb Hl]]]].
    destruct (prop "status" listed) as [[[| | |s| |]|]|e] eqn:Hst;
      try discriminate.
    intros Ht. apply bool_decide_eq_true in Ht as ->.
    exists r, fields, before, listed, after. auto 10.
  - intros [r [fields [before [listed [after [-> [Hok [Hj [Hf [Hb [Hl Hst]]]]]]]]]]].
    unfold validateSymbolOnExchange_request, listedAndTrading.
    rewrite Hok, Hj. simpl. rewrite Hf.
    assert (Hfind : findListed symbol (before ++ listed :: after) = Ok (Some listed)).
    { apply findListed_spec. eauto. }
    rewrite Hfind, Hst. reflexivity.
Qed.


(** X2: [validateSymbolOnExchange] rejects exactly when [new URL] refuses
    the address built from the base address, with the [TypeError] of
    [new URL] and before any request; otherwise it resolves, whatever the
    outcome of the request, and it resolves to [true] exactly when the
    response is 2xx, its body is an object whose [symbols] is an array,
    and the first entry of that array whose [symbol] is the requested one
    has the status ["TRADING"], no [null] entry standing before it.  A
    later entry for the same symbol is not looked at. *)
Theorem validateSymbolOnExchange_true `{Host} (symbol : string)
    (proxyBaseUrl : option string) (o : FetchOutcome) :
  (forall msg,
     URL_error (exchangeInfoAddress proxyBaseUrl) = Some msg <->
     validateSymbolOnExchange symbol proxyBaseUrl o = Throw (OtherError msg)) /\
  (URL_error (exchangeInfoAddress proxyBaseUrl) = None <->
   exists b, validateSymbolOnExchange symbol proxyBaseUrl o = Ok b) /\
  (validateSymbolOnExchange symbol proxyBaseUrl o = Ok true <->
   URL_error (exchangeInfoAddress proxyBaseUrl) = None /\
   exists r fields before listed after,
     o = Responded r /\ ok r = true /\
     resp_json r = JsonValue (JObj fields) /\
     field "symbols" fields = Some (JArr (before ++ listed :: after)) /\
     Forall (fun x => hasSymbol symbol x = Ok false) before /\
     hasSymbol symbol listed = Ok true /\
     prop "status" listed = Ok (Some (JStr "TRADING"))).
Proof.
  unfold validateSymbolOnExchange, newURL.
  destruct (URL_error (exchangeInfoAddress proxyBaseUrl)) as [m|].
  - split; [|split].
    + intros msg. split; intros [= <-]; reflexivity.
    + split; [discriminate|]. intros [b Hb]. discriminate Hb.
    + split; [discriminate|]. intros [E _]. discriminate E.
  - split; [|split].
    + intros msg. split; discriminate.
    + split; [eauto|reflexivity].
    + rewrite <- validateSymbolOnExchange_request_true. split.
      * intros [= E]. auto.
      * intros [_ E]. rewrite E. reflexivity.
Qed.

End SymbolProperties.

Lemma validateSymbolOnExchange_true_witness :
  let entry := fun sym st => JObj [("symbol", JStr sym); ("status", JStr st)] in
  let body := fun entries =>
    Responded {| resp_status := 200; resp_headers := Scenario.noHeaders;
                 resp_text := None;
                 resp_json := JsonValue (JObj [("symbols", JArr entries)]) |} in
  validateSymbolOnExchange (H := Scenario.browser) "BTCUSDT" None
    (body [entry "ETHUSDT" "TRADING"; entry "BTCUSDT" "TRADING"]) = Ok true /\
  validateSymbolOnExchange (H := Scenario.browser) "BTCUSDT" None
    (body [entry "BTCUSDT" "BREAK"; entry "BTCUSDT" "TRADING"]) = Ok false /\
  validateSymbolOnExchange (H := Scenario.browser) "BTCUSDT" (Some "proxy")
    (body [entry "BTCUSDT" "TRADING"]) = Throw (OtherError "Invalid URL").
Proof.
  intros entry body. split; [|split].
  - apply (validateSymbolOnExchange_true (H := Scenario.browser)).
    split; [reflexivity|].
    eexists _, _, [entry "ETHUSDT" "TRADING"], (entry "BTCUSDT" "TRADING"), [].
    repeat split; try reflexivity.
    repeat constructor.
  - vm_compute. reflexivity.
  - apply (validateSymbolOnExchange_true (H := Scenario.browser)). reflexivity.
Defined.

(** ** More on the fetcher ([toCandleRow], [fetchKlines_request], [parseRetryAfterMs]) *)

Section FetcherProperties.
Context `{Host}.

Lemma toISOString_ok (ms : jsnum) (iso : string) :
  toISOString ms = Ok iso <->
  exists z, ms = Fin z /\ Z.abs z <= 8640000000000000 /\ iso = isoOfMs z.
Proof.
  unfold toISOString. destruct ms as [| | |z].
  1-3: split; [discriminate|intros [z [E _]]; discriminate E].
  destruct (decide (Z.abs z <= 8640000000000000)) as [Hz|Hz].
  - split.
    + intros [= <-]. eauto.
    + intros [z' [[= <-] [_ ->]]]. reflexivity.
  - split; [discriminate|]. intros [z' [[= <-] [Hz' _]]]. contradiction.
Qed.

(** X3: a tuple decodes exactly when it is an array of at least seven elements
    whose first and seventh elements convert to time values in the range
    of dates; the record then has those two times, the five values in
    between as strings, and each of the four optional fields exactly when
    its element is there and is not [null].  Elements past the eleventh
    are ignored. *)
Theorem toCandleRow_ok (raw : Json) (row : CandleRow) :
  toCandleRow raw = Ok row <->
  exists items openMs closeMs,
    raw = JArr items /\ (7 <= length items)%nat /\
    required NumberOf NaN (items !! 0%nat) = Fin openMs /\
    required NumberOf NaN (items !! 6%nat) = Fin closeMs /\
    Z.abs openMs <= 8640000000000000 /\ Z.abs closeMs <= 8640000000000000 /\
    row = {| openTimeISO := isoOfMs openMs; openTimeMs := Fin openMs;
             open := required StringOf "undefined" (items !! 1%nat);
             high := required StringOf "undefined" (items !! 2%nat);
             low := required StringOf "undefined" (items !! 3%nat);
             close := required StringOf "undefined" (items !! 4%nat);
             volume := required StringOf "undefined" (items !! 5%nat);
             closeTimeISO := isoOfMs closeMs; closeTimeMs := Fin closeMs;
             quoteVolume := optional StringOf (items !! 7%nat);
             numTrades := optional NumberOf (items !! 8%nat);
             takerBuyBaseVol := optional StringOf (items !! 9%nat);
             takerBuyQuoteVol := optional StringOf (items !! 10%nat) |}.
Proof.
  split.
  - destruct raw as [| | | |items|]; simpl; try discriminate.
    destruct (decide (length items < 7)%nat) as [|Hlen]; [discriminate|].
    unfold item.
    destruct (toISOString (required NumberOf NaN (items !! 0%nat)))
      as [openISO|] eqn:Eo; [|discriminate].
    destruct (toISOString (required NumberOf NaN (items !! 6%nat)))
      as [closeISO|] eqn:Ec; [|discriminate].
    apply toISOString_ok in Eo as [openMs [Eo [Ho ->]]].
    apply toISOString_ok in Ec as [closeMs [Ec [Hc ->]]].
    intros [= <-]. exists items, openMs, closeMs.
    rewrite Eo, Ec. repeat split; try assumption; lia.
  - intros [items [openMs [closeMs [-> [Hlen [Eo [Ec [Ho [Hc ->]]]]]]]]].
    simpl. destruct (decide (length items < 7)%nat); [lia|].
    unfold item. rewrite Eo, Ec. simpl.
    destruct (decide (Z.abs openMs <= 8640000000000000)); [|contradiction].
    destruct (decide (Z.abs closeMs <= 8640000000000000)); [|contradiction].
    reflexivity.
Qed.

Lemma mapCandles_ok (items : list Json) (rows : list CandleRow) :
  mapCandles items = Ok rows <->
  Forall2 (fun x row => toCandleRow x = Ok row) items rows.
Proof.
  revert rows. induction items as [|x rest IH]; intros rows; simpl.
  - split.
    + intros [= <-]. constructor.
    + intros Hf. inversion Hf. reflexivity.
  - destruct (toCandleRow x) as [row|e] eqn:Ex.
    + destruct (mapCandles rest) as [rs|e] eqn:Er.
      * split.
        -- intros [= <-]. constructor; [exact Ex|]. apply IH. reflexivity.
        -- intros Hf. inversion Hf as [|? row' ? rs' Hx Hrest]; subst.
           apply IH in Hrest. congruence.
      * split; [discriminate|].
        intros Hf. inversion Hf as [|? row' ? rs' Hx Hrest]; subst.
        apply IH in Hrest. discriminate Hrest.
    + split; [discriminate|].
      intros Hf. inversion Hf as [|? row' ? rs' Hx Hrest]; subst. congruence.
Qed.

(** X4: the request of [fetchKlines] returns a batch exactly when the
    response is 2xx and its body is an array all of whose tuples decode;
    the batch then has one record for each tuple, in the order of the
    body.  [fetchKlines] returns that batch exactly when, besides,
    [new URL] has accepted the address. *)
Theorem fetchKlines_ok (proxyBaseUrl : option string) (now : Z)
    (o : FetchOutcome) (rows : list CandleRow) :
  (fetchKlines_request now o = Ok rows <->
   exists r items,
     o = Responded r /\ ok r = true /\
     resp_json r = JsonValue (JArr items) /\
     Forall2 (fun x row => toCandleRow x = Ok row) items rows) /\
  (fetchKlines proxyBaseUrl now o = Ok rows <->
   URL_error (klinesAddress proxyBaseUrl) = None /\
   fetchKlines_request now o = Ok rows).
Proof.
  split; cycle 1.
  { unfold fetchKlines, newURL.
    destruct (URL_error (klinesAddress proxyBaseUrl)); split.
    - discriminate.
    - intros [E _]. discriminate E.
    - auto.
    - intros [_ E]. exact E. }
  unfold fetchKlines_request, fetchKlines_try. split.
  - destruct o as [r| |[msg|]]; try discriminate.
    destruct (ok r) eqn:Hok; [|discriminate].
    destruct (resp_json r) as [[| | | |items|]| |] eqn:Hj; try discriminate.
    destruct (mapCandles items) as [rs|e] eqn:Hm; [|discriminate].
    intros [= <-]. exists r, items. repeat split; try assumption.
    apply mapCandles_ok, Hm.
  - intros [r [items [-> [Hok [Hj Hf]]]]]. rewrite Hok, Hj.
    apply mapCandles_ok in Hf. rewrite Hf. reflexivity.
Qed.

(** What the request part of [fetchKlines] throws. *)
Lemma fetchKlines_request_failure (now : Z) (o : FetchOutcome) (e : Exn) :
  fetchKlines_request now o = Throw e ->
  exists a,
    e = ApiError a /\
    ((exists r, o = Responded r /\ ok r = false /\
                err_status a = Some (resp_status r) /\
                retryAfterMs a = parseRetryAfterMs now (resp_headers r) /\
                (retryable a = false <->
                 resp_status r <> 418 /\ resp_status r <> 429 /\ resp_status r < 500)) \/
     (retryable a = true /\ err_status a = None /\ retryAfterMs a = None)).
Proof.
  unfold fetchKlines_request, fetchKlines_try.
  destruct o as [r| |[msg|]].
  - destruct (ok r) eqn:Hok.
    + destruct (resp_json r) as [[| | | |items|]| |];
        try (intros [= <-]; eexists; split; [reflexivity|right; auto]).
      destruct (mapCandles items) as [rs|e0] eqn:Hm; [discriminate|].
      intros [= <-].
      destruct (mapCandles_throws _ _ Hm) as [-> | ->];
        eexists; (split; [reflexivity|right; auto]).
    + intros [= <-]. eexists. split; [reflexivity|]. left.
      exists r. split; [reflexivity|]. split; [exact Hok|].
      do 2 (split; [reflexivity|]). simpl. split.
      * intros Hr. apply orb_false_iff in Hr as [Hr H500].
        apply orb_false_iff in Hr as [H418 H429].
        apply bool_decide_eq_false in H418, H429, H500. lia.
      * intros [H418 [H429 H500]].
        rewrite !bool_decide_eq_false_2 by lia. reflexivity.
  - intros [= <-]. eexists. split; [reflexivity|right; auto].
  - intros [= <-]. eexists. split; [reflexivity|right; auto].
  - intros [= <-]. eexists. split; [reflexivity|right; auto].
Qed.

(** X5: what [fetchKlines] throws.  When [new URL] refuses the address
    built from the base address, and only then, it is the [TypeError] of
    [new URL], thrown before any request and not retryable for the
    runner.  Otherwise it is a [BinanceApiError]: a status and a retry
    hint are carried only by the failure of a response outside 2xx, and an
    error that is not retryable always is such a failure, with a status
    that is neither 418 nor 429 nor 500 or more. *)
Theorem fetchKlines_failure (proxyBaseUrl : option string) (now : Z)
    (o : FetchOutcome) (e : Exn) :
  fetchKlines proxyBaseUrl now o = Throw e ->
  (exists msg,
     URL_error (klinesAddress proxyBaseUrl) = Some msg /\
     e = OtherError msg /\ isRetryable e = None) \/
  (URL_error (klinesAddress proxyBaseUrl) = None /\
   exists a,
     e = ApiError a /\
     ((exists r, o = Responded r /\ ok r = false /\
                 err_status a = Some (resp_status r) /\
                 retryAfterMs a = parseRetryAfterMs now (resp_headers r) /\
                 (retryable a = false <->
                  resp_status r <> 418 /\ resp_status r <> 429 /\
                  resp_status r < 500)) \/
      (retryable a = true /\ err_status a = None /\ retryAfterMs a = None))).
Proof.
  unfold fetchKlines, newURL.
  destruct (URL_error (klinesAddress proxyBaseUrl)) as [msg|].
  - intros [= <-]. left. exists msg. auto.
  - intros He. right. split; [reflexivity|].
    apply (fetchKlines_request_failure now o e He).
Qed.

End FetcherProperties.

Lemma fetchKlines_failure_witness :
  (exists a,
     fetchKlines (H := Scenario.browser) None 0 TimedOut = Throw (ApiError a) /\
     retryable a = true /\ err_status a = None /\ retryAfterMs a = None) /\
  fetchKlines (H := Scenario.browser) (Some "proxy") 0 TimedOut
  = Throw (OtherError "Invalid URL").
Proof.
  split.
  - destruct (fetchKlines_failure (H := Scenario.browser) None 0 TimedOut
                (ApiError (retryableError "Request timeout")) eq_refl)
      as [[msg [Hm _]]|[_ [a [[= <-] [[r [Hr _]]|Hplain]]]]].
    + discriminate Hm.
    + discriminate Hr.
    + eexists. split; [reflexivity|exact Hplain].
  - destruct (fetchKlines_failure (H := Scenario.browser) (Some "proxy") 0 TimedOut
                (OtherError "Invalid URL") eq_refl)
      as [[msg [_ [[= <-] _]]]|[Hm _]].
    + reflexivity.
    + discriminate Hm.
Defined.

(** ** More on the backoff policy *)

Section BackoffSchedule.

Lemma computeRetryDelayMs_draws (attempts : Z) (hint : option Z) (draws : list Z) :
  snd (computeRetryDelayMs attempts hint draws) =
  match hint with
  | Some h => if decide (h > 0) then draws else tail draws
  | None => tail draws
  end.
Proof.
  unfold computeRetryDelayMs.
  destruct hint as [h|]; [destruct (decide (h > 0)); [reflexivity|]|];
    destruct draws; reflexivity.
Qed.

(** X6: without a positive hint the wait doubles from 1000 ms at attempt 0,
    with up to 999 ms of jitter on top, until attempt 5; from attempt 6 on
    it is exactly 60000 ms, whatever the jitter.  One random draw is
    consumed; a positive hint consumes none. *)
Theorem computeRetryDelayMs_schedule (attempts : Z) (hint : option Z)
    (draws : list Z) :
  0 <= attempts ->
  (forall h, hint = Some h -> h <= 0) ->
  (attempts <= 5 ->
   1000 * 2 ^ attempts <= fst (computeRetryDelayMs attempts hint draws)
     <= 1000 * 2 ^ attempts + 999) /\
  (6 <= attempts -> fst (computeRetryDelayMs attempts hint draws) = 60000) /\
  snd (computeRetryDelayMs attempts hint draws) = tail draws /\
  (forall h, 0 < h ->
     snd (computeRetryDelayMs attempts (Some h) draws) = draws).
Proof.
  intros Ha Hh. rewrite computeRetryDelayMs_no_hint by exact Hh.
  pose proof (jitterOf_range _ (Math_random_range draws)) as Hj.
  pose proof (exponential_table attempts Ha) as Ht. simpl in Ht.
  unfold MAX_BACKOFF_MS in *.
  split; [|split; [|split]].
  - intros H5.
    destruct Ht as [[-> E]|[[-> E]|[[-> E]|[[-> E]|[[-> E]|[[-> E]|[H6 _]]]]]]];
      try lia; rewrite E;
      change (2 ^ 0) with 1; change (2 ^ 1) with 2; change (2 ^ 2) with 4;
      change (2 ^ 3) with 8; change (2 ^ 4) with 16; change (2 ^ 5) with 32;
      lia.
  - intros H6. lia.
  - rewrite computeRetryDelayMs_draws.
    destruct hint as [h|]; [|reflexivity].
    specialize (Hh h eq_refl). destruct (decide (h > 0)); [lia|reflexivity].
  - intros h Hpos. rewrite computeRetryDelayMs_draws.
    destruct (decide (h > 0)); [reflexivity|lia].
Qed.

End BackoffSchedule.

Lemma computeRetryDelayMs_schedule_witness :
  1000 * 2 ^ 3 <= fst (computeRetryDelayMs 3 (Some 0) [5; 6]) <= 1000 * 2 ^ 3 + 999 /\
  snd (computeRetryDelayMs 3 (Some 0) [5; 6]) = [6].
Proof.
  destruct (computeRetryDelayMs_schedule 3 (Some 0) [5; 6])
    as [Hlow [_ [Hdraws _]]]; [lia|intros h [= <-]; lia|].
  split; [apply Hlow; lia|exact Hdraws].
Defined.

Section HintedWait.
Context `{Host}.

(** X7: the wait after the failure of a response that carries a numeric
    retry-hint header: a value of 1 to 60 is waited in full as seconds; a
    value of 61 to 1000 is cut to 60000 ms; a value above 1000 is waited
    as that many milliseconds, up to 60000, so that 1001 gives a wait of
    about a second where 1000 gives a minute; and a value of zero or less
    is not taken as a hint: the wait is then the exponential one, at least
    1000 ms, so that a hint of zero never gives an immediate retry. *)
Theorem hinted_wait (now attempts n : Z) (r : Response) (v : string)
    (draws : list Z) :
  ok r = false ->
  retryHeader (resp_headers r) = Some v -> v <> "" ->
  NumberOfString v = Fin n ->
  0 <= attempts ->
  let wait :=
    fst (computeRetryDelayMs attempts (retryAfterMs (httpError now r)) draws) in
  (1 <= n <= 60 -> wait = n * 1000) /\
  (61 <= n <= 1000 -> wait = 60000) /\
  (1000 < n -> wait = Z.min n 60000) /\
  (n <= 0 -> 1000 <= wait <= 60000).
Proof.
  intros Hok Hv Hne Hn Ha wait. subst wait.
  unfold httpError. cbn [retryAfterMs].
  unfold parseRetryAfterMs. rewrite Hv.
  destruct (decide (v = "")) as [|_]; [contradiction|].
  rewrite Hn. cbn [isFinite].
  split; [|split; [|split]]; intros Hrange.
  - destruct (decide (n > 1000)); [lia|].
    rewrite computeRetryDelayMs_hint by lia. unfold MAX_BACKOFF_MS.
    cbn [fst]. lia.
  - destruct (decide (n > 1000)); [lia|].
    rewrite computeRetryDelayMs_hint by lia. unfold MAX_BACKOFF_MS.
    cbn [fst]. lia.
  - destruct (decide (n > 1000)); [|lia].
    rewrite computeRetryDelayMs_hint by lia. reflexivity.
  - destruct (decide (n > 1000)); [lia|].
    rewrite computeRetryDelayMs_no_hint by (intros h [= <-]; lia).
    pose proof (jitterOf_range _ (Math_random_range draws)) as Hj.
    pose proof (exponential_table attempts Ha) as Ht. simpl in Ht.
    unfold MAX_BACKOFF_MS in *. lia.
Qed.

End HintedWait.

Lemma hinted_wait_witness :
  fst (computeRetryDelayMs 1
         (retryAfterMs
            (httpError (H := Scenario.browser) 0
               {| resp_status := 429;
                  resp_headers := Scenario.headersOf "retry-after" "120";
                  resp_text := Some "slow";
                  resp_json := JsonSyntaxError "Unexpected token" |})) [])
  = 60000.
Proof.
  apply (hinted_wait (H := Scenario.browser) 0 1 120
           {| resp_status := 429;
              resp_headers := Scenario.headersOf "retry-after" "120";
              resp_text := Some "slow";
              resp_json := JsonSyntaxError "Unexpected token" |} "120" []);
    try reflexivity; try discriminate; lia.
Defined.

(** ** More on the durable store *)

Section StoreProperties.
Context `{Host}.

Lemma storage_set_tier (v : JobState) (w : World) :
  fst (storage_set v w) = Ok tt ->
  (primaryFails w /\ w_local (snd (storage_set v w)) = Some v) \/
  (~ primaryFails w /\ w_idb (snd (storage_set v w)) = Some v).
Proof.
  unfold primaryFails.
  storage_cases w; intros Hok; try discriminate Hok;
    first [ left; split; [solve [eauto]|reflexivity]
          | right; split; [|reflexivity];
            intros [E|[f [r E]]]; discriminate E ].
Qed.

(** X8: round trip through the store: once [set] has resolved, a [get] that
    finds the tiers as the [set] left them and is answered by the tier
    that took the write returns the snapshot that was written, or raises;
    it never returns another snapshot or none. *)
Theorem storage_set_get (v : JobState) (w later : World) :
  fst (storage_set v w) = Ok tt ->
  w_idb later = w_idb (snd (storage_set v w)) ->
  w_local later = w_local (snd (storage_set v w)) ->
  (primaryFails w <-> primaryFails later) ->
  fst (storage_get later) = Ok (Some v) \/
  exists e, fst (storage_get later) = Throw e.
Proof.
  intros Hok Ei El Hsame.
  destruct (storage_get_tier later) as [[Hp Hget]|[Hp Hget]];
    destruct (storage_set_tier v w Hok) as [[Hp0 Hv]|[Hp0 Hv]].
  - destruct Hget as [Hget|Hget]; [|right; exact Hget].
    left. rewrite Hget, El, Hv. reflexivity.
  - exfalso. apply Hp0, Hsame, Hp.
  - exfalso. apply Hp, Hsame, Hp0.
  - left. rewrite Hget, Ei, Hv. reflexivity.
Qed.

(** X9: each operation of the store is served by one tier: while the primary
    tier answers, the fallback tier is neither read nor written and its
    failures are not met; when the primary tier fails, what it holds
    stays. *)
Theorem storage_one_tier (v : JobState) (w : World) :
  (~ primaryFails w ->
   (fst (storage_set v w) = Ok tt /\
    w_local (snd (storage_set v w)) = w_local w /\
    w_local_faults (snd (storage_set v w)) = w_local_faults w) /\
   (fst (storage_clear w) = Ok tt /\
    w_local (snd (storage_clear w)) = w_local w /\
    w_local_faults (snd (storage_clear w)) = w_local_faults w) /\
   (fst (storage_get w) = Ok (w_idb w) /\
    w_local_faults (snd (storage_get w)) = w_local_faults w)) /\
  (primaryFails w ->
   w_idb (snd (storage_set v w)) = w_idb w /\
   w_idb (snd (storage_clear w)) = w_idb w /\
   w_idb (snd (storage_get w)) = w_idb w).
Proof.
  unfold primaryFails. split.
  - intros Hp.
    storage_cases w;
      try (exfalso; apply Hp; solve [eauto]);
      repeat split; try reflexivity; try assumption; symmetry; assumption.
  - intros Hp. storage_cases w; repeat split;
      try reflexivity; exfalso; destruct Hp as [E|[f [r E]]]; discriminate E.
Qed.

End StoreProperties.

Lemma storage_set_get_witness :
  fst (storage_get (H := Scenario.browser)
         (Scenario.reload
            (snd (storage_set (H := Scenario.browser) Sample.job
                    (Scenario.fresh [Scenario.broken] [] [] [])))
            [Scenario.broken] []))
  = Ok (Some Sample.job).
Proof.
  destruct (storage_set_get (H := Scenario.browser) Sample.job
              (Scenario.fresh [Scenario.broken] [] [] [])
              (Scenario.reload
                 (snd (storage_set (H := Scenario.browser) Sample.job
                         (Scenario.fresh [Scenario.broken] [] [] [])))
                 [Scenario.broken] [])) as [Hget|[e He]].
  - reflexivity.
  - reflexivity.
  - reflexivity.
  - split; intros _; right; do 2 eexists; reflexivity.
  - exact Hget.
  - discriminate He.
Defined.

(** ** Turns of the per-series procedure *)

Section Procedure.
Context `{Host}.

(** What [fetchKlines_request] does depends on the clock only through the retry
    hint of the error. *)
Lemma fetchKlines_clock (now now' : Z) (o : FetchOutcome) :
  match fetchKlines_request now o with
  | Ok rows => fetchKlines_request now' o = Ok rows
  | Throw e =>
    exists a a', e = ApiError a /\ fetchKlines_request now' o = Throw (ApiError a') /\
      retryable a' = retryable a /\ message a' = message a
  end.
Proof.
  unfold fetchKlines_request, fetchKlines_try.
  destruct o as [r| |[msg|]]; try (do 2 eexists; repeat split; reflexivity).
  destruct (ok r).
  - destruct (resp_json r) as [[| | | |items|]| |];
      try (do 2 eexists; repeat split; reflexivity).
    destruct (mapCandles items) as [rows|e] eqn:Hm; [reflexivity|].
    destruct (mapCandles_throws _ _ Hm) as [-> | ->];
      do 2 eexists; repeat split; reflexivity.
  - do 2 eexists; repeat split; reflexivity.
Qed.

Lemma isTransient_at (now : Z) (o : FetchOutcome) :
  isTransient o = true ->
  exists a, fetchKlines_request now o = Throw (ApiError a) /\ retryable a = true.
Proof.
  unfold isTransient. pose proof (fetchKlines_clock 0 now o) as Hc.
  destruct (fetchKlines_request 0 o) as [rows|e]; [discriminate|].
  destruct Hc as [a [a' [-> [Hnow [Hr _]]]]]. intros Ha.
  exists a'. split; [exact Hnow|congruence].
Qed.

Lemma not_transient_at (now : Z) (o : FetchOutcome) :
  isTransient o = false ->
  match fetchKlines_request 0 o with
  | Ok rows => fetchKlines_request now o = Ok rows
  | Throw e =>
    exists a, fetchKlines_request now o = Throw (ApiError a) /\ retryable a = false /\
              message a = message_or "Unknown error" e
  end.
Proof.
  unfold isTransient. pose proof (fetchKlines_clock 0 now o) as Hc.
  destruct (fetchKlines_request 0 o) as [rows|e]; [intros _; exact Hc|].
  destruct Hc as [a [a' [-> [Hnow [Hr Hm]]]]]. intros Ha.
  exists a'. split; [exact Hnow|]. split; [congruence|exact Hm].
Qed.

Lemma computeRetryDelayMs_range (attempts : Z) (hint : option Z) (draws : list Z) :
  0 <= fst (computeRetryDelayMs attempts hint draws) <= 60000.
Proof.
  destruct hint as [h|]; [destruct (decide (0 < h))|].
  - rewrite computeRetryDelayMs_hint by done. unfold MAX_BACKOFF_MS.
    cbn [fst]. lia.
  - rewrite computeRetryDelayMs_no_hint by (intros ? [= <-]; lia).
    pose proof (jitterOf_range _ (Math_random_range draws)).
    pose proof (Z.pow_nonneg 2 (Z.min attempts 8) ltac:(lia)).
    unfold MAX_BACKOFF_MS. lia.
  - rewrite computeRetryDelayMs_no_hint by (intros ? [=]).
    pose proof (jitterOf_range _ (Math_random_range draws)).
    pose proof (Z.pow_nonneg 2 (Z.min attempts 8) ltac:(lia)).
    unfold MAX_BACKOFF_MS. lia.
Qed.

(** In a calm world a wait only moves the clock. *)
Lemma delay_quiet (ms : Z) (w : World) :
  w_clears w = [] ->
  snd (delay ms w) = set_now (w_now w + Z.max 0 ms) w.
Proof. intros Hc. unfold delay. simpl. rewrite Hc. reflexivity. Qed.

(** What a mutation of the job leaves as it was. *)
Lemma setState_frame (mutator : Z -> JobState -> JobState) (w : World) :
  w_now (snd (setState mutator w)) = w_now w /\
  w_active (snd (setState mutator w)) = w_active w /\
  w_random (snd (setState mutator w)) = w_random w.
Proof.
  unfold setState. destruct (w_state w) as [prev|]; [|auto].
  unfold persistAndEmit.
  set (s := mutator (w_now w) prev).
  pose proof (storage_set_frame s (set_state (Some s) w))
    as [[_ [Ha [_ [Hn [Hr _]]]]] _].
  destruct (storage_set s (set_state (Some s) w)) as [[|e] w']; simpl in *; auto.
Qed.

(** A mutation in a calm world: it resolves, the job is the mutated one,
    the observer receives it. *)
Lemma setState_calm_step (mutator : Z -> JobState -> JobState) (w : World)
    (st : JobState) :
  calm w -> w_state w = Some st ->
  exists w',
    setState mutator w = (Ok tt, w') /\ calm w' /\
    w_state w' = Some (mutator (w_now w) st) /\
    w_observed w' = w_observed w ++ [Some (mutator (w_now w) st)] /\
    w_now w' = w_now w /\ w_active w' = w_active w /\ w_random w' = w_random w.
Proof.
  intros Hc Hst.
  destruct (setState_calm mutator w Hc) as [Hok Hc'].
  pose proof (setState_state mutator w) as Hs. rewrite Hst in Hs.
  pose proof (setState_observed mutator w st Hst Hok) as Ho.
  destruct (setState_frame mutator w) as [Hn [Ha Hr]].
  destruct (setState mutator w) as [[[]|e] w']; simpl in *; [|discriminate].
  exists w'. auto 10.
Qed.

Lemma beginAttempt_calm_step (i : Interval) (w : World) (st : JobState) :
  calm w -> w_state w = Some st ->
  exists w2 now',
    beginAttempt i (tasks st i) w = (Ok tt, w2) /\ calm w2 /\
    w_state w2 = Some (toRunning i now' st) /\
    w_active w2 = w_active w /\ w_random w2 = w_random w.
Proof.
  intros Hc Hst. unfold beginAttempt.
  match goal with |- context [setState _ ?w1] => set (w1' := w1) end.
  assert (Hw1 : calm w1' /\ w_state w1' = Some st /\
                w_active w1' = w_active w /\ w_random w1' = w_random w).
  { subst w1'. destruct (mustWait (tasks st i) (w_now w)) as [ms|]; [|auto].
    rewrite delay_quiet by apply Hc. destruct Hc. repeat split; assumption. }
  destruct Hw1 as [Hc1 [Hst1 [Ha1 Hr1]]].
  destruct (setState_calm_step (toRunning i) w1' st Hc1 Hst1)
    as [w2 [E [Hc2 [Hst2 [_ [_ [Ha2 Hr2]]]]]]].
  exists w2, (w_now w1'). rewrite E.
  split; [reflexivity|]. split; [exact Hc2|]. split; [exact Hst2|].
  split; congruence.
Qed.

(** The retry branch of the handler, in a calm world. *)
Lemma catchBlock_retryable (i : Interval) (e : Exn) (err : BinanceApiError)
    (w : World) (st : JobState) :
  calm w -> w_state w = Some st -> isRetryable e = Some err ->
  let wait :=
    fst (computeRetryDelayMs (attempts (tasks st i) + 1) (retryAfterMs err)
           (w_random w)) in
  exists w' st',
    catchBlock i e w = Continues w' /\ calm w' /\ w_state w' = Some st' /\
    tasks st' i =
      {| status := retrying; attempts := attempts (tasks st i) + 1;
         retryAtMs := Some (w_now w + wait);
         errorMessage := Some (message err); count := count (tasks st i) |} /\
    0 <= wait <= 60000 /\
    w_now w' = w_now w + wait /\
    mustWait (tasks st' i) (w_now w') = None /\
    w_observed w' = w_observed w ++ [Some st'] /\
    w_active w' = w_active w /\
    (forall j, j <> i -> tasks st' j = tasks st j) /\ data st' = data st.
Proof.
  intros Hc Hst He wait.
  pose proof (computeRetryDelayMs_range (attempts (tasks st i) + 1)
                (retryAfterMs err) (w_random w)) as Hrange.
  fold wait in Hrange.
  unfold catchBlock. rewrite He, Hst.
  destruct (computeRetryDelayMs (attempts (tasks st i) + 1) (retryAfterMs err)
              (w_random w)) as [waitMs draws] eqn:Ew.
  subst wait. cbn [fst] in *.
  unfold onIntervalRetry.
  assert (Hc0 : calm (set_random draws w)) by exact Hc.
  match goal with
  | |- context [setState ?m (set_random draws w)] =>
    destruct (setState_calm_step m (set_random draws w) st Hc0 Hst)
      as [w1 [E [Hc1 [Hst1 [Ho1 [Hn1 [Ha1 _]]]]]]]
  end.
  rewrite E. simpl in Hst1, Ho1, Hn1, Ha1.
  rewrite delay_quiet by apply Hc1.
  eexists _, _. split; [reflexivity|]. split; [exact Hc1|].
  split; [exact Hst1|].
  split; [simpl; rewrite fn_lookup_insert; reflexivity|].
  split; [exact Hrange|].
  split; [simpl; rewrite Hn1; lia|].
  split.
  { simpl. rewrite fn_lookup_insert. unfold mustWait. simpl.
    destruct (decide _) as [[_ Hgt]|]; [|reflexivity]. rewrite Hn1 in Hgt. lia. }
  split; [exact Ho1|]. split; [exact Ha1|]. split; [|reflexivity].
  intros j Hj. simpl. rewrite fn_lookup_insert_ne by done. reflexivity.
Qed.

(** X10: one retry: after a retryable failure in a calm world the series is
    [retrying] with one attempt more, the error message, and a retry time
    that is the clock plus a wait of at most 60000 ms; the observer
    receives that snapshot; the procedure then waits exactly that long, so
    that the loop, when it goes round, finds the retry time reached and
    does not wait a second time.  No other series is touched. *)
Theorem retry_step (i : Interval) (e : Exn) (err : BinanceApiError)
    (w : World) (st : JobState) :
  calm w -> w_state w = Some st -> isRetryable e = Some err ->
  let wait :=
    fst (computeRetryDelayMs (attempts (tasks st i) + 1) (retryAfterMs err)
           (w_random w)) in
  exists w' st',
    catchBlock i e w = Continues w' /\ calm w' /\ w_state w' = Some st' /\
    tasks st' i =
      {| status := retrying; attempts := attempts (tasks st i) + 1;
         retryAtMs := Some (w_now w + wait);
         errorMessage := Some (message err); count := count (tasks st i) |} /\
    0 <= wait <= 60000 /\
    w_now w' = w_now w + wait /\
    mustWait (tasks st' i) (w_now w') = None /\
    w_observed w' = w_observed w ++ [Some st'] /\
    w_active w' = w_active w /\
    (forall j, j <> i -> tasks st' j = tasks st j) /\ data st' = data st.
Proof. apply catchBlock_retryable. Qed.

(** The per-series procedure in a calm world, on a script that gives the
    series some transient answers and then one that is not. *)
(** What a call of [fetchKlines] that returns, or throws an error of its
    own, says of its address and of its request. *)
Lemma fetchKlines_made (proxyBaseUrl : option string) (now : Z) (o : FetchOutcome) :
  (forall rows, fetchKlines proxyBaseUrl now o = Ok rows ->
     newURL (klinesAddress proxyBaseUrl) = Ok tt /\
     fetchKlines_request now o = Ok rows) /\
  (forall a, fetchKlines proxyBaseUrl now o = Throw (ApiError a) ->
     newURL (klinesAddress proxyBaseUrl) = Ok tt /\
     fetchKlines_request now o = Throw (ApiError a)).
Proof.
  unfold fetchKlines, newURL.
  destruct (URL_error (klinesAddress proxyBaseUrl)); split; intros ? E;
    try discriminate E; auto.
Qed.

(** The retry branch of the handler keeps the base address of the job. *)
Lemma catchBlock_retryable_base (i : Interval) (e : Exn) (err : BinanceApiError)
    (w w' : World) (st st' : JobState) :
  w_state w = Some st -> isRetryable e = Some err ->
  catchBlock i e w = Continues w' -> w_state w' = Some st' ->
  proxyBaseUrl st' = proxyBaseUrl st.
Proof.
  intros Hst He. unfold catchBlock. rewrite He, Hst.
  destruct (computeRetryDelayMs _ _ _) as [waitMs draws].
  unfold onIntervalRetry.
  match goal with
  | |- context [setState ?m ?w0] =>
    pose proof (setState_state m w0) as Hs;
    destruct (setState m w0) as [[|e'] w1]; [|discriminate]
  end.
  simpl in Hs. rewrite Hst in Hs. simpl in Hs.
  intros [= <-]. unfold delay. cbn [snd].
  destruct (w_clears _) as [|[|] clears]; simpl; rewrite ?Hs.
  - intros [= <-]. reflexivity.
  - intros Hnone.
    pose proof (clearSavedState_state (set_clears clears
                  (set_now (w_now w1 + Z.max 0 waitMs) w1))) as Hc.
    rewrite Hc in Hnone. discriminate Hnone.
  - intros [= <-]. reflexivity.
Qed.

Lemma executeInterval_settles (i : Interval) (fails : list FetchOutcome)
    (o : FetchOutcome) (rest : list FetchOutcome) :
  Forall (fun f => isTransient f = true) fails ->
  isTransient o = false ->
  forall (w : World) (st : JobState),
    calm w -> w_state w = Some st ->
    isFinishedStatus (status (tasks st i)) = false ->
    newURL (klinesAddress (Some (proxyBaseUrl st))) = Ok tt ->
    exists w' st',
      executeInterval i (fails ++ o :: rest) w = (Some (Ok tt), rest, w') /\
      calm w' /\ w_state w' = Some st' /\ w_active w' = w_active w /\
      proxyBaseUrl st' = proxyBaseUrl st /\
      attempts (tasks st' i) = attempts (tasks st i) + Z.of_nat (length fails) /\
      (forall j, j <> i -> tasks st' j = tasks st j /\ data st' j = data st j) /\
      match fetchKlines_request 0 o with
      | Ok candles =>
        status (tasks st' i) = done /\ data st' i = Some candles /\
        count (tasks st' i) = Some (Z.of_nat (length candles)) /\
        retryAtMs (tasks st' i) = None
      | Throw e =>
        status (tasks st' i) = error /\
        errorMessage (tasks st' i) = Some (message_or "Unknown error" e) /\
        data st' i = data st i /\ retryAtMs (tasks st' i) = None
      end.
Proof.
  intros Hfails Ho.
  induction Hfails as [|f fails Hf _ IH]; intros w st Hc Hst Hnf Hurl.
  - simpl app. cbn [executeInterval]. rewrite Hst, Hnf.
    destruct (beginAttempt_calm_step i w st Hc Hst)
      as [w2 [now' [E2 [Hc2 [Hst2 [Ha2 _]]]]]].
    rewrite E2, Hst2.
    change (proxyBaseUrl (toRunning i now' st)) with (proxyBaseUrl st).
    rewrite Hurl. unfold tryBlock.
    pose proof (not_transient_at (w_now w2) o Ho) as Hat.
    destruct (fetchKlines_request 0 o) as [candles|e0].
    + rewrite Hat. unfold onIntervalSuccess.
      destruct (setState_calm_step (toDone i candles) w2 _ Hc2 Hst2)
        as [w3 [E3 [Hc3 [Hst3 [_ [_ [Ha3 _]]]]]]].
      rewrite E3. eexists _, _. split; [reflexivity|].
      split; [exact Hc3|]. split; [exact Hst3|]. split; [congruence|].
      split; [reflexivity|].
      simpl. rewrite !fn_lookup_insert. simpl.
      split; [lia|]. split; [|auto].
      intros j Hj. rewrite !fn_lookup_insert_ne by done. auto.
    + destruct Hat as [a [Hfetch [Hnr Hmsg]]]. rewrite Hfetch.
      unfold catchBlock. simpl. rewrite Hnr.
      match goal with
      | |- context [setState ?m w2] =>
        destruct (setState_calm_step m w2 _ Hc2 Hst2)
          as [w3 [E3 [Hc3 [Hst3 [_ [_ [Ha3 _]]]]]]]
      end.
      rewrite E3. eexists _, _. split; [reflexivity|].
      split; [exact Hc3|]. split; [exact Hst3|]. split; [congruence|].
      split; [reflexivity|].
      simpl. rewrite !fn_lookup_insert. simpl.
      split; [lia|]. split; [|rewrite Hmsg; auto].
      intros j Hj. rewrite !fn_lookup_insert_ne by done. auto.
  - simpl app. cbn [executeInterval]. rewrite Hst, Hnf.
    destruct (beginAttempt_calm_step i w st Hc Hst)
      as [w2 [now' [E2 [Hc2 [Hst2 [Ha2 _]]]]]].
    rewrite E2, Hst2.
    change (proxyBaseUrl (toRunning i now' st)) with (proxyBaseUrl st).
    rewrite Hurl. unfold tryBlock.
    destruct (isTransient_at (w_now w2) f Hf) as [a [Hfetch Hr]].
    rewrite Hfetch.
    assert (Hretry : isRetryable (ApiError a) = Some a).
    { simpl. rewrite Hr. reflexivity. }
    destruct (catchBlock_retryable i (ApiError a) a w2 _ Hc2 Hst2 Hretry)
      as [w3 [st3 [E3 [Hc3 [Hst3 [Htask [_ [_ [_ [_ [Ha3 [Hother Hdata]]]]]]]]]]]].
    pose proof (catchBlock_retryable_base i (ApiError a) a w2 w3 _ st3
                  Hst2 Hretry E3 Hst3) as Hbase.
    change (proxyBaseUrl (toRunning i now' st)) with (proxyBaseUrl st) in Hbase.
    rewrite E3.
    destruct (IH w3 st3 Hc3 Hst3)
      as [w' [st' [E [Hc' [Hst' [Ha' [Hb' [Hatt [Hoth Hend]]]]]]]]].
    { rewrite Htask. reflexivity. }
    { rewrite Hbase. exact Hurl. }
    exists w', st'. split; [exact E|]. split; [exact Hc'|]. split; [exact Hst'|].
    split; [congruence|]. split; [congruence|].
    assert (Hrun : tasks (toRunning i now' st) i
                   = {| status := running; attempts := attempts (tasks st i);
                        retryAtMs := None; errorMessage := None;
                        count := count (tasks st i) |}).
    { simpl. rewrite fn_lookup_insert. reflexivity. }
    split.
    { rewrite Hatt, Htask. cbn [attempts]. rewrite Hrun. cbn [attempts length].
      lia. }
    split.
    { intros j Hj. destruct (Hoth j Hj) as [Et Ed].
      rewrite Et, Ed, (Hother j Hj), Hdata. simpl.
      rewrite fn_lookup_insert_ne by done. auto. }
    destruct (fetchKlines_request 0 o); [exact Hend|].
    destruct Hend as [Hs [Hm [Hd Hra]]]. repeat split; try assumption.
    rewrite Hd, Hdata. reflexivity.
Qed.

(** X11: transient failures and then success: in a calm world a series that
    meets [n] retryable failures and then a successful fetch ends [done]
    with its batch, its attempt counter raised by exactly [n]; the
    procedure returns having consumed those [n + 1] answers and no other. *)
Theorem retries_then_success (i : Interval) (fails : list FetchOutcome)
    (o : FetchOutcome) (rest : list FetchOutcome) (candles : list CandleRow)
    (w : World) (st : JobState) :
  calm w -> w_state w = Some st ->
  isFinishedStatus (status (tasks st i)) = false ->
  Forall (fun f => isTransient f = true) fails ->
  fetchKlines (Some (proxyBaseUrl st)) 0 o = Ok candles ->
  exists w' st',
    executeInterval i (fails ++ o :: rest) w = (Some (Ok tt), rest, w') /\
    w_state w' = Some st' /\
    status (tasks st' i) = done /\ data st' i = Some candles /\
    count (tasks st' i) = Some (Z.of_nat (length candles)) /\
    attempts (tasks st' i) = attempts (tasks st i) + Z.of_nat (length fails).
Proof.
  intros Hc Hst Hnf Hfails Hcall.
  apply fetchKlines_made in Hcall as [Hurl Hfetch].
  assert (Ho : isTransient o = false).
  { unfold isTransient. rewrite Hfetch. reflexivity. }
  destruct (executeInterval_settles i fails o rest Hfails Ho w st Hc Hst Hnf Hurl)
    as [w' [st' [E [_ [Hst' [_ [_ [Hatt [_ Hend]]]]]]]]].
  rewrite Hfetch in Hend. destruct Hend as [Hs [Hd [Hcount _]]].
  exists w', st'. auto 10.
Qed.

(** X12: a fatal failure: in a calm world a series whose fetch fails with an
    error that is not retryable becomes [error] with the message of the
    failure, keeps its attempt counter and has no batch stored; the
    procedure returns normally on that answer, and no other series is
    touched, so that the run loop goes on with the next series. *)
Theorem fatal_failure_ends_series (i : Interval) (o : FetchOutcome)
    (rest : list FetchOutcome) (a : BinanceApiError) (w : World) (st : JobState) :
  calm w -> w_state w = Some st ->
  isFinishedStatus (status (tasks st i)) = false ->
  fetchKlines (Some (proxyBaseUrl st)) 0 o = Throw (ApiError a) ->
  retryable a = false ->
  exists w' st',
    executeInterval i (o :: rest) w = (Some (Ok tt), rest, w') /\
    w_state w' = Some st' /\
    status (tasks st' i) = error /\
    errorMessage (tasks st' i) = Some (message a) /\
    attempts (tasks st' i) = attempts (tasks st i) /\
    data st' i = data st i /\
    (forall j, j <> i -> tasks st' j = tasks st j /\ data st' j = data st j).
Proof.
  intros Hc Hst Hnf Hcall Hr.
  apply fetchKlines_made in Hcall as [Hurl Hfetch].
  assert (Ho : isTransient o = false).
  { unfold isTransient. rewrite Hfetch. exact Hr. }
  destruct (executeInterval_settles i [] o rest (Forall_nil_2 _) Ho w st Hc Hst Hnf
              Hurl)
    as [w' [st' [E [_ [Hst' [_ [_ [Hatt [Hoth Hend]]]]]]]]].
  rewrite Hfetch in Hend. destruct Hend as [Hs [Hm [Hd _]]].
  exists w', st'. simpl in Hatt, Hm.
  repeat split; try assumption; try apply Hoth; try assumption. lia.
Qed.

(** *** The whole run *)

Lemma openCount_skip (i : Interval) (more : list Interval) (st : JobState) :
  isFinishedStatus (status (tasks st i)) = true ->
  openCount (i :: more) st = openCount more st.
Proof.
  intros Hf. unfold openCount. rewrite filter_cons.
  destruct (decide _) as [E|_]; [congruence|reflexivity].
Qed.

Lemma openCount_open (i : Interval) (more : list Interval) (st : JobState) :
  isFinishedStatus (status (tasks st i)) = false ->
  openCount (i :: more) st = S (openCount more st).
Proof.
  intros Hf. unfold openCount. rewrite filter_cons.
  destruct (decide _) as [_|E]; [reflexivity|congruence].
Qed.

Lemma openCount_ext (l : list Interval) (st st' : JobState) :
  (forall j, j ∈ l -> tasks st' j = tasks st j) ->
  openCount l st' = openCount l st.
Proof.
  induction l as [|j l IH]; intros Heq; [reflexivity|].
  assert (Hj : tasks st' j = tasks st j) by (apply Heq; left).
  assert (Hl : openCount l st' = openCount l st).
  { apply IH. intros k Hk. apply Heq. right. exact Hk. }
  destruct (isFinishedStatus (status (tasks st j))) eqn:E.
  - rewrite !openCount_skip; [exact Hl|exact E|rewrite Hj; exact E].
  - rewrite !openCount_open; [f_equal; exact Hl|exact E|rewrite Hj; exact E].
Qed.

Lemma run_loop_completes (l : list Interval) :
  NoDup l ->
  forall (script rest : list FetchOutcome) (w : World) (st : JobState),
    calm w -> w_state w = Some st ->
    newURL (klinesAddress (Some (proxyBaseUrl st))) = Ok tt ->
    settles (openCount l st) script rest ->
    exists w' st',
      run_loop l script w = (Some (Ok tt), rest, w') /\
      calm w' /\ w_state w' = Some st' /\ w_active w' = w_active w /\
      (forall j, j ∈ l -> terminal (status (tasks st' j))) /\
      (forall j, terminal (status (tasks st j)) ->
         tasks st' j = tasks st j /\ data st' j = data st j).
Proof.
  induction 1 as [|i more Hnotin Hnodup IH];
    intros script rest w st Hc Hst Hurl Hset.
  - inversion Hset; subst. exists w, st. cbn [run_loop].
    repeat split; try assumption; try reflexivity; try apply Hc.
    intros j Hj. inversion Hj.
  - cbn [run_loop]. rewrite Hst.
    destruct (isFinishedStatus (status (tasks st i))) eqn:Hfin.
    + rewrite openCount_skip in Hset by exact Hfin.
      destruct (IH script rest w st Hc Hst Hurl Hset)
        as [w' [st' [E [Hc' [Hst' [Ha' [Hterm Hkept]]]]]]].
      assert (Hi : terminal (status (tasks st i))).
      { apply isFinishedStatus_terminal, Hfin. }
      exists w', st'.
      split.
      { destruct (decide (status (tasks st i) = done)); [exact E|].
        destruct (decide (status (tasks st i) = error)); [exact E|].
        destruct Hi; contradiction. }
      split; [exact Hc'|]. split; [exact Hst'|]. split; [exact Ha'|].
      split; [|exact Hkept].
      intros j Hj. apply elem_of_cons in Hj as [->|Hj]; [|apply Hterm, Hj].
      destruct (Hkept i Hi) as [Et _]. rewrite Et. exact Hi.
    + rewrite openCount_open in Hset by exact Hfin.
      inversion Hset as [|n fails o script' rest' Hfails Ho Hset' En Es Er]; subst.
      destruct (executeInterval_settles i fails o script' Hfails Ho w st Hc Hst Hfin
                  Hurl)
        as [w1 [st1 [E1 [Hc1 [Hst1 [Ha1 [Hb1 [_ [Hoth Hend]]]]]]]]].
      rewrite <- Hb1 in Hurl.
      assert (Hi1 : terminal (status (tasks st1 i))).
      { destruct (fetchKlines_request 0 o); destruct Hend as [Hs _]; rewrite Hs;
          [left|right]; reflexivity. }
      assert (Hcount : openCount more st1 = openCount more st).
      { apply openCount_ext. intros j Hj. apply Hoth. intros ->. contradiction. }
      rewrite <- Hcount in Hset'.
      destruct (IH script' rest w1 st1 Hc1 Hst1 Hurl Hset')
        as [w' [st' [E [Hc' [Hst' [Ha' [Hterm Hkept]]]]]]].
      exists w', st'.
      split.
      { destruct (decide (status (tasks st i) = done)) as [Hd|_].
        { apply isFinishedStatus_open in Hfin. exfalso. apply Hfin. left. exact Hd. }
        destruct (decide (status (tasks st i) = error)) as [He|_].
        { apply isFinishedStatus_open in Hfin. exfalso. apply Hfin. right. exact He. }
        rewrite E1. exact E. }
      split; [exact Hc'|]. split; [exact Hst'|]. split; [congruence|].
      split.
      * intros j Hj. apply elem_of_cons in Hj as [->|Hj]; [|apply Hterm, Hj].
        destruct (Hkept i Hi1) as [Et _]. rewrite Et. exact Hi1.
      * intros j Hj.
        assert (Hne : j <> i).
        { intros ->. apply isFinishedStatus_open in Hfin. contradiction. }
        destruct (Hoth j Hne) as [Et Ed].
        destruct (Hkept j ltac:(rewrite Et; exact Hj)) as [Et' Ed'].
        split; congruence.
Qed.

(** With a base address that [new URL] refuses, the series ends [error]
    on the exception of [new URL] and no answer of the network is used. *)
Lemma executeInterval_no_address (i : Interval) (script : list FetchOutcome)
    (e : Exn) (w : World) (st : JobState) :
  calm w -> w_state w = Some st ->
  isFinishedStatus (status (tasks st i)) = false ->
  newURL (klinesAddress (Some (proxyBaseUrl st))) = Throw e ->
  exists w' st',
    executeInterval i script w = (Some (Ok tt), script, w') /\
    calm w' /\ w_state w' = Some st' /\ w_active w' = w_active w /\
    proxyBaseUrl st' = proxyBaseUrl st /\
    status (tasks st' i) = error /\
    errorMessage (tasks st' i) = Some (message_or "Unknown error" e) /\
    attempts (tasks st' i) = attempts (tasks st i) /\
    data st' i = data st i /\
    (forall j, j <> i -> tasks st' j = tasks st j /\ data st' j = data st j).
Proof.
  intros Hc Hst Hnf Hurl.
  destruct (beginAttempt_calm_step i w st Hc Hst)
    as [w2 [now' [E2 [Hc2 [Hst2 [Ha2 _]]]]]].
  set (m := toError i (message_or "Unknown error" e)).
  destruct (setState_calm_step m w2 _ Hc2 Hst2)
    as [w3 [E3 [Hc3 [Hst3 [_ [_ [Ha3 _]]]]]]].
  exists w3, (m (w_now w2) (toRunning i now' st)).
  split.
  { destruct script; cbn [executeInterval]; rewrite Hst, Hnf, E2, Hst2;
      change (proxyBaseUrl (toRunning i now' st)) with (proxyBaseUrl st);
      rewrite Hurl; fold m; rewrite E3; reflexivity. }
  split; [exact Hc3|]. split; [exact Hst3|]. split; [congruence|].
  split; [reflexivity|].
  subst m. simpl. rewrite !fn_lookup_insert. simpl.
  repeat split; try reflexivity.
  all: rewrite !fn_lookup_insert_ne by done; reflexivity.
Qed.

Lemma run_loop_no_address (l : list Interval) (script : list FetchOutcome)
    (e : Exn) (w : World) (st : JobState) :
  calm w -> w_state w = Some st ->
  newURL (klinesAddress (Some (proxyBaseUrl st))) = Throw e ->
  exists w' st',
    run_loop l script w = (Some (Ok tt), script, w') /\
    calm w' /\ w_state w' = Some st' /\ w_active w' = w_active w /\
    (forall j, j ∈ l -> terminal (status (tasks st' j))) /\
    (forall j, terminal (status (tasks st j)) ->
       tasks st' j = tasks st j /\ data st' j = data st j).
Proof.
  revert w st. induction l as [|i more IH]; intros w st Hc Hst Hurl.
  - exists w, st. cbn [run_loop].
    repeat split; try assumption; try reflexivity; try apply Hc.
    intros j Hj. inversion Hj.
  - cbn [run_loop]. rewrite Hst.
    destruct (isFinishedStatus (status (tasks st i))) eqn:Hfin.
    + destruct (IH w st Hc Hst Hurl)
        as [w' [st' [E [Hc' [Hst' [Ha' [Hterm Hkept]]]]]]].
      assert (Hi : terminal (status (tasks st i))).
      { apply isFinishedStatus_terminal, Hfin. }
      exists w', st'.
      split.
      { destruct (decide (status (tasks st i) = done)); [exact E|].
        destruct (decide (status (tasks st i) = error)); [exact E|].
        destruct Hi; contradiction. }
      split; [exact Hc'|]. split; [exact Hst'|]. split; [exact Ha'|].
      split; [|exact Hkept].
      intros j Hj. apply elem_of_cons in Hj as [->|Hj]; [|apply Hterm, Hj].
      destruct (Hkept i Hi) as [Et _]. rewrite Et. exact Hi.
    + destruct (executeInterval_no_address i script e w st Hc Hst Hfin Hurl)
        as [w1 [st1 [E1 [Hc1 [Hst1 [Ha1 [Hb1 [Hs1 [_ [_ [_ Hoth]]]]]]]]]]].
      rewrite <- Hb1 in Hurl.
      assert (Hi1 : terminal (status (tasks st1 i))).
      { rewrite Hs1. right. reflexivity. }
      destruct (IH w1 st1 Hc1 Hst1 Hurl)
        as [w' [st' [E [Hc' [Hst' [Ha' [Hterm Hkept]]]]]]].
      exists w', st'.
      split.
      { destruct (decide (status (tasks st i) = done)) as [Hd|_].
        { apply isFinishedStatus_open in Hfin. exfalso. apply Hfin. left. exact Hd. }
        destruct (decide (status (tasks st i) = error)) as [He|_].
        { apply isFinishedStatus_open in Hfin. exfalso. apply Hfin. right. exact He. }
        rewrite E1. exact E. }
      split; [exact Hc'|]. split; [exact Hst'|]. split; [congruence|].
      split.
      * intros j Hj. apply elem_of_cons in Hj as [->|Hj]; [|apply Hterm, Hj].
        destruct (Hkept i Hi1) as [Et _]. rewrite Et. exact Hi1.
      * intros j Hj.
        assert (Hne : j <> i).
        { intros ->. apply isFinishedStatus_open in Hfin. contradiction. }
        destruct (Hoth j Hne) as [Et Ed].
        destruct (Hkept j ltac:(rewrite Et; exact Hj)) as [Et' Ed'].
        split; congruence.
Qed.

Lemma NoDup_INTERVALS : NoDup INTERVALS.
Proof.
  unfold INTERVALS.
  repeat (apply NoDup_cons_2;
          [rewrite ?elem_of_cons, elem_of_nil; intuition discriminate|]).
  apply NoDup_nil_2.
Qed.

Lemma unfinished_false (st : JobState) :
  unfinished st = false <-> forall i, terminal (status (tasks st i)).
Proof.
  split.
  - intros Hu i. apply isFinishedStatus_terminal.
    destruct (isFinishedStatus (status (tasks st i))) eqn:E; [reflexivity|].
    assert (Ht : unfinished st = true).
    { apply unfinished_spec. exists i. apply isFinishedStatus_open, E. }
    congruence.
  - intros Hall. destruct (unfinished st) eqn:E; [|reflexivity].
    apply unfinished_spec in E as [i Hi]. exfalso. apply Hi, Hall.
Qed.

(** X13: completion: on an idle runner in a calm world, when the network
    gives each of the nine series in turn finitely many transient answers
    and then one that is not, [startNewJob] returns normally with every
    series [done] or [error], having consumed exactly those answers, and
    with the run flag lowered again.  (The answers are those to the
    requests that are made: with a base address that [new URL] refuses no
    request is made, no answer is consumed, and the rest holds as well.) *)
Theorem startNewJob_completes (options : StartJobOptions)
    (script rest : list FetchOutcome) (w : World) :
  calm w -> w_active w = false ->
  settles 9 script rest ->
  exists w' st',
    startNewJob options script w
    = (Some (Ok tt),
       match newURL (klinesAddress (Some (o_proxyBaseUrl options))) with
       | Ok _ => rest
       | Throw _ => script
       end, w') /\
    w_state w' = Some st' /\
    (forall i, terminal (status (tasks st' i))) /\
    unfinished st' = false /\ w_active w' = false.
Proof.
  intros Hc Hact Hset. unfold startNewJob.
  assert (Hu : calm (snd (randomUUID w)) /\ w_active (snd (randomUUID w)) = false /\
               w_state (snd (randomUUID w)) = w_state w).
  { unfold randomUUID. destruct (w_uuids w); simpl; auto. }
  destruct (randomUUID w) as [uuid w0]. simpl in Hu. destruct Hu as [Hc0 [Ha0 _]].
  match goal with
  | |- context [persistAndEmit ?s0 w0] => set (job := s0)
  end.
  assert (Hp : exists w1, persistAndEmit job w0 = (Ok tt, w1) /\ calm w1 /\
                 w_state w1 = Some job /\ w_active w1 = false).
  { unfold persistAndEmit.
    destruct Hc0 as [Hl Hcl].
    pose proof (storage_set_calm job (set_state (Some job) w0) Hl) as [Hok Hl'].
    pose proof (storage_set_frame job (set_state (Some job) w0))
      as [[Hs [Ha [_ [_ [_ [_ Hcl']]]]]] _].
    destruct (storage_set job (set_state (Some job) w0)) as [[[]|e] w1];
      simpl in *; [|discriminate].
    eexists. split; [reflexivity|]. unfold calm. simpl.
    repeat split; congruence. }
  destruct Hp as [w1 [E1 [Hc1 [Hst1 Ha1]]]]. rewrite E1.
  unfold run. rewrite Hst1, Ha1.
  assert (Hcount : openCount INTERVALS job = 9%nat) by reflexivity.
  rewrite <- Hcount in Hset.
  assert (Hrun : exists w' st',
            run_loop INTERVALS script (set_active true w1)
            = (Some (Ok tt),
               match newURL (klinesAddress (Some (o_proxyBaseUrl options))) with
               | Ok _ => rest
               | Throw _ => script
               end, w') /\
            w_state w' = Some st' /\
            forall j, j ∈ INTERVALS -> terminal (status (tasks st' j))).
  { destruct (newURL (klinesAddress (Some (o_proxyBaseUrl options))))
      as [[]|e] eqn:Hurl.
    - destruct (run_loop_completes INTERVALS NoDup_INTERVALS script rest
                  (set_active true w1) job Hc1 Hst1 Hurl Hset)
        as [w' [st' [E [_ [Hst' [_ [Hterm _]]]]]]].
      exists w', st'. auto.
    - destruct (run_loop_no_address INTERVALS script e
                  (set_active true w1) job Hc1 Hst1 Hurl)
        as [w' [st' [E [_ [Hst' [_ [Hterm _]]]]]]].
      exists w', st'. auto. }
  destruct Hrun as [w' [st' [E [Hst' Hterm]]]].
  rewrite E. exists (set_active false w'), st'.
  split; [reflexivity|]. split; [exact Hst'|].
  assert (Hall : forall i, terminal (status (tasks st' i))).
  { intros i. apply Hterm, INTERVALS_complete. }
  split; [exact Hall|]. split; [apply unfinished_false, Hall|reflexivity].
Qed.

End Procedure.

Lemma retry_step_witness :
  exists w' st',
    catchBlock (H := Scenario.browser) I1m (ApiError Sample.busy) Sample.started
      = Continues w' /\
    w_state w' = Some st' /\
    status (tasks st' I1m) = retrying /\ attempts (tasks st' I1m) = 1.
Proof.
  destruct (retry_step (H := Scenario.browser) I1m (ApiError Sample.busy)
              Sample.busy Sample.started Sample.job)
    as [w' [st' [E [_ [Hst [Ht _]]]]]].
  - split; reflexivity.
  - reflexivity.
  - reflexivity.
  - exists w', st'. split; [exact E|]. split; [exact Hst|].
    rewrite Ht. split; reflexivity.
Defined.

Lemma retries_then_success_witness :
  exists w' st',
    executeInterval (H := Scenario.browser) I1m
      [TimedOut; Scenario.okResponse 1] Sample.started
      = (Some (Ok tt), [], w') /\
    w_state w' = Some st' /\
    status (tasks st' I1m) = done /\ attempts (tasks st' I1m) = 1.
Proof.
  destruct (retries_then_success (H := Scenario.browser) I1m [TimedOut]
              (Scenario.okResponse 1) [] Sample.batch Sample.started Sample.job)
    as [w' [st' [E [Hst [Hs [_ [_ Hatt]]]]]]].
  - split; reflexivity.
  - reflexivity.
  - reflexivity.
  - constructor; [reflexivity|constructor].
  - reflexivity.
  - exists w', st'. split; [exact E|]. split; [exact Hst|].
    split; [exact Hs|exact Hatt].
Defined.

Lemma fatal_failure_ends_series_witness :
  exists w' st',
    executeInterval (H := Scenario.browser) I1m [Sample.rejected] Sample.started
      = (Some (Ok tt), [], w') /\
    w_state w' = Some st' /\
    status (tasks st' I1m) = error /\
    errorMessage (tasks st' I1m) = Some "HTTP 400: Invalid symbol.".
Proof.
  destruct (fatal_failure_ends_series (H := Scenario.browser) I1m
              Sample.rejected [] Sample.rejection Sample.started Sample.job)
    as [w' [st' [E [Hst [Hs [Hm _]]]]]].
  - split; reflexivity.
  - reflexivity.
  - reflexivity.
  - reflexivity.
  - reflexivity.
  - exists w', st'. split; [exact E|]. split; [exact Hst|].
    split; [exact Hs|exact Hm].
Defined.

Lemma startNewJob_completes_witness :
  exists w' st',
    startNewJob (H := Scenario.browser) Scenario.btc Sample.answers
      (Scenario.fresh [] [] [] [])
      = (Some (Ok tt), [], w') /\
    w_state w' = Some st' /\ unfinished st' = false.
Proof.
  destruct (startNewJob_completes (H := Scenario.browser) Scenario.btc
              Sample.answers [] (Scenario.fresh [] [] [] []))
    as [w' [st' [E [Hst [_ [Hu _]]]]]].
  - split; reflexivity.
  - reflexivity.
  - unfold Sample.answers. cbn [replicate].
    do 9 (apply (settles_next (H := Scenario.browser) _ [] (Scenario.okResponse 1));
          [constructor|reflexivity|]).
    apply settles_none.
  - exists w', st'. split; [exact E|]. split; [exact Hst|exact Hu].
Defined.

(** ** Properties that every mutation keeps hold of every undisturbed snapshot *)

Section Preservation.
Context `{Host} (P : JobState -> Prop) (HP : Preserved P).

Lemma rank_inj (i j : Interval) : rank i = rank j -> i = j.
Proof. destruct i, j; simpl; intros E; try reflexivity; discriminate E. Qed.

Lemma earlierTerminal_ext (i : Interval) (st st' : JobState) :
  (forall j, j <> i -> tasks st' j = tasks st j) ->
  earlierTerminal i st -> earlierTerminal i st'.
Proof.
  intros Hsame He j Hj. rewrite Hsame; [apply He, Hj|].
  intros ->. lia.
Qed.

Lemma kept_beginAttempt (i : Interval) (w : World) (st : JobState) :
  everySnapshot P w -> w_state w = Some st ->
  ~ terminal (status (tasks st i)) -> earlierTerminal i st ->
  everySnapshot P (snd (beginAttempt i (tasks st i) w)) /\
  forall st2, w_state (snd (beginAttempt i (tasks st i) w)) = Some st2 ->
    status (tasks st2 i) = running /\ retryAtMs (tasks st2 i) = None /\
    earlierTerminal i st2.
Proof.
  intros Hw Hst Hopen Hearly. unfold beginAttempt.
  match goal with |- context [setState _ ?w1] => set (w1' := w1) end.
  assert (Hw1 : everySnapshot P w1' /\
                (w_state w1' = Some st \/ w_state w1' = None)).
  { subst w1'. destruct (mustWait (tasks st i) (w_now w)) as [ms|]; [|auto].
    split; [apply everySnapshot_delay, Hw|].
    destruct (delay_state ms w) as [E|E]; rewrite E; auto. }
  destruct Hw1 as [Hw1 Hs1]. split.
  - apply everySnapshot_setState; [|exact Hw1].
    intros prev Hprev Pprev.
    destruct Hs1 as [Hs1|Hs1]; rewrite Hs1 in Hprev; [|discriminate].
    injection Hprev as <-. apply (pres_running P HP); assumption.
  - intros st2. rewrite setState_state.
    destruct Hs1 as [-> | ->]; [|discriminate].
    intros [= <-]. simpl. rewrite fn_lookup_insert. repeat split.
    eapply earlierTerminal_ext; [|exact Hearly].
    intros j Hj. simpl. rewrite fn_lookup_insert_ne by done. reflexivity.
Qed.

Lemma kept_tryBlock (i : Interval) (o : FetchOutcome) (w : World) :
  everySnapshot P w ->
  (forall st, w_state w = Some st ->
     status (tasks st i) = running /\ retryAtMs (tasks st i) = None /\
     earlierTerminal i st) ->
  everySnapshot P (snd (tryBlock i o w)) /\
  forall st3, w_state (snd (tryBlock i o w)) = Some st3 ->
    retryAtMs (tasks st3 i) = None /\ earlierTerminal i st3 /\
    match fst (tryBlock i o w) with
    | Ok _ => status (tasks st3 i) = done
    | Throw e =>
      status (tasks st3 i) = running \/
      (status (tasks st3 i) = done /\ isRetryable e = None)
    end.
Proof.
  intros Hw Hrun. unfold tryBlock, onIntervalSuccess.
  destruct (fetchKlines_request (w_now w) o) as [candles|e]; simpl.
  - split.
    + apply everySnapshot_setState; [|exact Hw].
      intros prev Hprev Pprev. destruct (Hrun prev Hprev) as [Hs [_ He]].
      apply (pres_done P HP); assumption.
    + intros st3. rewrite setState_state.
      destruct (w_state w) as [prev|] eqn:Eprev; [|discriminate].
      intros [= <-]. destruct (Hrun prev eq_refl) as [_ [_ He]].
      simpl. rewrite fn_lookup_insert. simpl.
      split; [reflexivity|]. split.
      { eapply earlierTerminal_ext; [|exact He].
        intros j Hj. simpl. rewrite fn_lookup_insert_ne by done. reflexivity. }
      destruct (fst (setState (toDone i candles) w)) as [|e] eqn:Er;
        [reflexivity|].
      right. split; [reflexivity|].
      destruct (setState_throws _ _ _ Er) as [name [msg ->]]. reflexivity.
  - split; [exact Hw|]. intros st3 Hst3.
    destruct (Hrun st3 Hst3) as [Hs [Hr He]]. auto.
Qed.

Lemma kept_catchBlock (i : Interval) (e : Exn) (w : World) :
  everySnapshot P w ->
  (forall st, w_state w = Some st ->
     retryAtMs (tasks st i) = None /\ earlierTerminal i st /\
     (status (tasks st i) = running \/
      (status (tasks st i) = done /\ isRetryable e = None))) ->
  match catchBlock i e w with
  | Ends r w' =>
    everySnapshot P w' /\
    (r = Ok tt -> forall st', w_state w' = Some st' ->
       terminal (status (tasks st' i)))
  | Continues w' =>
    everySnapshot P w' /\
    forall st', w_state w' = Some st' -> earlierTerminal i st'
  end.
Proof.
  intros Hw Hpre. unfold catchBlock.
  destruct (isRetryable e) as [err|] eqn:Eretry.
  - destruct (w_state w) as [st|] eqn:Est; [|split; [exact Hw|discriminate]].
    destruct (Hpre st eq_refl) as [Hnone [Hearly Hstatus]].
    assert (Hrunning : status (tasks st i) = running).
    { destruct Hstatus as [Hs|[_ Hs]]; [exact Hs|discriminate Hs]. }
    destruct (computeRetryDelayMs _ _ _) as [waitMs draws].
    unfold onIntervalRetry.
    match goal with
    | |- context [setState ?m ?w0] =>
      assert (Hs : everySnapshot P (snd (setState m w0)) /\
                   forall st', w_state (snd (setState m w0)) = Some st' ->
                     earlierTerminal i st');
        [|destruct (setState m w0) as [[|e'] w']; simpl in Hs]
    end.
    + split.
      * apply everySnapshot_setState; [|intros s Hs; apply Hw, Hs].
        intros prev Hprev Pprev. simpl in Hprev. rewrite Est in Hprev.
        injection Hprev as <-. apply (pres_retrying P HP); assumption.
      * intros st'. rewrite setState_state. simpl. rewrite Est.
        intros [= <-]. eapply earlierTerminal_ext; [|exact Hearly].
        intros j Hj. simpl. rewrite fn_lookup_insert_ne by done. reflexivity.
    + destruct Hs as [Hs He']. split; [apply everySnapshot_delay, Hs|].
      intros st' Hst'. apply He'.
      destruct (delay_state waitMs w') as [E|E]; rewrite E in Hst';
        [exact Hst'|discriminate].
    + destruct Hs as [Hs _]. split; [exact Hs|discriminate].
  - match goal with
    | |- context [setState ?m ?w0] =>
      assert (Hs : everySnapshot P (snd (setState m w0)) /\
                   forall st', w_state (snd (setState m w0)) = Some st' ->
                     terminal (status (tasks st' i)));
        [|destruct (setState m w0) as [r w']; simpl in Hs;
          destruct Hs as [Hs Ht]; split; [exact Hs|intros _; exact Ht]]
    end.
    split.
    + apply everySnapshot_setState; [|exact Hw].
      intros prev Hprev Pprev.
      destruct (Hpre prev Hprev) as [Hnone [Hearly Hstatus]].
      apply (pres_error P HP); try assumption.
      destruct Hstatus as [Hs|[Hs _]]; auto.
    + intros st'. rewrite setState_state.
      destruct (w_state w); [|discriminate].
      intros [= <-]. simpl. rewrite fn_lookup_insert. right. reflexivity.
Qed.

Lemma kept_executeInterval (i : Interval) (script : list FetchOutcome) (w : World) :
  everySnapshot P w ->
  (forall st, w_state w = Some st -> earlierTerminal i st) ->
  everySnapshot P (snd (executeInterval i script w)) /\
  (fst (fst (executeInterval i script w)) = Some (Ok tt) ->
   forall st', w_state (snd (executeInterval i script w)) = Some st' ->
     terminal (status (tasks st' i))).
Proof.
  revert w. induction script as [|o rest IH]; intros w Hw Hearly;
    cbn [executeInterval];
    (destruct (w_state w) as [st|] eqn:Est;
       [|split; [exact Hw|intros _ st' Hst'; simpl in Hst'; congruence]]);
    (destruct (isFinishedStatus (status (tasks st i))) eqn:Hfin;
       [split; [exact Hw|];
        intros _ st' Hst'; simpl in Hst'; rewrite Est in Hst';
        injection Hst' as <-; apply isFinishedStatus_terminal, Hfin|]);
    (destruct (kept_beginAttempt i w st Hw Est
                 ltac:(apply isFinishedStatus_open, Hfin) (Hearly st eq_refl))
       as [H2 Hrun]);
    (destruct (beginAttempt i (tasks st i) w) as [[|e] w2]; simpl in H2, Hrun;
       [|split; [exact H2|discriminate]]);
    (destruct (w_state w2) as [st2|] eqn:E2;
       [|match goal with
         | |- context [setState ?m ?w0] =>
           pose proof (everySnapshot_setState P m w0) as Hs;
           pose proof (setState_state m w0) as Hnone;
           rewrite E2 in Hnone;
           destruct (setState m w0) as [r w3]; simpl in *;
           split; [apply Hs; [intros prev Hprev; congruence|exact H2]
                  |intros _ st' Hst'; congruence]
         end]);
    (destruct (newURL _) as [[]|e0];
       [|match goal with
         | |- context [setState ?m ?w0] =>
           pose proof (everySnapshot_setState P m w0) as Hs;
           pose proof (setState_state m w0) as Hst3;
           rewrite E2 in Hst3;
           destruct (setState m w0) as [r w3]; simpl in Hs, Hst3 |- *;
           split;
             [apply Hs; [|exact H2];
              intros prev Hprev Pprev;
              destruct (Hrun prev ltac:(congruence)) as [Hs1 [Hn1 He1]];
              apply (pres_error P HP); auto
             |intros _ st' Hst'; rewrite Hst3 in Hst'; injection Hst' as <-;
              right; simpl; rewrite fn_lookup_insert; reflexivity]
         end]).
  - split; [exact H2|discriminate].
  - assert (Hrun2 : forall st', w_state w2 = Some st' ->
              status (tasks st' i) = running /\ retryAtMs (tasks st' i) = None /\
              earlierTerminal i st').
    { intros st' Hst'. apply Hrun. rewrite <- E2. exact Hst'. }
    destruct (kept_tryBlock i o w2 H2 Hrun2) as [H3 Hpost].
    destruct (tryBlock i o w2) as [[|e] w3]; simpl in H3, Hpost.
    + split; [exact H3|]. intros _ st' Hst'.
      destruct (Hpost st' Hst') as [_ [_ Hd]]. left. exact Hd.
    + pose proof (kept_catchBlock i e w3 H3 Hpost) as H4.
      destruct (catchBlock i e w3) as [r w4|w4].
      * destruct H4 as [H4 Hterm]. split; [exact H4|].
        simpl. intros [= ->]. apply Hterm. reflexivity.
      * destruct H4 as [H4 He4]. apply IH; assumption.
Qed.

Lemma kept_run_loop (l : list Interval) :
  ascending l ->
  forall (script : list FetchOutcome) (w : World),
    everySnapshot P w ->
    (forall st, w_state w = Some st ->
       forall j, j ∉ l -> terminal (status (tasks st j))) ->
    everySnapshot P (snd (run_loop l script w)).
Proof.
  induction l as [|i more IH]; intros Hasc script w Hw Hpre;
    cbn [run_loop]; [exact Hw|].
  destruct Hasc as [Hlater Hsorted]. specialize (IH Hsorted).
  destruct (w_state w) as [st|] eqn:Est; [|exact Hw].
  assert (Hskip : terminal (status (tasks st i)) ->
                  forall st0, w_state w = Some st0 ->
                    forall j, j ∉ more -> terminal (status (tasks st0 j))).
  { intros Hi st0 Hst0 j Hj. rewrite Est in Hst0. injection Hst0 as <-.
    destruct (decide (j = i)) as [->|Hne]; [exact Hi|].
    apply (Hpre st eq_refl). rewrite elem_of_cons. intros [?|?]; contradiction. }
  destruct (decide (status (tasks st i) = done)) as [Hd|Hd].
  { apply IH; [exact Hw|]. apply Hskip. left. exact Hd. }
  destruct (decide (status (tasks st i) = error)) as [He|He].
  { apply IH; [exact Hw|]. apply Hskip. right. exact He. }
  assert (Hearly : forall st0, w_state w = Some st0 -> earlierTerminal i st0).
  { intros st0 Hst0 j Hj. rewrite Est in Hst0. apply (Hpre st0 Hst0).
    rewrite elem_of_cons. intros [->|Hin]; [lia|].
    rewrite Forall_forall in Hlater. specialize (Hlater j Hin). lia. }
  destruct (kept_executeInterval i script w Hw Hearly) as [H1 Hterm].
  pose proof (fun j (Hne : j <> i) => executeInterval_kept j i script w Hne) as Hkept.
  destruct (executeInterval i script w) as [[[[[]|e]|] script'] w'];
    simpl in H1, Hterm, Hkept; [|exact H1|exact H1].
  apply IH; [exact H1|].
  intros st' Hst' j Hj.
  destruct (decide (j = i)) as [->|Hne]; [apply (Hterm eq_refl st' Hst')|].
  destruct (Hkept j Hne st' Hst') as [st0 [Hst0 [Et _]]].
  rewrite Est in Hst0. rewrite Et. apply (Hpre st0 Hst0).
  rewrite elem_of_cons. intros [?|?]; contradiction.
Qed.

Lemma INTERVALS_sorted : ascending INTERVALS.
Proof.
  unfold INTERVALS. simpl.
  repeat split; repeat (apply Forall_cons; split; [simpl; lia|]);
    apply Forall_nil; exact I.
Qed.

Lemma kept_run (script : list FetchOutcome) (w : World) :
  everySnapshot P w -> everySnapshot P (snd (run script w)).
Proof.
  intros Hw. unfold run.
  destruct (w_state w); [|exact Hw].
  destruct (w_active w); [exact Hw|].
  assert (Hl : everySnapshot P
                 (snd (run_loop INTERVALS script (set_active true w)))).
  { apply kept_run_loop.
    - apply INTERVALS_sorted.
    - apply everySnapshot_set_active, Hw.
    - intros st0 _ k Hk. exfalso. apply Hk, INTERVALS_complete. }
  destruct (run_loop INTERVALS script (set_active true w)) as [[[r|] script'] w'];
    simpl in *; [apply everySnapshot_set_active, Hl|exact Hl].
Qed.

Lemma kept_startNewJob (options : StartJobOptions) (script : list FetchOutcome)
    (w : World) :
  everySnapshot P w -> everySnapshot P (snd (startNewJob options script w)).
Proof.
  intros Hw. unfold startNewJob.
  assert (Hu : everySnapshot P (snd (randomUUID w))).
  { unfold randomUUID. destruct (w_uuids w) as [|u rest]; [exact Hw|].
    intros s' Hs'. apply Hw. exact Hs'. }
  destruct (randomUUID w) as [uuid w0]. simpl in Hu.
  match goal with
  | |- context [persistAndEmit ?s0 w0] =>
    assert (Hp : everySnapshot P (snd (persistAndEmit s0 w0)));
      [|destruct (persistAndEmit s0 w0) as [[|e] w']; simpl in Hp]
  end.
  - apply everySnapshot_persistAndEmit; [|exact Hu].
    apply (pres_log P HP), (pres_start P HP); reflexivity.
  - apply kept_run, Hp.
  - exact Hp.
Qed.

Lemma kept_loadSavedState (w : World) :
  everySnapshot P w -> everySnapshot P (snd (loadSavedState w)).
Proof.
  intros Hw s. unfold loadSavedState.
  pose proof (snapshotOf_storage_get w) as Hg.
  pose proof (storage_get_frame w) as [_ [_ [_ Hsaved]]].
  destruct (storage_get w) as [[[saved|]|e] w']; simpl in *; intros Hs.
  - assert (Hin : P saved).
    { apply Hw. destruct (Hsaved saved eq_refl); unfold snapshotOf; auto. }
    apply snapshotOf_observe in Hs as [[= <-]|Hs].
    { revert Hin. apply (pres_settings P HP); reflexivity. }
    apply snapshotOf_set_state in Hs as [[= <-]|Hs].
    { revert Hin. apply (pres_settings P HP); reflexivity. }
    apply Hw, Hg, Hs.
  - apply snapshotOf_set_state in Hs as [[=]|Hs]. apply Hw, Hg, Hs.
  - apply Hw, Hg, Hs.
Qed.

Lemma kept_updateSettings (settings : Settings) (w : World) :
  everySnapshot P w -> everySnapshot P (snd (updateSettings settings w)).
Proof.
  intros Hw. unfold updateSettings.
  destruct (w_state w) eqn:E; [|exact Hw].
  apply everySnapshot_setState; [|exact Hw].
  intros prev _. apply (pres_settings P HP); reflexivity.
Qed.

Lemma kept_resumeIfNeeded (script : list FetchOutcome) (w : World) :
  everySnapshot P w -> everySnapshot P (snd (resumeIfNeeded script w)).
Proof.
  intros Hw. unfold resumeIfNeeded.
  pose proof (kept_loadSavedState w Hw) as Hl.
  destruct (loadSavedState w) as [[[saved|]|e] w']; simpl in Hl;
    [|exact Hl|exact Hl].
  destruct (autoResume saved && unfinished saved); [|exact Hl].
  match goal with
  | |- context [setState ?m w'] =>
    assert (Hs : everySnapshot P (snd (setState m w')));
      [|destruct (setState m w') as [[|e] w'']; simpl in Hs]
  end.
  - apply everySnapshot_setState; [|exact Hl].
    intros prev _. apply (pres_log P HP).
  - apply kept_run, Hs.
  - exact Hs.
Qed.

(** Induction over the public operations. *)
Lemma undisturbed_preserved (w : World) :
  undisturbed w -> everySnapshot P w.
Proof.
  induction 1 as [w Hs Ha Hi Hl Ho|w w' _ IH Hsame| | | | | ].
  - intros s [E|[E|[E|E]]]; try congruence.
    rewrite Ho in E. inversion E.
  - destruct Hsame as [Es [_ [Ei [El Eo]]]].
    intros s Hs. apply IH. unfold snapshotOf in *.
    rewrite Es, Ei, El, Eo in Hs. exact Hs.
  - apply kept_startNewJob. assumption.
  - apply kept_resumeIfNeeded. assumption.
  - apply kept_loadSavedState. assumption.
  - apply kept_updateSettings. assumption.
  - apply everySnapshot_clearSavedState. assumption.
Qed.

End Preservation.

(** ** Properties that hold however the loops interleave *)

Section Interleaving.
Context `{Host} (P : JobState -> Prop) (HS : Stable P).

Lemma stable_preserved : Preserved P.
Proof. destruct HS. constructor; auto. Qed.

Lemma stable_leave (r : Res unit) (w : World) (next : World -> Turns.Turn) :
  (forall w', everySnapshot P w' -> everySnapshot P (Turns.turn_world (next w'))) ->
  everySnapshot P w ->
  everySnapshot P (Turns.turn_world (Turns.leave r w next)).
Proof.
  intros Hnext Hw. destruct r as [[]|e]; simpl; [apply Hnext, Hw|].
  apply everySnapshot_set_active, Hw.
Qed.

Lemma stable_fail (i : Interval) (msg : string) (w : World)
    (next : World -> Turns.Turn) :
  (forall w', everySnapshot P w' -> everySnapshot P (Turns.turn_world (next w'))) ->
  everySnapshot P w ->
  everySnapshot P
    (Turns.turn_world
       (let (r, w3) := setState (toError i msg) w in Turns.leave r w3 next)).
Proof.
  intros Hnext Hw.
  assert (H3 : everySnapshot P (snd (setState (toError i msg) w))).
  { apply everySnapshot_setState; [|exact Hw].
    intros prev _. apply (stable_error P HS). }
  destruct (setState (toError i msg) w) as [r w3]. simpl in H3.
  apply stable_leave; assumption.
Qed.

Lemma stable_attempt (i : Interval) (next : World -> Turns.Turn) (w : World) :
  (forall w', everySnapshot P w' -> everySnapshot P (Turns.turn_world (next w'))) ->
  everySnapshot P w ->
  everySnapshot P (Turns.turn_world (Turns.attempt i next w)).
Proof.
  intros Hnext Hw. unfold Turns.attempt.
  assert (H2 : everySnapshot P (snd (setState (toRunning i) w))).
  { apply everySnapshot_setState; [|exact Hw].
    intros prev _. apply (stable_running P HS). }
  destruct (setState (toRunning i) w) as [[|e] w2]; simpl in H2;
    [|apply everySnapshot_set_active, H2].
  destruct (w_state w2) as [st2|]; [|apply stable_fail; assumption].
  destruct (newURL _) as [[]|e0]; [exact H2|apply stable_fail; assumption].
Qed.

Lemma stable_enter (i : Interval) (next : World -> Turns.Turn) (w : World) :
  (forall w', everySnapshot P w' -> everySnapshot P (Turns.turn_world (next w'))) ->
  everySnapshot P w ->
  everySnapshot P (Turns.turn_world (Turns.enter i next w)).
Proof.
  intros Hnext Hw. unfold Turns.enter.
  destruct (w_state w) as [st|]; [|apply Hnext, Hw].
  destruct (isFinishedStatus _); [apply Hnext, Hw|].
  destruct (mustWait _ _); [exact Hw|apply stable_attempt; assumption].
Qed.

Lemma stable_loop (l : list Interval) (w : World) :
  everySnapshot P w -> everySnapshot P (Turns.turn_world (Turns.loop l w)).
Proof.
  revert w. induction l as [|i more IH]; intros w Hw; cbn [Turns.loop].
  - apply everySnapshot_set_active, Hw.
  - destruct (w_state w) as [st|]; [|apply everySnapshot_set_active, Hw].
    destruct (decide _); [apply IH, Hw|].
    destruct (decide _); [apply IH, Hw|].
    apply stable_enter; [exact IH|exact Hw].
Qed.

Lemma stable_run (w : World) :
  everySnapshot P w -> everySnapshot P (Turns.turn_world (Turns.run w)).
Proof.
  intros Hw. unfold Turns.run.
  destruct (w_state w); [|exact Hw].
  destruct (w_active w); [exact Hw|].
  apply stable_loop, everySnapshot_set_active, Hw.
Qed.

Lemma stable_startNewJob (options : StartJobOptions) (w : World) :
  everySnapshot P w ->
  everySnapshot P (Turns.turn_world (Turns.startNewJob options w)).
Proof.
  intros Hw. unfold Turns.startNewJob.
  assert (Hu : everySnapshot P (snd (randomUUID w))).
  { unfold randomUUID. destruct (w_uuids w) as [|u rest]; [exact Hw|].
    intros s' Hs'. apply Hw. exact Hs'. }
  destruct (randomUUID w) as [uuid w0]. simpl in Hu.
  match goal with
  | |- context [persistAndEmit ?s0 w0] =>
    assert (Hp : everySnapshot P (snd (persistAndEmit s0 w0)));
      [|destruct (persistAndEmit s0 w0) as [[|e] w']; simpl in Hp]
  end.
  - apply everySnapshot_persistAndEmit; [|exact Hu].
    apply (stable_log P HS), (stable_start P HS); reflexivity.
  - apply stable_run, Hp.
  - exact Hp.
Qed.

Lemma stable_resumeIfNeeded (w : World) :
  everySnapshot P w ->
  everySnapshot P (Turns.turn_world (Turns.resumeIfNeeded w)).
Proof.
  intros Hw. unfold Turns.resumeIfNeeded.
  pose proof (kept_loadSavedState P stable_preserved w Hw) as Hl.
  destruct (loadSavedState w) as [[[saved|]|e] w']; simpl in Hl;
    [|exact Hl|exact Hl].
  destruct (autoResume saved && unfinished saved); [|exact Hl].
  match goal with
  | |- context [setState ?m w'] =>
    assert (Hs : everySnapshot P (snd (setState m w')));
      [|destruct (setState m w') as [[|e] w'']; simpl in Hs]
  end.
  - apply everySnapshot_setState; [|exact Hl].
    intros prev _. apply (stable_log P HS).
  - apply stable_run, Hs.
  - exact Hs.
Qed.

Lemma stable_tryBlock (i : Interval) (o : FetchOutcome) (w : World) :
  everySnapshot P w -> everySnapshot P (snd (tryBlock i o w)).
Proof.
  intros Hw. unfold tryBlock, onIntervalSuccess.
  destruct (fetchKlines_request (w_now w) o) as [candles|e]; [|exact Hw].
  apply everySnapshot_setState; [|exact Hw].
  intros prev _. apply (stable_done P HS).
Qed.

Lemma stable_handle (i : Interval) (e : Exn) (w : World) :
  everySnapshot P w ->
  match handle i e w with
  | Handles _ w' => everySnapshot P w'
  | Waits _ w' => everySnapshot P w'
  end.
Proof.
  intros Hw. unfold handle.
  destruct (isRetryable e) as [err|].
  - destruct (w_state w) as [st|] eqn:Est; [|exact Hw].
    destruct (computeRetryDelayMs _ _ _) as [waitMs draws].
    unfold onIntervalRetry.
    match goal with
    | |- context [setState ?m ?w0] =>
      assert (Hs : everySnapshot P (snd (setState m w0)));
        [|destruct (setState m w0) as [[|e'] w']; exact Hs]
    end.
    apply everySnapshot_setState.
    + intros prev Hprev. simpl in Hprev. rewrite Est in Hprev.
      injection Hprev as <-. apply (stable_retrying P HS).
    + intros s Hs. apply Hw. exact Hs.
  - match goal with
    | |- context [setState ?m ?w0] =>
      assert (Hs : everySnapshot P (snd (setState m w0)));
        [|destruct (setState m w0) as [r w']; exact Hs]
    end.
    apply everySnapshot_setState; [|exact Hw].
    intros prev _. apply (stable_error P HS).
Qed.

Lemma stable_answered (i : Interval) (o : FetchOutcome) (w : World) :
  everySnapshot P w ->
  everySnapshot P (Turns.turn_world (Turns.answered i o w)).
Proof.
  intros Hw. unfold Turns.answered.
  pose proof (stable_tryBlock i o w Hw) as H3.
  destruct (tryBlock i o w) as [[|e] w3]; simpl in H3;
    [apply stable_loop, H3|].
  pose proof (stable_handle i e w3 H3) as H4.
  destruct (handle i e w3) as [r w4|ms w4]; [|exact H4].
  apply stable_leave; [|exact H4]. intros w'. apply stable_loop.
Qed.

Lemma stable_fired (p : Turns.Parked) (w : World) :
  everySnapshot P w ->
  everySnapshot P (Turns.turn_world (Turns.fired p w)).
Proof.
  intros Hw. destruct p as [i|i ms|i ms]; simpl.
  - exact Hw.
  - apply stable_attempt; [|exact Hw]. intros w'. apply stable_loop.
  - apply stable_enter; [|exact Hw]. intros w'. apply stable_loop.
Qed.

(** Induction over the public operations and the turns of the loops. *)
Lemma reachable_stable (w : World) :
  reachable w -> everySnapshot P w.
Proof.
  induction 1 as [w Hs Ha Hi Hl Ho|w w' _ IH Hsame| | | | | | | | | ].
  - intros s [E|[E|[E|E]]]; try congruence.
    rewrite Ho in E. inversion E.
  - destruct Hsame as [Es [_ [Ei [El Eo]]]].
    intros s Hs. apply IH. unfold snapshotOf in *.
    rewrite Es, Ei, El, Eo in Hs. exact Hs.
  - apply (kept_startNewJob P stable_preserved). assumption.
  - apply (kept_resumeIfNeeded P stable_preserved). assumption.
  - apply (kept_loadSavedState P stable_preserved). assumption.
  - apply (kept_updateSettings P stable_preserved). assumption.
  - apply everySnapshot_clearSavedState. assumption.
  - apply stable_startNewJob. assumption.
  - apply stable_resumeIfNeeded. assumption.
  - apply stable_answered. assumption.
  - apply stable_fired. assumption.
Qed.

End Interleaving.

(** ** The log *)

Section Log.
Context `{Host}.

Lemma withLog_logs (now : Z) (s : JobState) (msg : string) :
  logs (withLog now s msg) `suffix_of` (logs s ++ [formatLog now msg]) /\
  last (logs (withLog now s msg)) = Some (formatLog now msg) /\
  (length (logs (withLog now s msg)) <= MAX_LOGS)%nat.
Proof.
  simpl. unfold slice_last, MAX_LOGS. split; [apply suffix_drop|]. split.
  - rewrite drop_app_le by (rewrite length_app; simpl; lia).
    apply last_snoc.
  - rewrite length_drop. lia.
Qed.

Lemma logBounded_stable : Stable logBounded.
Proof.
  split; unfold logBounded.
  - intros s _ _ ->. simpl. unfold MAX_LOGS. lia.
  - intros now s msg _. apply withLog_logs.
  - intros s s' _ _ ->. auto.
  - intros i now s Hs. exact Hs.
  - intros i candles now s _. unfold toDone. apply withLog_logs.
  - intros i at_ waitSec msg now s _. unfold toRetrying. apply withLog_logs.
  - intros i msg now s _. unfold toError. apply withLog_logs.
Qed.

(** X14: the log is bounded: adding a line keeps the newest 50 lines in their
    order, the new line last; and no snapshot of a reachable world, in
    memory, stored or observed, has more than 50 lines. *)
Theorem log_never_exceeds_50 (w : World) (s : JobState) :
  reachable w -> snapshotOf w s ->
  (length (logs s) <= 50)%nat /\
  forall now msg,
    logs (withLog now s msg) `suffix_of` (logs s ++ [formatLog now msg]) /\
    last (logs (withLog now s msg)) = Some (formatLog now msg) /\
    (length (logs (withLog now s msg)) <= 50)%nat.
Proof.
  intros Hreach Hs. split.
  - apply (reachable_stable logBounded logBounded_stable w Hreach s Hs).
  - intros now msg. apply withLog_logs.
Qed.

End Log.

Lemma log_never_exceeds_50_witness :
  exists s,
    w_state Sample.finished = Some s /\ (length (logs s) <= 50)%nat.
Proof.
  destruct (w_state Sample.finished) as [s|] eqn:Es.
  - destruct (log_never_exceeds_50 (H := Scenario.browser) Sample.finished s
                (reach_startNewJob _ _ _
                   (reach_fresh (Scenario.fresh [] [] [] [])
                      eq_refl eq_refl eq_refl eq_refl eq_refl))
                (or_introl Es)) as [Hlen _].
    exists s. split; [reflexivity|exact Hlen].
  - exfalso. revert Es. vm_compute. discriminate.
Defined.

(** ** The fields of a task, and the order of the series *)

Section Shape.
Context `{Host}.

(** A run that nothing disturbs is one of the runs of the program. *)
Lemma undisturbed_reachable (w : World) : undisturbed w -> reachable w.
Proof.
  induction 1.
  - apply reach_fresh; assumption.
  - eapply reach_env; eassumption.
  - apply reach_startNewJob; assumption.
  - apply reach_resumeIfNeeded; assumption.
  - apply reach_loadSavedState; assumption.
  - apply reach_updateSettings; assumption.
  - apply reach_clearSavedState; assumption.
Qed.

Lemma doneCarriesBatch_update (prev s : JobState) (i : Interval)
    (t : IntervalTaskState) :
  tasks s = <[i := t]> (tasks prev) ->
  (forall j, j <> i -> data s j = data prev j) ->
  (status t = done ->
   exists batch, data s i = Some batch /\
     count t = Some (Z.of_nat (length batch)) /\
     errorMessage t =
       (if decide (length batch < 1000)%nat
        then Some "Returned fewer than 1000 candles" else None)) ->
  doneCarriesBatch prev -> doneCarriesBatch s.
Proof.
  intros Ht Hd Hb Hprev j. rewrite Ht.
  destruct (decide (j = i)) as [->|Hne].
  - rewrite fn_lookup_insert. exact Hb.
  - rewrite fn_lookup_insert_ne by done. rewrite Hd by done. apply Hprev.
Qed.

Lemma doneCarriesBatch_stable : Stable doneCarriesBatch.
Proof.
  split.
  - intros s Ht _ _ i Hi. rewrite Ht in Hi. discriminate Hi.
  - intros now s msg Hs i. apply (Hs i).
  - intros s s' Ht Hd _ Hs i. rewrite Ht, Hd. apply (Hs i).
  - intros i now s.
    eapply (doneCarriesBatch_update s); [reflexivity|reflexivity|].
    simpl. discriminate.
  - intros i candles now s.
    eapply (doneCarriesBatch_update s); [reflexivity| |].
    + intros j Hj. simpl. rewrite fn_lookup_insert_ne by done. reflexivity.
    + intros _. exists candles. simpl. rewrite fn_lookup_insert. auto.
  - intros i at_ waitSec msg now s.
    eapply (doneCarriesBatch_update s); [reflexivity|reflexivity|].
    simpl. discriminate.
  - intros i msg now s.
    eapply (doneCarriesBatch_update s); [reflexivity|reflexivity|].
    simpl. discriminate.
Qed.

Lemma statusCarries_update (prev s : JobState) (i : Interval)
    (t : IntervalTaskState) :
  tasks s = <[i := t]> (tasks prev) ->
  (forall j, j <> i -> data s j = data prev j) ->
  (0 <= attempts t /\
   match status t with
   | pending =>
     attempts t = 0 /\ retryAtMs t = None /\ errorMessage t = None /\
     count t = None /\ data s i = None
   | running => retryAtMs t = None /\ errorMessage t = None
   | retrying =>
     retryAtMs t <> None /\ errorMessage t <> None /\ 1 <= attempts t
   | done => retryAtMs t = None /\ count t <> None /\ data s i <> None
   | error => errorMessage t <> None
   end) ->
  statusCarries prev -> statusCarries s.
Proof.
  intros Ht Hd Hi Hprev j. cbv zeta. rewrite Ht.
  destruct (decide (j = i)) as [->|Hne].
  - rewrite fn_lookup_insert. exact Hi.
  - rewrite fn_lookup_insert_ne by done. rewrite Hd by done. apply Hprev.
Qed.

Lemma statusCarries_stable : Stable statusCarries.
Proof.
  split.
  - intros s Ht Hd _ i. cbv zeta. rewrite Ht, Hd. simpl. repeat split; lia.
  - intros now s msg Hs i. apply (Hs i).
  - intros s s' Ht Hd _ Hs i. cbv zeta. rewrite Ht, Hd. apply (Hs i).
  - intros i now s Hs.
    eapply (statusCarries_update s); [reflexivity|reflexivity| |exact Hs].
    simpl. pose proof (Hs i) as [Hi _]. auto.
  - intros i candles now s Hs.
    eapply (statusCarries_update s); [reflexivity| | |exact Hs].
    + intros j Hj. simpl. rewrite fn_lookup_insert_ne by done. reflexivity.
    + simpl. rewrite fn_lookup_insert. pose proof (Hs i) as [Hi _].
      repeat split; try discriminate. exact Hi.
  - intros i at_ waitSec msg now s Hs.
    eapply (statusCarries_update s); [reflexivity|reflexivity| |exact Hs].
    simpl. pose proof (Hs i) as [Hi _].
    repeat split; try discriminate; lia.
  - intros i msg now s Hs.
    eapply (statusCarries_update s); [reflexivity|reflexivity| |exact Hs].
    simpl. pose proof (Hs i) as [Hi _].
    repeat split; try discriminate. exact Hi.
Qed.

Lemma fieldsConsistent_update (prev s : JobState) (i : Interval)
    (t : IntervalTaskState) :
  tasks s = <[i := t]> (tasks prev) ->
  (forall j, j <> i -> data s j = data prev j) ->
  (0 <= attempts t /\
   match status t with
   | pending =>
     attempts t = 0 /\ retryAtMs t = None /\ errorMessage t = None /\
     count t = None /\ data s i = None
   | running =>
     retryAtMs t = None /\ errorMessage t = None /\
     count t = None /\ data s i = None
   | retrying =>
     retryAtMs t <> None /\ errorMessage t <> None /\ 1 <= attempts t /\
     count t = None /\ data s i = None
   | done => retryAtMs t = None /\ count t <> None /\ data s i <> None
   | error => retryAtMs t = None /\ errorMessage t <> None
   end) ->
  fieldsConsistent prev -> fieldsConsistent s.
Proof.
  intros Ht Hd Hi Hprev j. cbv zeta. rewrite Ht.
  destruct (decide (j = i)) as [->|Hne].
  - rewrite fn_lookup_insert. exact Hi.
  - rewrite fn_lookup_insert_ne by done. rewrite Hd by done. apply Hprev.
Qed.

Lemma fieldsConsistent_preserved : Preserved fieldsConsistent.
Proof.
  split.
  - intros s Ht Hd _ i. cbv zeta. rewrite Ht, Hd. simpl. repeat split; lia.
  - intros now s msg Hs i. apply (Hs i).
  - intros s s' Ht Hd _ Hs i. cbv zeta. rewrite Ht, Hd. apply (Hs i).
  - intros i now s Hopen _ Hs.
    eapply (fieldsConsistent_update s); [reflexivity|reflexivity| |exact Hs].
    simpl. pose proof (Hs i) as Hi. cbv zeta in Hi.
    destruct (status (tasks s i)); try (exfalso; apply Hopen; unfold terminal; auto; fail);
      intuition.
  - intros i candles now s Hrun _ Hs.
    eapply (fieldsConsistent_update s); [reflexivity| | |exact Hs].
    + intros j Hj. simpl. rewrite fn_lookup_insert_ne by done. reflexivity.
    + simpl. rewrite fn_lookup_insert. pose proof (Hs i) as Hi. cbv zeta in Hi.
      repeat split; try discriminate. apply Hi.
  - intros i at_ waitSec msg now s Hrun _ Hs.
    eapply (fieldsConsistent_update s); [reflexivity|reflexivity| |exact Hs].
    simpl. pose proof (Hs i) as Hi. cbv zeta in Hi. rewrite Hrun in Hi.
    repeat split; try discriminate; try lia; apply Hi.
  - intros i msg now s Hstatus Hnone _ Hs.
    eapply (fieldsConsistent_update s); [reflexivity|reflexivity| |exact Hs].
    simpl. pose proof (Hs i) as Hi. cbv zeta in Hi.
    repeat split; try discriminate; try assumption. apply Hi.
Qed.

(** X15: the fields of a task and its status.  In every snapshot of a
    reachable world, however the turns of the loops follow one another, a
    [pending] series is untouched (no attempts, no retry time, no message,
    no count, no batch); a [running] series has no retry time and no
    message; a [retrying] series has a retry time, a message and at least
    one attempt; a [done] series has a count and a batch and no retry
    time; an [error] series has a message; the attempt counter is never
    negative.  When each loop is left to itself, moreover, a [running] or
    [retrying] series has no count and no batch and an [error] series no
    retry time, so that a batch or a count is only found on a terminal
    series. *)
Theorem task_fields_fit_status (w : World) (s : JobState) :
  snapshotOf w s ->
  (reachable w -> statusCarries s) /\
  (undisturbed w ->
   fieldsConsistent s /\
   forall i, (data s i <> None \/ count (tasks s i) <> None) ->
             terminal (status (tasks s i))).
Proof.
  intros Hs. split.
  - intros Hreach.
    apply (reachable_stable statusCarries statusCarries_stable w Hreach s Hs).
  - intros Hund.
    pose proof (undisturbed_preserved fieldsConsistent fieldsConsistent_preserved
                  w Hund s Hs) as Hf.
    split; [exact Hf|]. intros i Hi. pose proof (Hf i) as Hfi. cbv zeta in Hfi.
    unfold terminal.
    destruct (status (tasks s i)); auto; exfalso;
      destruct Hfi as [_ Hfi]; destruct Hi as [Hi|Hi]; apply Hi; apply Hfi.
Qed.

Lemma inOrder_preserved : Preserved inOrder.
Proof.
  assert (Hmut : forall (prev s : JobState) (i : Interval) (t : IntervalTaskState),
    tasks s = <[i := t]> (tasks prev) ->
    earlierTerminal i prev ->
    (terminal (status t) \/ ~ terminal (status (tasks prev i))) ->
    status t <> pending \/ status (tasks prev i) = pending ->
    inOrder prev -> inOrder s).
  { intros prev s i t Ht Hearly Hterm Hnp Hprev a b Hab. rewrite Ht.
    destruct (decide (b = i)) as [->|Hb].
    - intros _. rewrite fn_lookup_insert_ne by (intros ->; lia).
      apply Hearly, Hab.
    - rewrite (fn_lookup_insert_ne _ i b) by done. intros Hbnp.
      destruct (decide (a = i)) as [->|Ha].
      + rewrite fn_lookup_insert.
        destruct Hterm as [Hterm|Hopen]; [exact Hterm|].
        exfalso. apply Hopen. apply (Hprev i b Hab Hbnp).
      + rewrite fn_lookup_insert_ne by done. apply (Hprev a b Hab Hbnp). }
  split.
  - intros s Ht _ _ a b _ Hb. exfalso. apply Hb. rewrite Ht. reflexivity.
  - intros now s msg Hs. exact Hs.
  - intros s s' Ht _ _ Hs a b. rewrite Ht. apply Hs.
  - intros i now s Hopen Hearly.
    eapply (Hmut s); [reflexivity|exact Hearly|right; exact Hopen|left; discriminate].
  - intros i candles now s _ Hearly.
    eapply (Hmut s); [reflexivity|exact Hearly|left; left; reflexivity|left; discriminate].
  - intros i at_ waitSec msg now s Hrun Hearly.
    eapply (Hmut s); [reflexivity|exact Hearly| |left; discriminate].
    right. rewrite Hrun. intros [E|E]; discriminate E.
  - intros i msg now s _ _ Hearly.
    eapply (Hmut s); [reflexivity|exact Hearly|left; right; reflexivity|left; discriminate].
Qed.

(** X16: when each loop is left to itself, the series are worked on one at
    a time and in the configured order: in every snapshot of an
    undisturbed world a series that has left [pending] has only [done] and
    [error] series before it; hence at most one series is [running] or
    [retrying], and every series after it is still [pending]. *)
Theorem one_series_at_a_time (w : World) (s : JobState) :
  undisturbed w -> snapshotOf w s ->
  inOrder s /\
  (forall i j,
     status (tasks s i) = running \/ status (tasks s i) = retrying ->
     status (tasks s j) = running \/ status (tasks s j) = retrying ->
     i = j) /\
  (forall i j,
     status (tasks s i) = running \/ status (tasks s i) = retrying ->
     (rank i < rank j)%nat -> status (tasks s j) = pending).
Proof.
  intros Hreach Hs.
  pose proof (undisturbed_preserved inOrder inOrder_preserved w Hreach s Hs) as Ho.
  assert (Hlater : forall i j,
            status (tasks s i) = running \/ status (tasks s i) = retrying ->
            (rank i < rank j)%nat -> status (tasks s j) = pending).
  { intros i j Hi Hij.
    destruct (decide (status (tasks s j) = pending)) as [E|E]; [exact E|].
    exfalso. destruct (Ho i j Hij E) as [Ht|Ht], Hi as [Hi|Hi]; congruence. }
  split; [exact Ho|]. split; [|exact Hlater].
  intros i j Hi Hj.
  destruct (lt_eq_lt_dec (rank i) (rank j)) as [[Hlt|Heq]|Hgt].
  - pose proof (Hlater i j Hi Hlt) as E. destruct Hj; congruence.
  - apply rank_inj, Heq.
  - pose proof (Hlater j i Hj Hgt) as E. destruct Hi; congruence.
Qed.

End Shape.

Lemma task_fields_fit_status_witness :
  exists s, w_state Sample.finished = Some s /\ statusCarries s.
Proof.
  destruct (w_state Sample.finished) as [s|] eqn:Es.
  - destruct (task_fields_fit_status (H := Scenario.browser) Sample.finished s
                (or_introl Es)) as [Hcarries _].
    exists s. split; [reflexivity|]. apply Hcarries.
    apply reach_startNewJob, reach_fresh; reflexivity.
  - exfalso. revert Es. vm_compute. discriminate.
Defined.

Lemma one_series_at_a_time_witness :
  exists s, w_state Sample.finished = Some s /\ inOrder s.
Proof.
  destruct (w_state Sample.finished) as [s|] eqn:Es.
  - destruct (one_series_at_a_time (H := Scenario.browser) Sample.finished s
                (und_startNewJob _ _ _
                   (und_fresh (Scenario.fresh [] [] [] [])
                      eq_refl eq_refl eq_refl eq_refl eq_refl))
                (or_introl Es)) as [Ho _].
    exists s. split; [reflexivity|exact Ho].
  - exfalso. revert Es. vm_compute. discriminate.
Defined.

(** ** The advisory message of a short batch *)

(** C10: a batch of fewer than 1000 records makes the series [done] with
    the advisory text in [errorMessage]; in every snapshot of a reachable
    world a [done] series holds its batch and has no [errorMessage]
    exactly when the batch has 1000 records or more, the advisory text
    exactly when it has fewer; and such a [done] series with an
    [errorMessage] is reached. *)
Theorem advisory_on_done_series :
  (forall (H : Host) i candles now prev,
     (length candles < 1000)%nat ->
     status (tasks (toDone i candles now prev) i) = done /\
     errorMessage (tasks (toDone i candles now prev) i)
     = Some "Returned fewer than 1000 candles") /\
  (forall (H : Host) w s i,
     reachable w -> snapshotOf w s -> status (tasks s i) = done ->
     exists batch,
       data s i = Some batch /\
       (errorMessage (tasks s i) = None <-> (1000 <= length batch)%nat) /\
       (errorMessage (tasks s i) = Some "Returned fewer than 1000 candles"
        <-> (length batch < 1000)%nat)) /\
  (exists w s,
     reachable (H := Scenario.browser) w /\ snapshotOf w s /\
     status (tasks s I1m) = done /\
     errorMessage (tasks s I1m) = Some "Returned fewer than 1000 candles").
Proof.
  split; [|split].
  - intros H i candles now prev Hlen. simpl. rewrite fn_lookup_insert. simpl.
    destruct (decide (length candles < 1000)%nat); [auto|lia].
  - intros H w s i Hreach Hs Hdone.
    pose proof (reachable_stable doneCarriesBatch doneCarriesBatch_stable
                  w Hreach s Hs) as Hb.
    destruct (Hb i Hdone) as [batch [Hd [_ He]]].
    exists batch. split; [exact Hd|]. rewrite He.
    destruct (decide (length batch < 1000)%nat); split; split;
      intros; try lia; try discriminate; reflexivity.
  - set (w := snd (startNewJob (H := Scenario.browser) Scenario.btc
                     [Scenario.okResponse 3] (Scenario.fresh [] [] [] []))).
    assert (Hreach : reachable (H := Scenario.browser) w).
    { apply reach_startNewJob, reach_fresh; reflexivity. }
    destruct (w_state w) as [s|] eqn:Es;
      [|exfalso; revert Es; vm_compute; discriminate].
    exists w, s. split; [exact Hreach|]. split; [left; exact Es|].
    revert Es. vm_compute. intros [= <-]. split; reflexivity.
Qed.

Lemma advisory_on_done_series_witness :
  let w :=
    snd (startNewJob (H := Scenario.browser) Scenario.btc
           [Scenario.okResponse 3] (Scenario.fresh [] [] [] [])) in
  exists s batch,
    w_state w = Some s /\ status (tasks s I1m) = done /\
    data s I1m = Some batch /\
    (errorMessage (tasks s I1m) = Some "Returned fewer than 1000 candles"
     <-> (length batch < 1000)%nat).
Proof.
  intros w.
  assert (Hreach : reachable (H := Scenario.browser) w).
  { apply reach_startNewJob, reach_fresh; reflexivity. }
  destruct (w_state w) as [s|] eqn:Es;
    [|exfalso; revert Es; vm_compute; discriminate].
  assert (Hdone : status (tasks s I1m) = done).
  { revert Es. vm_compute. intros [= <-]. reflexivity. }
  destruct advisory_on_done_series as [_ [Hinv _]].
  destruct (Hinv Scenario.browser w s I1m Hreach (or_introl Es) Hdone)
    as [batch [Hdata [_ Hshort]]].
  exists s, batch. split; [reflexivity|]. split; [exact Hdone|].
  split; [exact Hdata|exact Hshort].
Defined.

(** ** The retry time of a series that two loops work on *)

(** C8 fails on the code.  The page is loaded over a saved job whose
    first series is unfinished: [resumeIfNeeded] starts a loop, which is
    suspended on the fetch of that series.  The user clears the job, which
    lowers the run flag while that loop is still suspended, and starts a
    second job, whose loop is suspended on the fetch of the same series.
    The fetch of the first loop fails with a retryable error: its handler
    records the retry, with a retry time, on the series of the second job.
    The fetch of the second loop fails with an error that is not
    retryable: the mutator of lines 242-246 sets the status [error] and,
    unlike the mutators for [running] and [done], leaves the retry time.
    The snapshot with the series in [error] and a retry time is in
    memory, in the store, and was handed to the observer. *)
Lemma error_series_keeps_retry_time :
  let stopped :=
    snd (startNewJob (H := Scenario.browser) Scenario.btc []
           (Scenario.fresh [] [] [] [])) in
  let first :=
    Turns.resumeIfNeeded (H := Scenario.browser) (Scenario.reload stopped [] []) in
  let cleared :=
    snd (clearSavedState (H := Scenario.browser) (Turns.turn_world first)) in
  let second := Turns.startNewJob (H := Scenario.browser) Scenario.btc cleared in
  let retried :=
    Turns.answered (H := Scenario.browser) I1m Sample.overloaded
      (Turns.turn_world second) in
  let failed :=
    Turns.answered (H := Scenario.browser) I1m Sample.rejected
      (Turns.turn_world retried) in
  let final := Turns.turn_world failed in
  let seen := fun s : JobState =>
    (id s, status (tasks s I1m), retryAtMs (tasks s I1m)) in
  Turns.parked first = Some (Turns.AtFetch I1m) /\
  seen <$> w_state (Turns.turn_world first) = Some ("job-1", running, None) /\
  w_state cleared = None /\ w_active cleared = false /\
  Turns.parked second = Some (Turns.AtFetch I1m) /\
  seen <$> w_state (Turns.turn_world second) = Some ("job-2", running, None) /\
  Turns.parked retried = Some (Turns.AtRetryTimer I1m 2000) /\
  seen <$> w_state (Turns.turn_world retried) = Some ("job-2", retrying, Some 3000) /\
  Turns.parked failed = Some (Turns.AtFetch I5m) /\
  seen <$> w_state final = Some ("job-2", error, Some 3000) /\
  seen <$> w_idb final = Some ("job-2", error, Some 3000) /\
  seen <$> default None (last (w_observed final)) = Some ("job-2", error, Some 3000).
Proof. vm_compute. repeat split; reflexivity. Qed.

(** ** What is saved is what a reload finds *)

Section Reload.
Context `{Host}.

Lemma persistAndEmit_tiers (s : JobState) (w : World) :
  w_idb (snd (persistAndEmit s w)) = w_idb (snd (storage_set s (set_state (Some s) w))) /\
  w_local (snd (persistAndEmit s w)) = w_local (snd (storage_set s (set_state (Some s) w))).
Proof.
  unfold persistAndEmit.
  destruct (storage_set s (set_state (Some s) w)) as [[[]|e] w']; auto.
Qed.

(** A [get] that the fallback tier does not fail is answered by the tier
    that is in use. *)
Lemma storage_get_answers (w : World) :
  ~ fallbackFails w ->
  (primaryFails w /\ fst (storage_get w) = Ok (w_local w)) \/
  (~ primaryFails w /\ fst (storage_get w) = Ok (w_idb w)).
Proof.
  unfold primaryFails, fallbackFails. intros Hf.
  storage_cases w; try (exfalso; apply Hf; solve [eauto]);
    first [ left; split; [solve [eauto]|reflexivity]
          | right; split; [|reflexivity];
            intros [E|[f [r E]]]; discriminate E ].
Qed.

(** X17: durability: a snapshot whose write resolved is what [loadSavedState]
    returns when the page is loaded again over the storage as the write
    left it, with the same tier in use and the fallback tier not failing:
    the loaded job is the saved one with an empty time zone replaced by
    the default, it becomes the job in memory and the observer receives
    it; tasks, batches and log are the saved ones. *)
Theorem saved_job_is_loaded (s : JobState) (w later : World) :
  fst (persistAndEmit s w) = Ok tt ->
  w_idb later = w_idb (snd (persistAndEmit s w)) ->
  w_local later = w_local (snd (persistAndEmit s w)) ->
  (primaryFails w <-> primaryFails later) ->
  ~ fallbackFails later ->
  exists loaded w',
    loadSavedState later = (Ok (Some loaded), w') /\
    w_state w' = Some loaded /\
    w_observed w' = w_observed later ++ [Some loaded] /\
    timezone loaded =
      (if decide (timezone s = "") then DEFAULT_TIMEZONE else timezone s) /\
    id loaded = id s /\ symbol loaded = symbol s /\
    proxyBaseUrl loaded = proxyBaseUrl s /\ autoResume loaded = autoResume s /\
    createdAtISO loaded = createdAtISO s /\ updatedAtISO loaded = updatedAtISO s /\
    tasks loaded = tasks s /\ data loaded = data s /\ logs loaded = logs s /\
    unfinished loaded = unfinished s.
Proof.
  intros Hok Ei El Hsame Hf.
  rewrite persistAndEmit_result in Hok.
  destruct (persistAndEmit_tiers s w) as [Ei' El'].
  rewrite Ei' in Ei. rewrite El' in El.
  assert (Hstored : fst (storage_get later) = Ok (Some s)).
  { destruct (storage_get_answers later Hf) as [[Hp Hg]|[Hp Hg]];
      destruct (storage_set_tier s (set_state (Some s) w) Hok)
        as [[Hp0 Hv]|[Hp0 Hv]].
    - rewrite Hg, El, Hv. reflexivity.
    - exfalso. apply Hp0. apply Hsame in Hp. exact Hp.
    - exfalso. apply Hp. apply Hsame. exact Hp0.
    - rewrite Hg, Ei, Hv. reflexivity. }
  unfold loadSavedState.
  pose proof (storage_get_frame later) as [[_ [_ [Ho _]]] _].
  destruct (storage_get later) as [[[saved|]|e] w'];
    simpl in Hstored; try discriminate Hstored.
  injection Hstored as ->. simpl in Ho.
  eexists _, _. split; [reflexivity|]. simpl. rewrite Ho.
  repeat split; reflexivity.
Qed.

End Reload.

Lemma saved_job_is_loaded_witness :
  exists loaded w',
    loadSavedState (H := Scenario.browser)
      (Scenario.reload
         (snd (persistAndEmit (H := Scenario.browser) Sample.job
                 (Scenario.fresh [] [] [] []))) [] [])
    = (Ok (Some loaded), w') /\
    tasks loaded = tasks Sample.job.
Proof.
  destruct (saved_job_is_loaded (H := Scenario.browser) Sample.job
              (Scenario.fresh [] [] [] [])
              (Scenario.reload
                 (snd (persistAndEmit (H := Scenario.browser) Sample.job
                         (Scenario.fresh [] [] [] []))) [] []))
    as [loaded [w' [E [_ [_ [_ [_ [_ [_ [_ [_ [_ [Ht _]]]]]]]]]]]]].
  - reflexivity.
  - reflexivity.
  - reflexivity.
  - split; intros [E|[f [r E]]]; discriminate E.
  - intros [f [r E]]. discriminate E.
  - exists loaded, w'. split; [exact E|exact Ht].
Defined.

(** ** A change of settings *)

Section SettingsChange.
Context `{Host}.

(** X18: [updateSettings] does nothing without a job; with a job it replaces
    only the settings that are given and the time of update: the tasks,
    the batches, the log, the identity of the job and the run flag are as
    before, and no line of log is written. *)
Theorem updateSettings_keeps_progress (settings : Settings) (w : World) :
  (w_state w = None -> updateSettings settings w = (Ok tt, w)) /\
  (forall st, w_state w = Some st ->
     exists st',
       w_state (snd (updateSettings settings w)) = Some st' /\
       tasks st' = tasks st /\ data st' = data st /\ logs st' = logs st /\
       id st' = id st /\ symbol st' = symbol st /\
       createdAtISO st' = createdAtISO st /\
       proxyBaseUrl st' = default (proxyBaseUrl st) (s_proxyBaseUrl settings) /\
       autoResume st' = default (autoResume st) (s_autoResume settings) /\
       timezone st' = default (timezone st) (s_timezone settings) /\
       unfinished st' = unfinished st /\
       w_active (snd (updateSettings settings w)) = w_active w /\
       w_now (snd (updateSettings settings w)) = w_now w).
Proof.
  split.
  - intros E. unfold updateSettings. rewrite E. reflexivity.
  - intros st Hst. unfold updateSettings. rewrite Hst.
    match goal with
    | |- context [setState ?m w] =>
      pose proof (setState_state m w) as Hs;
      destruct (setState_frame m w) as [Hn [Ha _]]
    end.
    rewrite Hst in Hs.
    eexists. split; [exact Hs|]. simpl.
    repeat split; assumption || reflexivity.
Qed.

End SettingsChange.

Lemma updateSettings_keeps_progress_witness :
  exists st',
    w_state (snd (updateSettings (H := Scenario.browser)
                    {| s_proxyBaseUrl := Some "https://proxy.example";
                       s_autoResume := None; s_timezone := None |}
                    Sample.started)) = Some st' /\
    tasks st' = tasks Sample.job /\
    proxyBaseUrl st' = "https://proxy.example" /\ autoResume st' = true.
Proof.
  destruct (updateSettings_keeps_progress (H := Scenario.browser)
              {| s_proxyBaseUrl := Some "https://proxy.example";
                 s_autoResume := None; s_timezone := None |}
              Sample.started) as [_ Hjob].
  destruct (Hjob Sample.job eq_refl)
    as [st' [Hst [Ht [_ [_ [_ [_ [_ [Hp [Ha _]]]]]]]]]].
  exists st'. split; [exact Hst|]. split; [exact Ht|].
  split; [exact Hp|exact Ha].
Defined.

(** ** What the page shows ([label], the download flags) *)

Section Display.
Context `{Host}.

Lemma ceilSeconds_le (ms k : Z) : ms <= 1000 * k -> ceilSeconds ms <= k.
Proof.
  intros Hle. unfold ceilSeconds.
  assert (- k <= (- ms) `div` 1000); [|lia].
  apply Z.div_le_lower_bound; lia.
Qed.

(** X19: the line of a series on every snapshot that a reachable world holds:
    a finished series always shows the length of its stored batch, never
    the default [0]; a failed series always shows a recorded message,
    never the default [Unknown]; a series waiting for a retry shows a
    countdown that is never negative. *)
Theorem label_of_snapshot (w : World) (s : JobState) (i : Interval) (nowMs : Z) :
  reachable w -> snapshotOf w s ->
  match status (tasks s i) with
  | pending => label s i nowMs = "pending"
  | running => label s i nowMs = "running"
  | retrying =>
    exists at_, retryAtMs (tasks s i) = Some at_ /\
      0 <= secondsLeft at_ nowMs /\
      (at_ <> 0 ->
       label s i nowMs =
       ("Waiting to retry in " +:+ pretty (secondsLeft at_ nowMs) +:+ "s..."))
  | done =>
    exists batch, data s i = Some batch /\
      label s i nowMs =
      ("Done (" +:+ pretty (Z.of_nat (length batch)) +:+ " candles)")
  | error =>
    exists m, errorMessage (tasks s i) = Some m /\
      label s i nowMs = ("Error: " +:+ m)
  end.
Proof.
  intros Hreach Hs.
  pose proof (reachable_stable doneCarriesBatch doneCarriesBatch_stable
                w Hreach s Hs) as Hdone.
  pose proof (reachable_stable statusCarries statusCarries_stable
                w Hreach s Hs i) as Hf.
  cbv zeta in Hf. destruct Hf as [_ Hf]. specialize (Hdone i).
  unfold label.
  destruct (status (tasks s i)) eqn:Est.
  - destruct (retryAtMs (tasks s i)); reflexivity.
  - destruct (retryAtMs (tasks s i)); reflexivity.
  - destruct Hf as [Hat _].
    destruct (retryAtMs (tasks s i)) as [at_|]; [|congruence].
    exists at_. split; [reflexivity|]. split; [unfold secondsLeft; lia|].
    intros Hne. destruct (decide (at_ = 0)); [contradiction|reflexivity].
  - destruct (Hdone eq_refl) as [batch [Hd [Hc _]]].
    exists batch. split; [exact Hd|]. rewrite Hc.
    destruct (retryAtMs (tasks s i)); reflexivity.
  - destruct (errorMessage (tasks s i)) as [m|]; [|congruence].
    exists m. split; [reflexivity|].
    destruct (retryAtMs (tasks s i)); reflexivity.
Qed.

(** X20: the countdown of a retry: after a retryable failure in a calm world
    whose clock is past the epoch, the line of the series is a countdown
    of at most 60 seconds for a reader whose clock is not behind the time
    of the failure, of at most 61 for a reader up to one second behind,
    and of 0 once the wait is over. *)
Theorem retry_countdown (i : Interval) (e : Exn) (err : BinanceApiError)
    (w : World) (st : JobState) :
  calm w -> w_state w = Some st -> isRetryable e = Some err -> 0 < w_now w ->
  exists w' st',
    catchBlock i e w = Continues w' /\ w_state w' = Some st' /\
    forall nowMs,
      exists n,
        label st' i nowMs = ("Waiting to retry in " +:+ pretty n +:+ "s...") /\
        0 <= n /\
        (w_now w <= nowMs -> n <= 60) /\
        (w_now w - 1000 <= nowMs -> n <= 61) /\
        (w_now w' <= nowMs -> n = 0).
Proof.
  intros Hc Hst He Hnow.
  destruct (catchBlock_retryable i e err w st Hc Hst He)
    as [w' [st' [E [_ [Hst' [Ht [Hwait [Hn' _]]]]]]]].
  cbv zeta in Ht, Hwait, Hn'.
  set (wait := fst (computeRetryDelayMs (attempts (tasks st i) + 1)
                      (retryAfterMs err) (w_random w))) in *.
  exists w', st'. split; [exact E|]. split; [exact Hst'|].
  intros nowMs. exists (secondsLeft (w_now w + wait) nowMs).
  split.
  { unfold label. rewrite Ht. cbn [status retryAtMs].
    destruct (decide (w_now w + wait = 0)); [lia|reflexivity]. }
  unfold secondsLeft.
  split; [lia|]. split; [|split]; intros Hle.
  - pose proof (ceilSeconds_le (w_now w + wait - nowMs) 60 ltac:(lia)). lia.
  - pose proof (ceilSeconds_le (w_now w + wait - nowMs) 61 ltac:(lia)). lia.
  - pose proof (ceilSeconds_le (w_now w + wait - nowMs) 0 ltac:(lia)). lia.
Qed.

End Display.

Lemma label_of_snapshot_witness :
  exists s,
    w_state Sample.finished = Some s /\ label s I1m 0 = "Done (1 candles)".
Proof.
  destruct (w_state Sample.finished) as [s|] eqn:Es.
  - pose proof (label_of_snapshot (H := Scenario.browser) Sample.finished s I1m 0
                  (reach_startNewJob _ _ _
                     (reach_fresh (Scenario.fresh [] [] [] [])
                        eq_refl eq_refl eq_refl eq_refl eq_refl))
                  (or_introl Es)) as Hl.
    exists s. split; [reflexivity|].
    revert Es Hl. vm_compute. intros [= <-] [batch [[= <-] Hl]]. exact Hl.
  - exfalso. revert Es. vm_compute. discriminate.
Defined.

Lemma retry_countdown_witness :
  exists w' st',
    catchBlock (H := Scenario.browser) I1m (ApiError Sample.busy) Sample.started
      = Continues w' /\
    w_state w' = Some st' /\
    exists n, label st' I1m 1000 = ("Waiting to retry in " +:+ pretty n +:+ "s...") /\
              0 <= n <= 60.
Proof.
  destruct (retry_countdown (H := Scenario.browser) I1m (ApiError Sample.busy)
              Sample.busy Sample.started Sample.job)
    as [w' [st' [E [Hst Hl]]]].
  - split; reflexivity.
  - reflexivity.
  - reflexivity.
  - reflexivity.
  - exists w', st'. split; [exact E|]. split; [exact Hst|].
    destruct (Hl 1000) as [n [Hn [H0 [H60 _]]]].
    exists n. split; [exact Hn|]. split; [exact H0|].
    apply H60. vm_compute. discriminate.
Defined.

Section Flags.

Lemma filter_all {A} (P : A -> Prop) `{forall x, Decision (P x)} (l : list A) :
  length (filter P l) = length l <-> Forall P l.
Proof.
  induction l as [|a l IH]; [split; [constructor|reflexivity]|].
  pose proof (length_filter P l) as Hle.
  destruct (decide (P a)) as [Hp|Hp].
  - rewrite filter_cons_True by done. simpl. split.
    + intros [= E]. constructor; [exact Hp|apply IH, E].
    + intros Hall. inversion Hall; subst. f_equal. apply IH. assumption.
  - rewrite filter_cons_False by done. simpl. split.
    + intros E. lia.
    + intros Hall. inversion Hall; subst. contradiction.
Qed.

Lemma filter_some {A} (P : A -> Prop) `{forall x, Decision (P x)} (l : list A) :
  (0 < length (filter P l))%nat <-> exists x, x ∈ l /\ P x.
Proof.
  split.
  - intros Hlen. destruct (filter P l) as [|x l'] eqn:E; [simpl in Hlen; lia|].
    assert (Hx : x ∈ filter P l) by (rewrite E; left).
    apply list_elem_of_filter in Hx as [Hp Hin]. eauto.
  - intros [x [Hin Hp]].
    assert (Hx : x ∈ filter P l) by (apply list_elem_of_filter; auto).
    destruct (filter P l); [inversion Hx|simpl; lia].
Qed.

(** X21: the flags of the download button: [allCompleted] holds exactly when
    there is a job and each of the nine series is [done]; [anyCompleted]
    exactly when there is a job with a [done] series; the button is
    enabled exactly when [anyCompleted] holds; a job with [allCompleted]
    has nothing left to resume. *)
Theorem download_flags (state : option JobState) :
  (allCompleted state = true <->
   exists s, state = Some s /\ forall i, status (tasks s i) = done) /\
  (anyCompleted state = true <->
   exists s i, state = Some s /\ status (tasks s i) = done) /\
  (downloadDisabled state = false <-> anyCompleted state = true) /\
  (allCompleted state = true -> anyCompleted state = true) /\
  (forall s, state = Some s -> allCompleted state = true -> unfinished s = false).
Proof.
  assert (Hall : allCompleted state = true <->
                 exists s, state = Some s /\ forall i, status (tasks s i) = done).
  { unfold allCompleted. rewrite bool_decide_eq_true.
    destruct state as [s|]; simpl.
    - rewrite filter_all, Forall_forall. split.
      + intros Hd. exists s. split; [reflexivity|].
        intros i. apply Hd, INTERVALS_complete.
      + intros [s' [[= <-] Hd]] i _. apply Hd.
    - split; [discriminate|]. intros [s [E _]]. discriminate E. }
  assert (Hany : anyCompleted state = true <->
                 exists s i, state = Some s /\ status (tasks s i) = done).
  { unfold anyCompleted. rewrite bool_decide_eq_true.
    destruct state as [s|]; simpl.
    - rewrite filter_some. split.
      + intros [i [_ Hi]]. eauto.
      + intros [s' [i [[= <-] Hi]]]. exists i.
        split; [apply INTERVALS_complete|exact Hi].
    - split; [lia|]. intros [s [i [E _]]]. discriminate E. }
  split; [exact Hall|]. split; [exact Hany|]. split; [|split].
  - unfold downloadDisabled. destruct state as [s|].
    + destruct (anyCompleted (Some s)); simpl; split; congruence.
    + split; [discriminate|]. intros E. apply Hany in E as [s [i [E _]]].
      discriminate E.
  - intros E. apply Hall in E as [s [-> Hd]]. apply Hany.
    exists s, I1m. split; [reflexivity|apply Hd].
  - intros s -> E. apply Hall in E as [s' [[= <-] Hd]].
    apply unfinished_false. intros i. left. apply Hd.
Qed.

End Flags.

(** ** The workbook ([buildWorkbook]) *)

Section Workbook.
Context `{Host}.

(** X22: the workbook of any job: one sheet for each series, in the configured
    order, and the sheet [meta] last, under ten distinct names; a series
    is listed as succeeded exactly when it is [done] and as failed exactly
    when it is [error], never as both; the two lists cover the nine
    series exactly when the job has nothing left to resume. *)
Theorem buildWorkbook_sheets (s : JobState) (now : Z) :
  map fst (buildWorkbook s now) = map interval_name INTERVALS ++ ["meta"] /\
  NoDup (map fst (buildWorkbook s now)) /\
  (forall it, (interval_name it, CandleSheet (toRows s it)) ∈ buildWorkbook s now) /\
  (forall it, it ∈ intervalsSucceeded s <-> status (tasks s it) = done) /\
  (forall it, it ∈ intervalsFailed s <-> status (tasks s it) = error) /\
  (forall it, it ∈ intervalsSucceeded s -> it ∉ intervalsFailed s) /\
  (unfinished s = false <->
   forall it, it ∈ intervalsSucceeded s \/ it ∈ intervalsFailed s).
Proof.
  assert (Hs : forall it, it ∈ intervalsSucceeded s <-> status (tasks s it) = done).
  { intros it. unfold intervalsSucceeded. rewrite list_elem_of_filter.
    pose proof (INTERVALS_complete it). tauto. }
  assert (Hf : forall it, it ∈ intervalsFailed s <-> status (tasks s it) = error).
  { intros it. unfold intervalsFailed. rewrite list_elem_of_filter.
    pose proof (INTERVALS_complete it). tauto. }
  split; [reflexivity|]. split.
  { apply (bool_decide_unpack _). vm_compute. exact I. }
  split.
  { intros it. unfold buildWorkbook. apply elem_of_app. left.
    apply (list_elem_of_fmap_2
             (fun it => (interval_name it, CandleSheet (toRows s it)))).
    apply INTERVALS_complete. }
  split; [exact Hs|]. split; [exact Hf|]. split.
  { intros it Hit Hit'. apply Hs in Hit. apply Hf in Hit'. congruence. }
  rewrite unfinished_false. unfold terminal.
  split; intros Hall it; specialize (Hall it);
    rewrite Hs, Hf in *; exact Hall.
Qed.

Lemma notes_of (s : JobState) (l : list Interval) :
  doneCarriesBatch s ->
  flat_map (fun it =>
              match noted s it with
              | Some m => [interval_name it +:+ ": " +:+ m]
              | None => []
              end) l =
  map (fun it => interval_name it +:+ ": Returned fewer than 1000 candles")
    (filter (fun it => status (tasks s it) = done /\
                       (length (toRows s it) < 1000)%nat) l).
Proof.
  intros Hdone. induction l as [|it l IH]; [reflexivity|].
  cbn [flat_map]. rewrite IH. clear IH.
  unfold noted at 1.
  destruct (decide (status (tasks s it) = done)) as [Ed|Ed].
  - destruct (Hdone it Ed) as [batch [Hd [_ Hm]]].
    rewrite Hm.
    destruct (decide (length batch < 1000)%nat) as [Hlt|Hge].
    + rewrite filter_cons_True by (unfold toRows; rewrite Hd; auto).
      destruct (decide (_ = "")) as [E|_]; [discriminate E|].
      destruct (decide (status (tasks s it) = done)); [|contradiction].
      reflexivity.
    + rewrite filter_cons_False
        by (unfold toRows; rewrite Hd; cbn [default]; tauto).
      reflexivity.
  - rewrite filter_cons_False by tauto.
    destruct (errorMessage (tasks s it)) as [m|]; [|reflexivity].
    destruct (decide (m = "")); [reflexivity|].
    destruct (decide (status (tasks s it) = done)); [contradiction|reflexivity].
Qed.

(** X23: the workbook of a snapshot.  In every snapshot of a reachable
    world, however the turns of the loops follow one another, the sheet of
    a [done] series has as many rows as the count of the series says, and
    the notes name exactly the [done] series whose batch has fewer than
    1000 records, each with the advisory text, so that the message of a
    failed series is never given as a note.  When each loop is left to
    itself, moreover, a sheet has rows only for a terminal series. *)
Theorem buildWorkbook_of_snapshot (w : World) (s : JobState) :
  snapshotOf w s ->
  (reachable w ->
   (forall it, status (tasks s it) = done ->
      count (tasks s it) = Some (Z.of_nat (length (toRows s it)))) /\
   notes s =
     map (fun it => interval_name it +:+ ": Returned fewer than 1000 candles")
       (filter (fun it => status (tasks s it) = done /\
                          (length (toRows s it) < 1000)%nat) INTERVALS)) /\
  (undisturbed w ->
   forall it, toRows s it <> [] -> terminal (status (tasks s it))).
Proof.
  intros Hs. split.
  - intros Hreach.
    pose proof (reachable_stable doneCarriesBatch doneCarriesBatch_stable
                  w Hreach s Hs) as Hdone.
    split.
    + intros it Ed. destruct (Hdone it Ed) as [batch [Hd [Hc _]]].
      unfold toRows. rewrite Hd. exact Hc.
    + apply notes_of, Hdone.
  - intros Hund.
    pose proof (undisturbed_preserved fieldsConsistent fieldsConsistent_preserved
                  w Hund s Hs) as Hf.
    intros it Hrows. specialize (Hf it). cbv zeta in Hf.
    destruct Hf as [_ Hf]. unfold terminal, toRows in *.
    destruct (status (tasks s it)); auto; exfalso; apply Hrows;
      destruct_and!;
      match goal with Hd : data s it = None |- _ => rewrite Hd end;
      reflexivity.
Qed.

End Workbook.

Lemma buildWorkbook_of_snapshot_witness :
  exists s,
    w_state Sample.finished = Some s /\
    forall it, status (tasks s it) = done ->
      count (tasks s it) = Some (Z.of_nat (length (toRows s it))).
Proof.
  destruct (w_state Sample.finished) as [s|] eqn:Es.
  - destruct (buildWorkbook_of_snapshot (H := Scenario.browser) Sample.finished s
                (or_introl Es)) as [Hreach _].
    exists s. split; [reflexivity|]. apply Hreach.
    apply reach_startNewJob, reach_fresh; reflexivity.
  - exfalso. revert Es. vm_compute. discriminate.
Defined.

(** ** A batch that cannot be saved *)

Section UnsavedWrites.
Context `{Host}.

(** A write that both tiers reject: the exception is the one of the
    fallback tier, nothing is stored and the observer is not called. *)
Lemma persistAndEmit_fails (s : JobState) (w : World) (name msg : string)
    (more : list Fault) :
  primaryFails w -> w_local_faults w = Some (name, msg) :: more ->
  fst (persistAndEmit s w) = Throw (DomError name msg) /\
  w_state (snd (persistAndEmit s w)) = Some s /\
  w_observed (snd (persistAndEmit s w)) = w_observed w /\
  w_idb (snd (persistAndEmit s w)) = w_idb w /\
  w_local (snd (persistAndEmit s w)) = w_local w.
Proof.
  intros Hp Hl.
  assert (Hf : fallbackFails (set_state (Some s) w)).
  { exists (name, msg), more. exact Hl. }
  destruct (storage_set_fails s (set_state (Some s) w) Hp Hf)
    as [name' [msg' [more' [Hl' Hthrow]]]].
  simpl in Hl'. rewrite Hl in Hl'. injection Hl' as <- <- <-.
  pose proof (storage_set_frame s (set_state (Some s) w)) as [_ Hkeep].
  rewrite Hthrow in Hkeep. simpl in Hkeep. destruct Hkeep as [Hi Hlo].
  destruct (persistAndEmit_tiers s w) as [Ei El].
  rewrite <- persistAndEmit_result in Hthrow.
  split; [exact Hthrow|]. split; [apply persistAndEmit_state|].
  split; [rewrite persistAndEmit_observed, Hthrow; reflexivity|].
  split; congruence.
Qed.

(** A write that a tier accepts. *)
Lemma persistAndEmit_saved (s : JobState) (w : World) :
  ~ primaryFails w \/ ~ fallbackFails w ->
  fst (persistAndEmit s w) = Ok tt /\
  w_state (snd (persistAndEmit s w)) = Some s /\
  w_observed (snd (persistAndEmit s w)) = w_observed w ++ [Some s] /\
  (w_idb (snd (persistAndEmit s w)) = Some s \/
   w_local (snd (persistAndEmit s w)) = Some s).
Proof.
  intros Hok.
  assert (E : fst (storage_set s (set_state (Some s) w)) = Ok tt).
  { apply storage_set_ok. exact Hok. }
  destruct (persistAndEmit_tiers s w) as [Ei El].
  destruct (storage_set_tier s (set_state (Some s) w) E) as [[_ Hv]|[_ Hv]].
  all: rewrite <- persistAndEmit_result in E.
  all: split; [exact E|]; split; [apply persistAndEmit_state|].
  all: split; [rewrite persistAndEmit_observed, E; reflexivity|].
  - right. congruence.
  - left. congruence.
Qed.

(** The write of a fetched batch that both tiers reject, and the handler
    that receives its exception. *)
Lemma tryBlock_unsaved (i : Interval) (o : FetchOutcome)
    (candles : list CandleRow) (w : World) (st : JobState)
    (name msg : string) (more : list Fault) :
  w_state w = Some st -> fetchKlines_request (w_now w) o = Ok candles ->
  primaryFails w -> w_local_faults w = Some (name, msg) :: more ->
  exists w3 r w4,
    tryBlock i o w = (Throw (DomError name msg), w3) /\
    w_observed w3 = w_observed w /\
    catchBlock i (DomError name msg) w3 = Ends r w4 /\
    r = fst (setState (toError i msg) w3) /\
    let failed := toError i msg (w_now w3) (toDone i candles (w_now w) st) in
    w_state w4 = Some failed /\
    (w_observed w4 = w_observed w \/ w_observed w4 = w_observed w ++ [Some failed]).
Proof.
  intros Hst Hfetch Hp Hl.
  unfold tryBlock, onIntervalSuccess. rewrite Hfetch.
  set (s1 := toDone i candles (w_now w) st).
  assert (E1 : setState (toDone i candles) w = persistAndEmit s1 w).
  { unfold setState. rewrite Hst. reflexivity. }
  rewrite E1.
  destruct (persistAndEmit_fails s1 w name msg more Hp Hl)
    as [Hthrow [Hs3 [Ho3 _]]].
  destruct (persistAndEmit s1 w) as [r3 w3]. simpl in Hthrow, Hs3, Ho3.
  subst r3.
  set (s2 := toError i msg (w_now w3) s1).
  assert (E2 : setState (toError i msg) w3 = persistAndEmit s2 w3).
  { unfold setState. rewrite Hs3. reflexivity. }
  exists w3, (fst (persistAndEmit s2 w3)), (snd (persistAndEmit s2 w3)).
  split; [reflexivity|]. split; [exact Ho3|].
  split.
  { unfold catchBlock. cbn [isRetryable message_or]. rewrite E2.
    destruct (persistAndEmit s2 w3); reflexivity. }
  split; [rewrite E2; reflexivity|].
  cbv zeta. fold s1. fold s2.
  split; [apply persistAndEmit_state|].
  rewrite persistAndEmit_observed, Ho3.
  destruct (fst (persistAndEmit s2 w3)); auto.
Qed.

(** What the snapshot of such a series holds. *)
Lemma toError_toDone (i : Interval) (candles : list CandleRow) (msg : string)
    (now now' : Z) (st : JobState) :
  let failed := toError i msg now' (toDone i candles now st) in
  status (tasks failed i) = error /\ errorMessage (tasks failed i) = Some msg /\
  data failed i = Some candles /\
  count (tasks failed i) = Some (Z.of_nat (length candles)) /\
  attempts (tasks failed i) = attempts (tasks st i) /\
  retryAtMs (tasks failed i) = None.
Proof.
  cbv zeta. unfold toError, toDone. cbn. rewrite !fn_lookup_insert.
  repeat split; reflexivity.
Qed.

(** X24: when the fetch succeeds but both storage tiers reject the write of the
    [done] snapshot, the exception of the fallback tier is caught by the
    handler of the fetch as a failure that is not retryable: the series
    ends [error] with the message of the storage exception, while the job
    in memory keeps the fetched batch and its count; the observer never
    receives the [done] snapshot. *)
Theorem unsaved_success_becomes_error (i : Interval) (o : FetchOutcome)
    (candles : list CandleRow) (w : World) (st : JobState) :
  w_state w = Some st -> fetchKlines_request (w_now w) o = Ok candles ->
  primaryFails w -> fallbackFails w ->
  exists name msg w3 r w4 st',
    tryBlock i o w = (Throw (DomError name msg), w3) /\
    w_observed w3 = w_observed w /\
    catchBlock i (DomError name msg) w3 = Ends r w4 /\
    w_state w4 = Some st' /\
    status (tasks st' i) = error /\ errorMessage (tasks st' i) = Some msg /\
    data st' i = Some candles /\
    count (tasks st' i) = Some (Z.of_nat (length candles)) /\
    (w_observed w4 = w_observed w \/ w_observed w4 = w_observed w ++ [Some st']).
Proof.
  intros Hst Hfetch Hp [[name msg] [more Hl]].
  destruct (tryBlock_unsaved i o candles w st name msg more Hst Hfetch Hp Hl)
    as [w3 [r [w4 [E3 [Ho3 [E4 [_ [Hs4 Ho4]]]]]]]].
  destruct (toError_toDone i candles msg (w_now w) (w_now w3) st)
    as [Hs [Hm [Hd [Hc _]]]].
  exists name, msg, w3, r, w4, (toError i msg (w_now w3) (toDone i candles (w_now w) st)).
  auto 10.
Qed.

(** C6, amended: when the fetch of a series succeeds with fewer than 1000
    records, the snapshot that the runner builds has the series [done],
    its count the length of the batch, the batch in the data map, the
    advisory message, no retry time and the attempt counter unchanged.
    When a storage tier accepts the write of that snapshot, the procedure
    returns normally on that answer of the network with that snapshot as
    the job, stored and handed to the observer.  When both tiers reject
    the write, the procedure ends on that answer as well, without another
    fetch, but with the series in [error], the message of the exception
    of the fallback tier, the batch and the count kept, and the attempt
    counter unchanged; the [done] snapshot is not handed to the
    observer. *)
Theorem short_batch_completes (i : Interval) (o : FetchOutcome)
    (rest : list FetchOutcome) (w w2 : World) (st st2 : JobState)
    (candles : list CandleRow) :
  w_state w = Some st ->
  isFinishedStatus (status (tasks st i)) = false ->
  beginAttempt i (tasks st i) w = (Ok tt, w2) ->
  w_state w2 = Some st2 ->
  fetchKlines (Some (proxyBaseUrl st2)) (w_now w2) o = Ok candles ->
  (length candles < 1000)%nat ->
  let finished := toDone i candles (w_now w2) st2 in
  (status (tasks finished i) = done /\
   count (tasks finished i) = Some (Z.of_nat (length candles)) /\
   data finished i = Some candles /\
   errorMessage (tasks finished i) = Some "Returned fewer than 1000 candles" /\
   retryAtMs (tasks finished i) = None /\
   attempts (tasks finished i) = attempts (tasks st i)) /\
  (~ primaryFails w2 \/ ~ fallbackFails w2 ->
   exists w',
     executeInterval i (o :: rest) w = (Some (Ok tt), rest, w') /\
     w_state w' = Some finished /\
     w_observed w' = w_observed w2 ++ [Some finished] /\
     (w_idb w' = Some finished \/ w_local w' = Some finished)) /\
  (primaryFails w2 ->
   forall name msg more, w_local_faults w2 = Some (name, msg) :: more ->
   exists r w' failed,
     executeInterval i (o :: rest) w = (Some r, rest, w') /\
     w_state w' = Some failed /\
     status (tasks failed i) = error /\
     errorMessage (tasks failed i) = Some msg /\
     data failed i = Some candles /\
     count (tasks failed i) = Some (Z.of_nat (length candles)) /\
     attempts (tasks failed i) = attempts (tasks st i) /\
     (w_observed w' = w_observed w2 \/
      w_observed w' = w_observed w2 ++ [Some failed])).
Proof.
  intros Hst Hnf Hbegin Hst2 Hcall Hlen finished.
  apply fetchKlines_made in Hcall as [Hurl Hfetch].
  assert (Hrun : exists now, st2 = toRunning i now st).
  { apply (beginAttempt_state i (tasks st i) w); [exact Hst|].
    rewrite Hbegin. exact Hst2. }
  destruct Hrun as [now Hrun].
  assert (Hexec : executeInterval i (o :: rest) w =
                  match tryBlock i o w2 with
                  | (Ok _, w3) => (Some (Ok tt), rest, w3)
                  | (Throw e, w3) =>
                    match catchBlock i e w3 with
                    | Ends r w4 => (Some r, rest, w4)
                    | Continues w4 => executeInterval i rest w4
                    end
                  end).
  { cbn [executeInterval]. rewrite Hst, Hnf, Hbegin, Hst2, Hurl. reflexivity. }
  assert (Hatt : attempts (tasks st2 i) = attempts (tasks st i)).
  { subst st2. simpl. rewrite fn_lookup_insert. reflexivity. }
  split; [|split].
  - subst finished. unfold toDone. cbn. rewrite !fn_lookup_insert. cbn.
    destruct (decide (length candles < 1000)%nat); [|lia].
    repeat split; try reflexivity. exact Hatt.
  - intros Hok. rewrite Hexec. unfold tryBlock, onIntervalSuccess.
    rewrite Hfetch. unfold setState. rewrite Hst2. fold finished.
    destruct (persistAndEmit_saved finished w2 Hok) as [E [Hs [Ho Ht]]].
    destruct (persistAndEmit finished w2) as [r w3]. simpl in E, Hs, Ho, Ht.
    subst r. exists w3. auto.
  - intros Hp name msg more Hl.
    destruct (tryBlock_unsaved i o candles w2 st2 name msg more Hst2 Hfetch Hp Hl)
      as [w3 [r [w4 [E3 [Ho3 [E4 [_ [Hs4 Ho4]]]]]]]].
    destruct (toError_toDone i candles msg (w_now w2) (w_now w3) st2)
      as [Hs [Hm [Hd [Hc [Ha _]]]]].
    rewrite Hexec, E3, E4.
    exists r, w4, (toError i msg (w_now w3) (toDone i candles (w_now w2) st2)).
    split; [reflexivity|]. split; [exact Hs4|].
    repeat (split; [assumption|]).
    split; [congruence|exact Ho4].
Qed.

(** C1, amended: a mutation of the current job always takes effect in
    memory.  When a storage tier accepts the write, the mutation resolves,
    the snapshot is stored in that tier and the observer receives it.
    When both tiers reject the write, the mutation throws the exception of
    the fallback tier, nothing is stored and the observer is not called;
    [updateSettings] and [startNewJob] pass that exception to their
    caller, whereas the exception of the write that follows a successful
    fetch is caught inside the per-series procedure, which records its
    message on the series through another mutation and returns normally
    when that one is stored. *)
Theorem setState_persistence (w : World) (previous : JobState) :
  w_state w = Some previous ->
  (forall mutator,
     let next := mutator (w_now w) previous in
     let after := setState mutator w in
     w_state (snd after) = Some next /\
     (~ primaryFails w \/ ~ fallbackFails w ->
      fst after = Ok tt /\
      w_observed (snd after) = w_observed w ++ [Some next] /\
      (w_idb (snd after) = Some next \/ w_local (snd after) = Some next)) /\
     (primaryFails w ->
      forall name msg more, w_local_faults w = Some (name, msg) :: more ->
        fst after = Throw (DomError name msg) /\
        w_observed (snd after) = w_observed w /\
        w_idb (snd after) = w_idb w /\ w_local (snd after) = w_local w)) /\
  (primaryFails w ->
   forall name msg more, w_local_faults w = Some (name, msg) :: more ->
     (forall settings,
        fst (updateSettings settings w) = Throw (DomError name msg)) /\
     (forall options script,
        fst (startNewJob options script w)
        = (Some (Throw (DomError name msg)), script)) /\
     (forall i o candles,
        fetchKlines_request (w_now w) o = Ok candles ->
        exists w3 r w4,
          tryBlock i o w = (Throw (DomError name msg), w3) /\
          catchBlock i (DomError name msg) w3 = Ends r w4 /\
          (~ primaryFails w3 \/ ~ fallbackFails w3 -> r = Ok tt) /\
          forall failed, w_state w4 = Some failed ->
            status (tasks failed i) = error /\
            errorMessage (tasks failed i) = Some msg)).
Proof.
  intros Hprev. split.
  - intros mutator next after. subst after. unfold setState. rewrite Hprev.
    fold next. split; [apply persistAndEmit_state|]. split.
    + intros Hok.
      destruct (persistAndEmit_saved next w Hok) as [E [_ [Ho Ht]]]. auto.
    + intros Hp name msg more Hl.
      destruct (persistAndEmit_fails next w name msg more Hp Hl)
        as [E [_ [Ho [Hi Hlo]]]]. auto.
  - intros Hp name msg more Hl. split; [|split].
    + intros settings. unfold updateSettings, setState. rewrite Hprev.
      apply (persistAndEmit_fails _ w name msg more Hp Hl).
    + intros options script. unfold startNewJob.
      assert (Hu : primaryFails (snd (randomUUID w)) /\
                   w_local_faults (snd (randomUUID w)) = Some (name, msg) :: more).
      { unfold randomUUID. destruct (w_uuids w); simpl; auto. }
      destruct (randomUUID w) as [uuid w0]. simpl in Hu. destruct Hu as [Hp0 Hl0].
      match goal with
      | |- context [persistAndEmit ?s0 w0] =>
        destruct (persistAndEmit_fails s0 w0 name msg more Hp0 Hl0) as [E _];
        destruct (persistAndEmit s0 w0) as [r w1]
      end.
      simpl in E. subst r. reflexivity.
    + intros i o candles Hfetch.
      destruct (tryBlock_unsaved i o candles w previous name msg more
                  Hprev Hfetch Hp Hl)
        as [w3 [r [w4 [E3 [_ [E4 [Er [Hs4 _]]]]]]]].
      exists w3, r, w4. split; [exact E3|]. split; [exact E4|]. split.
      * intros Hok. subst r. unfold setState.
        destruct (w_state w3) as [s3|]; [|reflexivity].
        apply persistAndEmit_saved, Hok.
      * intros failed Hfailed. cbv zeta in Hs4. rewrite Hs4 in Hfailed.
        injection Hfailed as <-.
        destruct (toError_toDone i candles msg (w_now w) (w_now w3) previous)
          as [Hs [Hm _]]. auto.
Qed.

End UnsavedWrites.

Lemma unsaved_success_becomes_error_witness :
  exists name msg w3 r w4 st',
    tryBlock (H := Scenario.browser) I1m (Scenario.okResponse 1) Sample.unsavable
      = (Throw (DomError name msg), w3) /\
    catchBlock (H := Scenario.browser) I1m (DomError name msg) w3 = Ends r w4 /\
    w_state w4 = Some st' /\ status (tasks st' I1m) = error.
Proof.
  destruct (unsaved_success_becomes_error (H := Scenario.browser) I1m
              (Scenario.okResponse 1) Sample.batch Sample.unsavable Sample.job)
    as [name [msg [w3 [r [w4 [st' [E3 [_ [E4 [Hst [Hs _]]]]]]]]]]].
  - reflexivity.
  - reflexivity.
  - right. do 2 eexists. reflexivity.
  - do 2 eexists. reflexivity.
  - exists name, msg, w3, r, w4, st'. auto.
Defined.

(** C6, as stated, fails: the fetch of the first series succeeds with
    three records, but both tiers reject the write of the [done]
    snapshot; the series ends in [error] with the message of the storage
    exception, and the run goes on with the next series. *)
Lemma short_batch_unsaved_ends_error :
  let w := Scenario.fresh [None; None; Scenario.broken] [Scenario.quota] [] [] in
  let after :=
    startNewJob (H := Scenario.browser) Scenario.btc [Scenario.okResponse 3] w in
  let seen := fun s : JobState =>
    (status (tasks s I1m), errorMessage (tasks s I1m), count (tasks s I1m),
     length <$> data s I1m, status (tasks s I5m)) in
  length <$> (match fetchKlines (H := Scenario.browser) (Some "") 1000
                      (Scenario.okResponse 3) with
              | Ok rows => Some rows
              | Throw _ => None
              end) = Some 3%nat /\
  fst after = (None, []) /\
  seen <$> w_state (snd after)
  = Some (error, Some "The quota has been exceeded.", Some 3, Some 3%nat, running).
Proof. vm_compute. repeat split; reflexivity. Qed.

Lemma short_batch_completes_witness :
  let w :=
    snd (startNewJob (H := Scenario.browser) Scenario.btc []
           (Scenario.fresh [] [] [] [])) in
  exists finished w',
    executeInterval (H := Scenario.browser) I1m [Scenario.okResponse 3] w
    = (Some (Ok tt), [], w') /\
    w_state w' = Some finished /\
    status (tasks finished I1m) = done /\
    count (tasks finished I1m) = Some 3.
Proof.
  intros w.
  destruct (w_state w) as [st|] eqn:Est; [|discriminate Est].
  destruct (beginAttempt (H := Scenario.browser) I1m (tasks st I1m) w)
    as [r w2] eqn:Ebegin.
  assert (Hr : r = Ok tt).
  { revert Ebegin. injection Est as <-. vm_compute. intros [= <- _]. reflexivity. }
  subst r.
  destruct (w_state w2) as [st2|] eqn:Est2;
    [|revert Ebegin Est2; injection Est as <-; vm_compute;
      intros [= <-]; discriminate].
  destruct (fetchKlines (H := Scenario.browser) (Some (proxyBaseUrl st2)) (w_now w2)
              (Scenario.okResponse 3))
    as [candles|e] eqn:Efetch;
    [|revert Ebegin Est2 Efetch; injection Est as <-; vm_compute;
      intros [= <-] [= <-]; discriminate].
  assert (Hlen : length candles = 3%nat).
  { revert Ebegin Est2 Efetch. injection Est as <-. vm_compute.
    intros [= <-] [= <-] [= <-]. reflexivity. }
  destruct (short_batch_completes (H := Scenario.browser) I1m
              (Scenario.okResponse 3) [] w w2 st st2 candles)
    as [[Hdone [Hcount _]] [Hsaved _]];
    [exact Est| |exact Ebegin|exact Est2|exact Efetch|lia|].
  { revert Est. vm_compute. intros [= <-]. reflexivity. }
  destruct Hsaved as [w' [Hexec [Hstate _]]].
  { left. intros [E|[f [more E]]]; [discriminate E|].
    revert Ebegin E. injection Est as <-. vm_compute. intros [= <-]. discriminate. }
  exists (toDone (H := Scenario.browser) I1m candles (w_now w2) st2), w'.
  split; [exact Hexec|]. split; [exact Hstate|]. split; [exact Hdone|].
  rewrite Hcount, Hlen. reflexivity.
Defined.

Lemma setState_persistence_witness :
  let note := fun now s => withLog (H := Scenario.browser) now s "note" in
  fst (setState (H := Scenario.browser) note Sample.unsavable)
  = Throw (DomError "QuotaExceededError" "The quota has been exceeded.") /\
  w_observed (snd (setState (H := Scenario.browser) note Sample.unsavable))
  = w_observed Sample.unsavable.
Proof.
  intros note.
  destruct (setState_persistence (H := Scenario.browser) Sample.unsavable
              Sample.job eq_refl) as [Hmut _].
  destruct (Hmut note) as [_ [_ Hfail]].
  destruct (Hfail (or_intror (ex_intro _ _ (ex_intro _ _ eq_refl)))
              "QuotaExceededError" "The quota has been exceeded." [] eq_refl)
    as [E [Ho _]].
  split; [exact E|exact Ho].
Defined.

Section Resume.
Context `{Host}.






End Resume.


